(** * dau: daily X-media to Telegram sync — shallow embedding and properties

    The development follows the TypeScript sources:
    - [errors.ts]            error classes and the rate-limit classifier
                             (the module the engine imports, and the
                             variant kept in the unnamed module part_001)
    - [types.ts]             records exchanged between the components
    - [config/index.ts]      environment schema and [loadConfig]
    - [state/sqlite.ts]      the three SQLite relations and the job lock
    - [utils/retry.ts], [core/downloader.ts], [adapters/telegram.ts]
    - [core/pipeline.ts]     [SyncPipeline]: the per-run engine
    - [scheduler.ts]         the daily tick loop

    Asynchronous code is sequential here ([await] at every call), so a
    [Promise<T>] becomes a computation over an explicit world that either
    returns a [T] or throws.  Everything outside the repository (the X
    scraper, HTTP, the file system, GramJS, the clock, SHA-256) is a field
    of a [Platform] record that the engine is given; the world holds the
    three SQLite relations, the connection flag of the Telegram client
    and the history of the external calls.  Calls to the logger are left
    out, and so is [init], which creates the relations when they are
    missing and changes no row. *)

From Stdlib Require Import ZArith List String Ascii Bool Lia Sorted.
From stdpp Require Import base gmap strings list pretty.

Open Scope string_scope.
Open Scope Z_scope.

(* ===================================================================== *)
(** ** JavaScript values used by the engine *)
(* ===================================================================== *)

(** A JS [number] as the engine computes with it: an integer or [NaN].
    Every number the engine adds or multiplies is an integer count of
    milliseconds, seconds or bytes. *)
Inductive num :=
| Fin (z : Z)
| NaN.

(** A property read: [None] is [undefined] (the object lacks the key). *)
Definition ToNumber (v : option Z) : num :=
  match v with Some z => Fin z | None => NaN end.

Definition num_mul (a b : num) : num :=
  match a, b with Fin x, Fin y => Fin (x * y) | _, _ => NaN end.

Definition num_add (a b : num) : num :=
  match a, b with Fin x, Fin y => Fin (x + y) | _, _ => NaN end.

(** What can be thrown.  [TwitterRateLimitError] is the class of
    [errors.ts]; [ErrorObj] is any other [Error] instance (with its
    [name]); [ThrownValue] is a thrown non-[Error] value, kept as the
    text [String(value)]. *)
Inductive JsError :=
| TwitterRateLimitError (message : string) (hosts : list string)
| ErrorObj (name : string) (message : string)
| ThrownValue (text : string).

(** [error instanceof Error ? error.message : String(error)] *)
Definition errorMessage (e : JsError) : string :=
  match e with
  | TwitterRateLimitError m _ => m
  | ErrorObj _ m => m
  | ThrownValue t => t
  end.

Definition RangeError_invalid_time : JsError :=
  ErrorObj "RangeError" "Invalid time value".

(** Text of a date column or field.  [ParsesTo ms] is the ISO text of
    the time value [ms], what [toISOString] prints and [new Date(text)]
    reads back; [NotADate s] is a text that [new Date] cannot read, for
    which [getTime()] is [NaN]. *)
Inductive DateText :=
| ParsesTo (ms : Z)
| NotADate (s : string).

Definition Date_getTime (t : DateText) : num :=
  match t with ParsesTo ms => Fin ms | NotADate _ => NaN end.

(** JS truthiness of a string: only the empty string is falsy. *)
Definition DateText_truthy (t : DateText) : bool :=
  match t with
  | ParsesTo _ => true
  | NotADate s => negb (String.eqb s "")
  end.

(** The text of a JS string is kept in UTF-8, one [ascii] per byte.
    [codeUnitsAt] is the number of UTF-16 code units of a character,
    counted at the first byte of its encoding: one for a character of
    one to three bytes, two for a character of four bytes (a surrogate
    pair), none at a continuation byte. *)
Definition codeUnitsAt (c : ascii) : nat :=
  let n := nat_of_ascii c in
  if (n <? 128)%nat then 1%nat
  else if (n <? 192)%nat then 0%nat
  else if (n <? 240)%nat then 1%nat
  else 2%nat.

(** [value.length]: the number of UTF-16 code units. *)
Fixpoint String_length (value : string) : nat :=
  match value with
  | EmptyString => 0%nat
  | String c rest => (codeUnitsAt c + String_length rest)%nat
  end.

(** The largest time value of an ECMAScript [Date], in milliseconds. *)
Definition maxTimeValue : Z := 8640000000000000.

Definition inDateRange (ms : Z) : Prop := - maxTimeValue <= ms <= maxTimeValue.

Definition inDateRangeb (ms : Z) : bool :=
  (- maxTimeValue <=? ms) && (ms <=? maxTimeValue).

(** [new Date(n).toISOString()]: throws [RangeError] on an invalid date. *)
Definition toISOString (n : num) : JsError + DateText :=
  match n with
  | Fin ms => if inDateRangeb ms then inr (ParsesTo ms)
              else inl RangeError_invalid_time
  | NaN => inl RangeError_invalid_time
  end.

(* ===================================================================== *)
(** ** errors.ts *)
(* ===================================================================== *)

Module Errors.

(** ASCII case folding, as the [i] flag of a non-unicode regular
    expression does for the letters of the pattern: code units above 127
    never fold onto ASCII. *)
Definition lowerAscii (c : ascii) : ascii :=
  let n := nat_of_ascii c in
  if (Nat.leb 65 n && Nat.leb n 90)%bool then ascii_of_nat (n + 32) else c.

Fixpoint lowerString (s : string) : string :=
  match s with
  | EmptyString => EmptyString
  | String c r => String (lowerAscii c) (lowerString r)
  end.

(** [p] occurs in [s] at some position. *)
Fixpoint occursIn (p s : string) : bool :=
  String.prefix p s ||
  match s with
  | EmptyString => false
  | String _ r => occursIn p r
  end.

(** [/\(429\)|rate limit/i.test(message)] *)
Definition rateLimitPattern_test (message : string) : bool :=
  let m := lowerString message in
  occursIn "(429)" m || occursIn "rate limit" m.

(** [isTwitterRateLimitError] of [src/errors.ts], the module that
    [core/pipeline.ts] imports: the class test and nothing else. *)
Definition isTwitterRateLimitError (error : JsError) : bool :=
  match error with
  | TwitterRateLimitError _ _ => true
  | _ => false
  end.

(** The tree holds a second version of [errors.ts] (the first twenty
    lines of the unnamed module part_001), which no import of the engine
    reaches.  Its [isTwitterRateLimitError] tests the message as well:
    the class test, then the pattern. *)
Definition isTwitterRateLimitError_byMessage (error : JsError) : bool :=
  match error with
  | TwitterRateLimitError _ _ => true
  | _ => rateLimitPattern_test (errorMessage error)
  end.

(** The pattern as a relation: the message, case folded, contains one of
    the two literals. *)
Definition containsLiteral (p message : string) : Prop :=
  exists pre post, lowerString message = pre +:+ p +:+ post.

Definition matchesRateLimitPattern (message : string) : Prop :=
  containsLiteral "(429)" message \/ containsLiteral "rate limit" message.

End Errors.

(* ===================================================================== *)
(** ** types.ts *)
(* ===================================================================== *)

Inductive MediaType := photo | video | gif.

Definition MediaType_eqb (a b : MediaType) : bool :=
  match a, b with
  | photo, photo | video, video | gif, gif => true
  | _, _ => false
  end.

Module TweetMedia.
Record t := mk { id : string; url : string; type : MediaType }.
End TweetMedia.

Module MediaTweet.
Record t := mk {
  id : string;
  username : string;
  text : string;
  tweetUrl : string;
  postedAt : DateText;
  media : list TweetMedia.t;
}.
End MediaTweet.

Inductive Direction := newer | older.

Module ListTweetsWithMediaParams.
Record t := mk {
  username : string;
  cursor : option string;
  direction : Direction;
  limitPages : Z;
}.
End ListTweetsWithMediaParams.

Module ListTweetsWithMediaResult.
Record t := mk {
  tweets : list MediaTweet.t;
  nextCursor : option string;
}.
End ListTweetsWithMediaResult.

Module LocalMediaFile.
Record t := mk {
  mediaKey : string;
  mediaUrl : string;
  mediaType : MediaType;
  path : string;
  fileSizeBytes : Z;
}.
End LocalMediaFile.

Module SendTweetMediaGroupInput.
Record t := mk {
  tweetUrl : string;
  username : string;
  postedAt : DateText;
  mediaFiles : list LocalMediaFile.t;
}.
End SendTweetMediaGroupInput.

Module SendTweetMediaGroupResult.
Record t := mk { messageIds : list string }.
End SendTweetMediaGroupResult.

(** [AccountState] with the [rateLimitedUntil] field that the state
    repository returns and the engine reads. *)
Module AccountState.
Record t := mk {
  username : string;
  latestSeenTweetId : option string;
  backfillCursor : option string;
  backfillDone : bool;
  rateLimitedUntil : option DateText;
  updatedAt : option DateText;
}.
End AccountState.

Inductive MediaStatus := uploaded | skipped_oversize.

Module StoredMediaRecord.
Record t := mk {
  mediaKey : string;
  tweetId : string;
  username : string;
  mediaUrl : string;
  mediaType : MediaType;
  uploadedAt : DateText;
  telegramMessageIds : list string;
  status : MediaStatus;
}.
End StoredMediaRecord.

(** [AccountRunSummary] with the two cooldown fields that the engine
    sets. *)
Module AccountRunSummary.
Record t := mk {
  username : string;
  uploaded : nat;
  skipped : nat;
  failed : nat;
  incrementalTweetsSelected : nat;
  backfillTweetsSelected : nat;
  incrementalTweetsCandidates : nat;
  backfillTweetsCandidates : nat;
  backfillDone : bool;
  cooldownActive : bool;
  cooldownUntil : option DateText;
}.
End AccountRunSummary.

Module RunSummary.
Record t := mk {
  startedAt : DateText;
  finishedAt : DateText;
  skippedByLock : bool;
  accounts : list AccountRunSummary.t;
}.
End RunSummary.

(* ===================================================================== *)
(** ** The world outside the repository *)
(* ===================================================================== *)

(** What [fetch] resolves to: [body] is absent, or a stream that fails,
    or a stream that delivers that many bytes. *)
Module Response.
Record t := mk { ok : bool; status : Z; body : option (JsError + Z) }.
End Response.

(** Calls that leave the process, in the order they were made.  The
    download and upload events carry the engine's own description of the
    media they concern. *)
Inductive Event :=
| EvListTweets (params : ListTweetsWithMediaParams.t)
| EvMkdir (directory : string)
| EvFetch (mediaKey : string) (mediaUrl : string)
| EvRemoveFile (filePath : string)
| EvSleep (ms : Z)
| EvConnect
| EvSendFile (files : list LocalMediaFile.t) (caption : string)
| EvSendMessage (message : string)
| EvDisconnect.

(** The statements of the transaction of [acquireJobLock]. *)
Inductive LockStatement :=
| BeginImmediate
| SelectLock
| UpsertLock
| Commit
| Rollback.

(** The collaborators behind the [TwitterClient] and GramJS interfaces,
    Node's [fs], [path], [crypto] and [fetch], and the clock.  An answer
    depends on the call and on the moment it is made ([nat]: how many
    external calls and clock readings came before).
    - [sha256_hex text]: [createHash("sha256").update(text).digest("hex")]
    - [path_join], [path_dirname]: [path.join], [path.dirname]
    - [isoText ms]: the text [toISOString] prints for the time value [ms]
    - [Number_ text]: [Number(text)] for the text of a post id
    - [Date_now]: [Date.now()], in milliseconds
    - [twitter_listTweetsWithMedia]: [TwitterClient.listTweetsWithMedia]
    - [fs_mkdir], [fs_rm]: [mkdir(dir, {recursive: true})] and
      [rm(path, {force: true})]; [None] when they resolve
    - [http_fetch]: [fetch(url)], then the streaming of the body to disk
    - [gram_connect]: [client.connect()] then [client.isUserAuthorized()]
    - [gram_sendFile paths caption]: [client.sendFile("me", ...)], as the
      list of the returned messages with the [id] of each when it is a
      number
    - [gram_sendMessage]: [client.sendMessage("me", {message})]
    - [gram_disconnect]: [client.disconnect()]
    - [sqlite_exec statement]: a statement of the job-lock transaction
      run on the connection, which is opened without a busy timeout;
      [Some error] when it throws, as [BEGIN IMMEDIATE] does with
      SQLITE_BUSY while another connection holds the write lock of the
      database file *)
Class Platform := {
  sha256_hex : string -> string;
  path_join : string -> string -> string;
  path_dirname : string -> string;
  isoText : Z -> string;
  Number_ : string -> num;
  process_pid : Z;
  Date_now : nat -> Z;
  twitter_listTweetsWithMedia :
    nat -> ListTweetsWithMediaParams.t -> JsError + ListTweetsWithMediaResult.t;
  fs_mkdir : nat -> string -> option JsError;
  fs_rm : nat -> string -> option JsError;
  http_fetch : nat -> string -> JsError + Response.t;
  gram_connect : nat -> JsError + bool;
  gram_sendFile : nat -> list string -> string -> JsError + list (option Z);
  gram_sendMessage : nat -> string -> option JsError;
  gram_disconnect : nat -> option JsError;
  sqlite_exec : nat -> LockStatement -> option JsError;
}.

(** Rows of the three relations created by [SqliteStateRepo.init]. *)
Module AccountRow.
Record t := mk {
  latest_seen_tweet_id : option string;
  backfill_cursor : option string;
  backfill_done : Z;
  rate_limited_until : option DateText;
  updated_at : DateText;
}.
End AccountRow.

Module LockRow.
Record t := mk { locked_until : DateText; holder_id : string }.
End LockRow.

(** The database file, the GramJS connection flag, and the history of
    external calls (newest first). *)
Record World := mkWorld {
  account_state : gmap string AccountRow.t;
  media_registry : list StoredMediaRecord.t;
  job_lock : gmap string LockRow.t;
  connected : bool;
  tick : nat;
  trace : list Event;
}.

Definition set_account_state (f : gmap string AccountRow.t -> gmap string AccountRow.t)
    (w : World) : World :=
  mkWorld (f (account_state w)) (media_registry w) (job_lock w)
          (connected w) (tick w) (trace w).

Definition set_media_registry (f : list StoredMediaRecord.t -> list StoredMediaRecord.t)
    (w : World) : World :=
  mkWorld (account_state w) (f (media_registry w)) (job_lock w)
          (connected w) (tick w) (trace w).

Definition set_job_lock (f : gmap string LockRow.t -> gmap string LockRow.t)
    (w : World) : World :=
  mkWorld (account_state w) (media_registry w) (f (job_lock w))
          (connected w) (tick w) (trace w).

Definition set_connected (b : bool) (w : World) : World :=
  mkWorld (account_state w) (media_registry w) (job_lock w)
          b (tick w) (trace w).

(** One more external call: the moment advances, the call is recorded. *)
Definition record (ev : Event) (w : World) : World :=
  mkWorld (account_state w) (media_registry w) (job_lock w)
          (connected w) (S (tick w)) (ev :: trace w).

Definition advance (w : World) : World :=
  mkWorld (account_state w) (media_registry w) (job_lock w)
          (connected w) (S (tick w)) (trace w).

(* ===================================================================== *)
(** ** Computations: [Promise<A>] under [await] *)
(* ===================================================================== *)

Definition M (A : Type) : Type := World -> (JsError + A) * World.

Definition ret {A} (a : A) : M A := fun w => (inr a, w).

Definition throw {A} (e : JsError) : M A := fun w => (inl e, w).

Definition bind {A B} (m : M A) (k : A -> M B) : M B :=
  fun w =>
    match m w with
    | (inr a, w') => k a w'
    | (inl e, w') => (inl e, w')
    end.

Declare Scope M_scope.
Delimit Scope M_scope with M.
Bind Scope M_scope with M.
Notation "'let*' x ':=' m 'in' k" := (bind m (fun x => k))
  (at level 10, x pattern, m at level 200, k at level 200) : M_scope.
Notation "m ';;' k" := (bind m (fun _ => k))
  (at level 100, k at level 200, right associativity) : M_scope.
Open Scope M_scope.

(** [try { m } catch (e) { ... }] as a value: the outcome of [m]. *)
Definition attempt {A} (m : M A) : M (JsError + A) :=
  fun w => let '(r, w') := m w in (inr r, w').

(** Resume from an outcome. *)
Definition liftOutcome {A} (r : JsError + A) : M A :=
  fun w => (r, w).

(** [try { m } finally { f }]: [f] runs in both cases, and an error
    thrown by [f] replaces the outcome of [m]. *)
Definition finally {A} (m : M A) (f : M unit) : M A :=
  let* r := attempt m in f ;; liftOutcome r.

Definition get {A} (f : World -> A) : M A := fun w => (inr (f w), w).

Definition modify (f : World -> World) : M unit := fun w => (inr tt, f w).

(** [Date.now()] *)
Definition Date_now_ `{Platform} : M Z :=
  fun w => (inr (Date_now (tick w)), advance w).

(** [new Date().toISOString()]: the clock is always a valid date. *)
Definition nowIso `{Platform} : M DateText :=
  let* now := Date_now_ in ret (ParsesTo now).

(** An external call that may reject. *)
Definition call {A} (ev : Event) (answer : nat -> JsError + A) : M A :=
  fun w => (answer (tick w), record ev w).

Definition call_ (ev : Event) (answer : nat -> option JsError) : M unit :=
  call ev (fun t => match answer t with Some e => inl e | None => inr tt end).

(** [a > b] on JS numbers: false as soon as one side is [NaN]. *)
Definition num_gtb (a b : num) : bool :=
  match a, b with Fin x, Fin y => x >? y | _, _ => false end.

(** [Number.isFinite] *)
Definition Number_isFinite (a : num) : bool :=
  match a with Fin _ => true | NaN => false end.

(* ===================================================================== *)
(** ** state/sqlite.ts: [SqliteStateRepo]

    The statements of [getAccountState], [upsertAccountState],
    [isMediaUploaded], [markMediaUploaded] and [releaseJobLock] run on
    the one connection of the process, outside any handler, and are
    taken not to fail.  [acquireJobLock] has a handler of its own, and
    its statements go through [sqlite_exec]. *)
(* ===================================================================== *)

Module SqliteStateRepo.
Section Repo.
Context `{Platform}.

Definition getAccountState (username : string) : M AccountState.t :=
  let* row := get (fun w => account_state w !! username) in
  match row with
  | None =>
      let* updatedAt := nowIso in
      ret (AccountState.mk username None None false None (Some updatedAt))
  | Some row =>
      ret (AccountState.mk username
             (AccountRow.latest_seen_tweet_id row)
             (AccountRow.backfill_cursor row)
             (AccountRow.backfill_done row =? 1)
             (AccountRow.rate_limited_until row)
             (Some (AccountRow.updated_at row)))
  end.

Definition upsertAccountState (state : AccountState.t) : M unit :=
  let* updatedAt :=
    match AccountState.updatedAt state with
    | Some u => ret u
    | None => nowIso
    end in
  modify (set_account_state
    (insert (AccountState.username state)
       (AccountRow.mk
          (AccountState.latestSeenTweetId state)
          (AccountState.backfillCursor state)
          (if AccountState.backfillDone state then 1 else 0)
          (AccountState.rateLimitedUntil state)
          updatedAt))).

(** [SELECT 1 AS found FROM media_registry WHERE media_key = ?] *)
Definition isMediaUploaded (mediaKey : string) : M bool :=
  get (fun w =>
    existsb (fun r => String.eqb (StoredMediaRecord.mediaKey r) mediaKey)
            (media_registry w)).

(** [INSERT OR REPLACE]: the row that holds the primary key, if any, is
    deleted, then the new row is inserted. *)
Definition insertOrReplace (record : StoredMediaRecord.t)
    (rows : list StoredMediaRecord.t) : list StoredMediaRecord.t :=
  List.filter
    (fun r => negb (String.eqb (StoredMediaRecord.mediaKey r)
                               (StoredMediaRecord.mediaKey record)))
    rows ++ [record].

Definition markMediaUploaded (record : StoredMediaRecord.t) : M unit :=
  modify (set_media_registry (insertOrReplace record)).

(** [this.db.exec(sql)], [statement.get(...)] and [statement.run(...)]
    inside [acquireJobLock]: the statement may throw. *)
Definition db_exec (statement : LockStatement) : M unit :=
  fun w =>
    (match sqlite_exec (tick w) statement with
     | Some error => inl error
     | None => inr tt
     end, w).

(** The statements between [BEGIN IMMEDIATE] and the end of the [try]
    block of [acquireJobLock]. *)
Definition lockTransaction (jobName holderId : string) (now : Z)
    (lockUntil : DateText) : M bool :=
  db_exec SelectLock ;;
  let* current := get (fun w => job_lock w !! jobName) in
  let held :=
    match current with
    | Some row => num_gtb (Date_getTime (LockRow.locked_until row)) (Fin now)
    | None => false
    end in
  if held then
    db_exec Commit ;;
    ret false
  else
    db_exec UpsertLock ;;
    modify (set_job_lock (insert jobName (LockRow.mk lockUntil holderId))) ;;
    db_exec Commit ;;
    ret true.

(** [acquireJobLock]: [try { BEGIN IMMEDIATE; transactionStarted = true;
    ... } catch (error) { if (transactionStarted) ROLLBACK; throw error }].
    When [BEGIN IMMEDIATE] throws no transaction was started and the
    error is thrown again as it is.  [ROLLBACK] leaves the relation as
    it was before the transaction, also when it throws itself (which it
    does when the failed statement has ended the transaction already);
    its error then replaces the one that was caught. *)
Definition acquireJobLock (jobName holderId : string) (ttlSeconds : Z) : M bool :=
  let* now := Date_now_ in
  let* lockUntil := liftOutcome (toISOString (Fin (now + ttlSeconds * 1000))) in
  let* committed := get job_lock in
  let* started := attempt (db_exec BeginImmediate) in
  match started with
  | inl error => throw error
  | inr _ =>
      let* outcome := attempt (lockTransaction jobName holderId now lockUntil) in
      match outcome with
      | inr acquired => ret acquired
      | inl error =>
          modify (set_job_lock (fun _ => committed)) ;;
          db_exec Rollback ;;
          throw error
      end
  end.

(** [DELETE FROM job_lock WHERE job_name = ? AND holder_id = ?] *)
Definition releaseJobLock (jobName holderId : string) : M unit :=
  modify (set_job_lock (fun locks =>
    match locks !! jobName with
    | Some row =>
        if String.eqb (LockRow.holder_id row) holderId
        then delete jobName locks else locks
    | None => locks
    end)).

End Repo.
End SqliteStateRepo.

(* ===================================================================== *)
(** ** utils/fs.ts, utils/hash.ts, utils/retry.ts *)
(* ===================================================================== *)

Section Utils.
Context `{Platform}.

Definition ensureDir (directory : string) : M unit :=
  call_ (EvMkdir directory) (fun t => fs_mkdir t directory).

Definition ensureParentDir (filePath : string) : M unit :=
  ensureDir (path_dirname filePath).

Definition removeFileSafe (filePath : string) : M unit :=
  call_ (EvRemoveFile filePath) (fun t => fs_rm t filePath).

Definition makeMediaKey (tweetId mediaUrl : string) : string :=
  sha256_hex (tweetId +:+ "::" +:+ mediaUrl).

Definition sleep (ms : Z) : M unit :=
  call (EvSleep ms) (fun _ => inr tt).

End Utils.

Module RetryOptions.
Record t := mk { retries : Z; baseDelayMs : Z; factor : Z }.
End RetryOptions.

Section Retry.
Context `{Platform} {A : Type}.

(** The [while (attempt <= options.retries)] loop; [rounds] is the number
    of values [attempt] can still take, [retries - attempt + 1]. *)
Fixpoint withRetry_loop (fn : M A) (options : RetryOptions.t)
    (rounds : nat) (attempt_ : Z) (lastError : JsError) : M A :=
  match rounds with
  | O => throw lastError
  | S rounds' =>
      let* r := attempt fn in
      match r with
      | inr v => ret v
      | inl error =>
          if attempt_ =? RetryOptions.retries options then throw error
          else
            sleep (RetryOptions.baseDelayMs options
                   * RetryOptions.factor options ^ attempt_) ;;
            withRetry_loop fn options rounds' (attempt_ + 1) error
      end
  end.

Definition withRetry (fn : M A) (options : RetryOptions.t) : M A :=
  withRetry_loop fn options
    (Z.to_nat (RetryOptions.retries options + 1)) 0 (ThrownValue "undefined").

End Retry.

(* ===================================================================== *)
(** ** core/downloader.ts *)
(* ===================================================================== *)

Module DownloadMediaInput.
Record t := mk {
  mediaKey : string;
  mediaUrl : string;
  mediaType : MediaType;
  downloadDir : string;
}.
End DownloadMediaInput.

Section Downloader.
Context `{Platform}.

Definition extensionByType (type : MediaType) : string :=
  match type with photo => ".jpg" | _ => ".mp4" end.

Definition downloadMedia (input : DownloadMediaInput.t) : M LocalMediaFile.t :=
  let extension := extensionByType (DownloadMediaInput.mediaType input) in
  let outputPath :=
    path_join (DownloadMediaInput.downloadDir input)
              (DownloadMediaInput.mediaKey input +:+ extension) in
  ensureParentDir outputPath ;;
  let* response :=
    call (EvFetch (DownloadMediaInput.mediaKey input)
                  (DownloadMediaInput.mediaUrl input))
         (fun t => http_fetch t (DownloadMediaInput.mediaUrl input)) in
  match Response.ok response, Response.body response with
  | true, Some stream =>
      let* size := liftOutcome stream in
      ret (LocalMediaFile.mk
             (DownloadMediaInput.mediaKey input)
             (DownloadMediaInput.mediaUrl input)
             (DownloadMediaInput.mediaType input)
             outputPath
             size)
  | _, _ =>
      throw (ErrorObj "Error"
               ("Failed to download media (" +:+ pretty (Response.status response)
                +:+ ")"))
  end.

End Downloader.

(* ===================================================================== *)
(** ** adapters/telegram.ts: [TelegramSavedMessagesClient] *)
(* ===================================================================== *)

Definition newline : string := String (ascii_of_nat 10) EmptyString.

(** [lines.join("\n")] *)
Fixpoint joinLines (lines : list string) : string :=
  match lines with
  | [] => ""
  | [l] => l
  | l :: rest => l +:+ newline +:+ joinLines rest
  end.

(** The [for (index = 0; index < items.length; index += size)] loop of
    [chunkArray]; [rounds] bounds the number of iterations, which is at
    most [items.length] for a positive [size]. *)
Fixpoint chunkArray_loop {T} (rounds : nat) (items : list T) (size index : nat)
    : list (list T) :=
  match rounds with
  | O => []
  | S rounds' =>
      if (index <? length items)%nat
      then firstn size (skipn index items)
           :: chunkArray_loop rounds' items size (index + size)
      else []
  end.

Definition chunkArray {T} (items : list T) (size : nat) : list (list T) :=
  chunkArray_loop (length items) items size 0.

Section Telegram.
Context `{Platform}.

(** The string a date field holds. *)
Definition dateString (t : DateText) : string :=
  match t with ParsesTo ms => isoText ms | NotADate s => s end.

(** [toCaption]: [new Date(input.postedAt).toISOString()] throws on a
    [postedAt] that is not a date; [.filter(Boolean)] drops the empty
    lines. *)
Definition toCaption (input : SendTweetMediaGroupInput.t) (chunkIndex : nat)
    : JsError + string :=
  match toISOString (Date_getTime (SendTweetMediaGroupInput.postedAt input)) with
  | inl e => inl e
  | inr iso =>
      inr (joinLines
        (List.filter (fun l => negb (String.eqb l ""))
           (("@" +:+ SendTweetMediaGroupInput.username input)
            :: dateString iso
            :: SendTweetMediaGroupInput.tweetUrl input
            :: (if (0 <? chunkIndex)%nat
                then ["part " +:+ pretty (chunkIndex + 1)%nat] else []))))
  end.

Definition ensureConnected : M unit :=
  let* isConnected := get connected in
  if isConnected then ret tt
  else
    let* authorized := call EvConnect gram_connect in
    if authorized then modify (set_connected true)
    else throw (ErrorObj "Error"
                  "Telegram session is not authorized. Run auth:telegram first.").

Definition sendTextMessage (message : string) : M unit :=
  ensureConnected ;;
  call_ (EvSendMessage message) (fun t => gram_sendMessage t message).

(** The ids of the messages of one [sendFile] answer that are numbers,
    as strings. *)
Definition numericIds (messages : list (option Z)) : list string :=
  omap (fun id => match id with Some n => Some (pretty n) | None => None end)
       messages.

(** The [for (index ...; index < chunks.length; ...)] loop of
    [sendTweetMediaGroup]. *)
Fixpoint sendChunks (input : SendTweetMediaGroupInput.t)
    (chunks : list (list LocalMediaFile.t)) (index : nat)
    (messageIds : list string) : M (list string) :=
  match chunks with
  | [] => ret messageIds
  | chunk :: rest =>
      let files := List.map LocalMediaFile.path chunk in
      let* caption := liftOutcome (toCaption input index) in
      let* messages :=
        call (EvSendFile chunk caption) (fun t => gram_sendFile t files caption) in
      sendChunks input rest (S index) (messageIds ++ numericIds messages)%list
  end.

Definition sendTweetMediaGroup (input : SendTweetMediaGroupInput.t)
    : M SendTweetMediaGroupResult.t :=
  ensureConnected ;;
  let chunks := chunkArray (SendTweetMediaGroupInput.mediaFiles input) 10 in
  let* messageIds := sendChunks input chunks 0 [] in
  ret (SendTweetMediaGroupResult.mk messageIds).


End Telegram.

(* ===================================================================== *)
(** ** The configuration object the engine reads *)
(* ===================================================================== *)

(** The object held in [deps.config].  The twelve keys of the
    [AppConfig] interface are always present; the engine also reads
    [twitterRateLimitCooldownSeconds], which a given object may lack
    ([None]: the read gives [undefined]). *)
Module AppConfig.
Record t := mk {
  twitterUsers : list string;
  twitterCookies : list string;
  telegramApiId : Z;
  telegramApiHash : string;
  telegramStringSession : string;
  timezone : string;
  stateDbPath : string;
  backfillPagesPerRun : Z;
  maxMediaPerRun : Z;
  downloadTmpDir : string;
  jobLockTtlSeconds : Z;
  maxUploadVideoBytes : Z;
  twitterRateLimitCooldownSeconds : option Z;
}.
End AppConfig.

(* ===================================================================== *)
(** ** core/pipeline.ts: [SyncPipeline] *)
(* ===================================================================== *)

Module ProcessTweetResult.
Record t := mk { uploaded : nat; skipped : nat; failed : nat }.
End ProcessTweetResult.

Definition createAccountSummary (username : string) : AccountRunSummary.t :=
  AccountRunSummary.mk username 0 0 0 0 0 0 0 false false None.

(** [map.set(tweet.id, tweet)] on a [Map] kept in insertion order. *)
Fixpoint Map_set (map : list (string * MediaTweet.t)) (key : string)
    (value : MediaTweet.t) : list (string * MediaTweet.t) :=
  match map with
  | [] => [(key, value)]
  | (k, v) :: rest =>
      if String.eqb k key then (k, value) :: rest
      else (k, v) :: Map_set rest key value
  end.

(** [Array.prototype.sort(compare)]: a sort that keeps the order of the
    elements that compare equal; [compare] gives the sign of the number
    the comparator returns ([NaN] counts as zero). *)
Fixpoint sort_insert {T} (compare : T -> T -> comparison) (x : T) (sorted : list T)
    : list T :=
  match sorted with
  | [] => [x]
  | y :: rest =>
      match compare x y with
      | Gt => y :: sort_insert compare x rest
      | _ => x :: sorted
      end
  end.

Definition Array_sort {T} (compare : T -> T -> comparison) (items : list T) : list T :=
  List.fold_right (sort_insert compare) [] items.

(** What the backfill step of [run] yields: tweets, [nextCursor],
    [backfillDone]. *)
Module Backfill.
Record t := mk {
  tweets : list MediaTweet.t;
  nextCursor : option string;
  backfillDone : bool;
}.
End Backfill.

Section Pipeline.
Context `{Platform}.
Variable config : AppConfig.t.

(** The sign of [Number(left.id) - Number(right.id)]. *)
Definition compareTweetIds (left right : MediaTweet.t) : comparison :=
  match Number_ (MediaTweet.id left), Number_ (MediaTweet.id right) with
  | Fin l, Fin r => Z.compare l r
  | _, _ => Eq
  end.

Definition mergeUniqueTweets (tweets : list MediaTweet.t) : list MediaTweet.t :=
  let map :=
    List.fold_left (fun m tweet => Map_set m (MediaTweet.id tweet) tweet) tweets [] in
  Array_sort compareTweetIds (List.map snd map).

Definition formatFailureReport (error : JsError) (context : string) : string :=
  joinLines
    [ "❌ X media sync failed";
      "context: " +:+ context;
      "error: " +:+ errorMessage error;
      "hint: verify cookies/session and rerun" ].

Definition boolText (b : bool) : string := if b then "true" else "false".

Definition formatAccountLine (account : AccountRunSummary.t) : string :=
  let cooldownSuffix :=
    match AccountRunSummary.cooldownUntil account with
    | Some until =>
        if AccountRunSummary.cooldownActive account && DateText_truthy until
        then " cooldownUntil=" +:+ dateString until else ""
    | None => ""
    end in
  "@" +:+ AccountRunSummary.username account
  +:+ " uploaded=" +:+ pretty (AccountRunSummary.uploaded account)
  +:+ " skipped=" +:+ pretty (AccountRunSummary.skipped account)
  +:+ " failed=" +:+ pretty (AccountRunSummary.failed account)
  +:+ " incremental="
  +:+ pretty (AccountRunSummary.incrementalTweetsSelected account) +:+ "/"
  +:+ pretty (AccountRunSummary.incrementalTweetsCandidates account)
  +:+ " backfill="
  +:+ pretty (AccountRunSummary.backfillTweetsSelected account) +:+ "/"
  +:+ pretty (AccountRunSummary.backfillTweetsCandidates account)
  +:+ " backfillDone=" +:+ boolText (AccountRunSummary.backfillDone account)
  +:+ cooldownSuffix.

Definition formatRunReport (summary : RunSummary.t) : string :=
  joinLines
    ([ "✅ X media sync report";
       "started: " +:+ dateString (RunSummary.startedAt summary);
       "finished: " +:+ dateString (RunSummary.finishedAt summary) ]
     ++ List.map formatAccountLine (RunSummary.accounts summary)).

(** [new Date(Date.now() + config.twitterRateLimitCooldownSeconds * 1000)
      .toISOString()] *)
Definition computeCooldownUntil : M DateText :=
  let* now := Date_now_ in
  liftOutcome
    (toISOString
       (num_add (Fin now)
          (num_mul (ToNumber (AppConfig.twitterRateLimitCooldownSeconds config))
                   (Fin 1000)))).

(** The loop of [collectIncrementalTweets]: tweets are kept up to the
    first one whose id is the (non-empty) latest seen id. *)
Fixpoint takeUntilSeen (latestSeenTweetId : option string)
    (tweets : list MediaTweet.t) : list MediaTweet.t :=
  match tweets with
  | [] => []
  | tweet :: rest =>
      let stop :=
        match latestSeenTweetId with
        | Some latest =>
            negb (String.eqb latest "") && String.eqb (MediaTweet.id tweet) latest
        | None => false
        end in
      if stop then [] else tweet :: takeUntilSeen latestSeenTweetId rest
  end.

Definition collectIncrementalTweets (username : string)
    (latestSeenTweetId : option string)
    : M (list MediaTweet.t * option string) :=
  let params :=
    ListTweetsWithMediaParams.mk username None newer
      (AppConfig.backfillPagesPerRun config) in
  let* response :=
    call (EvListTweets params) (fun t => twitter_listTweetsWithMedia t params) in
  let tweets :=
    takeUntilSeen latestSeenTweetId (ListTweetsWithMediaResult.tweets response) in
  let newestSeenId :=
    match ListTweetsWithMediaResult.tweets response with
    | first :: _ => Some (MediaTweet.id first)
    | [] => latestSeenTweetId
    end in
  ret (tweets, newestSeenId).

(** [!response.nextCursor]: [undefined] and the empty string are falsy. *)
Definition cursorMissing (nextCursor : option string) : bool :=
  match nextCursor with
  | None => true
  | Some c => String.eqb c ""
  end.

Definition collectBackfillTweets (username : string)
    (backfillCursor : option string) : M Backfill.t :=
  let params :=
    ListTweetsWithMediaParams.mk username backfillCursor older
      (AppConfig.backfillPagesPerRun config) in
  let* response :=
    call (EvListTweets params) (fun t => twitter_listTweetsWithMedia t params) in
  ret (Backfill.mk
         (ListTweetsWithMediaResult.tweets response)
         (ListTweetsWithMediaResult.nextCursor response)
         (cursorMissing (ListTweetsWithMediaResult.nextCursor response))).

(** The selection loop of [run]: [break] when the budget is used up,
    [continue] past a tweet that does not fit once something is
    selected. *)
Fixpoint selectTweets (candidates selected : list MediaTweet.t) (mediaBudget : Z)
    : list MediaTweet.t :=
  match candidates with
  | [] => selected
  | tweet :: rest =>
      if mediaBudget <=? 0 then selected
      else
        let mediaCount := Z.of_nat (length (MediaTweet.media tweet)) in
        if (mediaCount >? mediaBudget) && (0 <? length selected)%nat
        then selectTweets rest selected mediaBudget
        else selectTweets rest (selected ++ [tweet])%list (mediaBudget - mediaCount)
  end.

Definition hasId (ids : list string) (tweet : MediaTweet.t) : bool :=
  existsb (String.eqb (MediaTweet.id tweet)) ids.

Definition downloadRetry : RetryOptions.t := RetryOptions.mk 2 1000 2.
Definition sendRetry : RetryOptions.t := RetryOptions.mk 2 1500 2.

Definition addSkipped (r : ProcessTweetResult.t) : ProcessTweetResult.t :=
  ProcessTweetResult.mk (ProcessTweetResult.uploaded r)
    (S (ProcessTweetResult.skipped r)) (ProcessTweetResult.failed r).

Definition addUploaded (r : ProcessTweetResult.t) : ProcessTweetResult.t :=
  ProcessTweetResult.mk (S (ProcessTweetResult.uploaded r))
    (ProcessTweetResult.skipped r) (ProcessTweetResult.failed r).

Definition addFailed (r : ProcessTweetResult.t) : ProcessTweetResult.t :=
  ProcessTweetResult.mk (ProcessTweetResult.uploaded r)
    (ProcessTweetResult.skipped r) (S (ProcessTweetResult.failed r)).

(** The local variables of [processTweet]. *)
Definition Locals : Type := ProcessTweetResult.t * list LocalMediaFile.t.

(** One iteration of [for (const media of tweet.media)].  The locals
    outlive a throw, so the iteration returns them together with the
    error that ended it, if any. *)
Definition processMedia (tweet : MediaTweet.t) (username : string)
    (media : TweetMedia.t) (locals : Locals) : M (option JsError * Locals) :=
  let '(result, downloadedFiles) := locals in
  let mediaKey := makeMediaKey (MediaTweet.id tweet) (TweetMedia.url media) in
  let* isUploaded := SqliteStateRepo.isMediaUploaded mediaKey in
  if isUploaded then ret (None, (addSkipped result, downloadedFiles))
  else
    let* outcome :=
      attempt
        (withRetry
           (downloadMedia
              (DownloadMediaInput.mk mediaKey (TweetMedia.url media)
                 (TweetMedia.type media)
                 (path_join (AppConfig.downloadTmpDir config) username)))
           downloadRetry) in
    match outcome with
    | inl error => ret (Some error, (result, downloadedFiles))
    | inr downloaded =>
        if negb (MediaType_eqb (LocalMediaFile.mediaType downloaded) photo)
           && (LocalMediaFile.fileSizeBytes downloaded
               >? AppConfig.maxUploadVideoBytes config)
        then
          let* uploadedAt := nowIso in
          SqliteStateRepo.markMediaUploaded
            (StoredMediaRecord.mk mediaKey (MediaTweet.id tweet) username
               (TweetMedia.url media) (TweetMedia.type media) uploadedAt []
               skipped_oversize) ;;
          let result := addSkipped result in
          let* removed := attempt (removeFileSafe (LocalMediaFile.path downloaded)) in
          match removed with
          | inl error => ret (Some error, (result, downloadedFiles))
          | inr _ => ret (None, (result, downloadedFiles))
          end
        else ret (None, (result, (downloadedFiles ++ [downloaded])%list))
    end.

(** [for (const media of tweet.media)]: stops at the first throw. *)
Fixpoint mediaLoop (tweet : MediaTweet.t) (username : string)
    (medias : list TweetMedia.t) (locals : Locals) : M (option JsError * Locals) :=
  match medias with
  | [] => ret (None, locals)
  | media :: rest =>
      let* (thrown, locals') := processMedia tweet username media locals in
      match thrown with
      | Some error => ret (Some error, locals')
      | None => mediaLoop tweet username rest locals'
      end
  end.

(** [for (const file of downloadedFiles)] after the send: one
    [markMediaUploaded] per file, all with [sendResult.messageIds]. *)
Fixpoint markUploadedLoop (tweet : MediaTweet.t) (username : string)
    (messageIds : list string) (files : list LocalMediaFile.t)
    (result : ProcessTweetResult.t) : M ProcessTweetResult.t :=
  match files with
  | [] => ret result
  | file :: rest =>
      let* uploadedAt := nowIso in
      SqliteStateRepo.markMediaUploaded
        (StoredMediaRecord.mk (LocalMediaFile.mediaKey file) (MediaTweet.id tweet)
           username (LocalMediaFile.mediaUrl file) (LocalMediaFile.mediaType file)
           uploadedAt messageIds uploaded) ;;
      markUploadedLoop tweet username messageIds rest (addUploaded result)
  end.

(** The [try] block of [processTweet], with the locals as they are when
    it is left and the error that left it, if any. *)
Definition processTweet_try (tweet : MediaTweet.t) (username : string)
    : M (option JsError * Locals) :=
  let* (thrown, (result, downloadedFiles)) :=
    mediaLoop tweet username (MediaTweet.media tweet)
      (ProcessTweetResult.mk 0 0 0, []) in
  match thrown with
  | Some error => ret (Some error, (result, downloadedFiles))
  | None =>
      if (length downloadedFiles =? 0)%nat
      then ret (None, (result, downloadedFiles))
      else
        let* sent :=
          attempt
            (withRetry
               (sendTweetMediaGroup
                  (SendTweetMediaGroupInput.mk (MediaTweet.tweetUrl tweet) username
                     (MediaTweet.postedAt tweet) downloadedFiles))
               sendRetry) in
        match sent with
        | inl error => ret (Some error, (result, downloadedFiles))
        | inr sendResult =>
            let* marked :=
              attempt
                (markUploadedLoop tweet username
                   (SendTweetMediaGroupResult.messageIds sendResult)
                   downloadedFiles result) in
            match marked with
            | inl error => ret (Some error, (result, downloadedFiles))
            | inr result' => ret (None, (result', downloadedFiles))
            end
        end
  end.

(** [Promise.all(paths.map(removeFileSafe))]: every removal is started;
    the promise rejects with the first rejection. *)
Fixpoint removeAll (paths : list string) (rejected : option JsError) : M unit :=
  match paths with
  | [] => match rejected with Some error => throw error | None => ret tt end
  | filePath :: rest =>
      let* removed := attempt (removeFileSafe filePath) in
      removeAll rest
        match rejected, removed with
        | Some error, _ => Some error
        | None, inl error => Some error
        | None, inr _ => None
        end
  end.

Definition processTweet (tweet : MediaTweet.t) (username : string)
    : M ProcessTweetResult.t :=
  let* (thrown, (result, downloadedFiles)) := processTweet_try tweet username in
  let result :=
    match thrown with
    | Some _ => addFailed result
    | None => result
    end in
  removeAll (List.map LocalMediaFile.path downloadedFiles) None ;;
  ret result.

(** [for (const tweet of selected)] with the running totals. *)
Fixpoint processSelected (username : string) (selected : list MediaTweet.t)
    (totals : ProcessTweetResult.t) : M ProcessTweetResult.t :=
  match selected with
  | [] => ret totals
  | tweet :: rest =>
      let* processed := processTweet tweet username in
      processSelected username rest
        (ProcessTweetResult.mk
           (ProcessTweetResult.uploaded totals + ProcessTweetResult.uploaded processed)
           (ProcessTweetResult.skipped totals + ProcessTweetResult.skipped processed)
           (ProcessTweetResult.failed totals + ProcessTweetResult.failed processed))
  end.

(** The tweets the selection loop of [run] picks for one account. *)
Definition selectForAccount (incremental backfill : list MediaTweet.t)
    : list MediaTweet.t :=
  let merged := mergeUniqueTweets (incremental ++ backfill) in
  let incrementalIds := List.map MediaTweet.id incremental in
  let incrementalCandidates := List.filter (hasId incrementalIds) merged in
  let backfillCandidates :=
    List.filter (fun tweet => negb (hasId incrementalIds tweet)) merged in
  selectTweets (incrementalCandidates ++ backfillCandidates) []
    (AppConfig.maxMediaPerRun config).

(** Updates of the [summary] object of one account. *)
Definition withCandidates (incremental backfill : nat) (s : AccountRunSummary.t)
    : AccountRunSummary.t :=
  AccountRunSummary.mk (AccountRunSummary.username s)
    (AccountRunSummary.uploaded s) (AccountRunSummary.skipped s)
    (AccountRunSummary.failed s)
    (AccountRunSummary.incrementalTweetsSelected s)
    (AccountRunSummary.backfillTweetsSelected s)
    incremental backfill
    (AccountRunSummary.backfillDone s) (AccountRunSummary.cooldownActive s)
    (AccountRunSummary.cooldownUntil s).

Definition withSelected (incremental backfill : nat) (s : AccountRunSummary.t)
    : AccountRunSummary.t :=
  AccountRunSummary.mk (AccountRunSummary.username s)
    (AccountRunSummary.uploaded s) (AccountRunSummary.skipped s)
    (AccountRunSummary.failed s)
    incremental backfill
    (AccountRunSummary.incrementalTweetsCandidates s)
    (AccountRunSummary.backfillTweetsCandidates s)
    (AccountRunSummary.backfillDone s) (AccountRunSummary.cooldownActive s)
    (AccountRunSummary.cooldownUntil s).

Definition withTotals (totals : ProcessTweetResult.t) (done : bool)
    (s : AccountRunSummary.t) : AccountRunSummary.t :=
  AccountRunSummary.mk (AccountRunSummary.username s)
    (ProcessTweetResult.uploaded totals) (ProcessTweetResult.skipped totals)
    (ProcessTweetResult.failed totals)
    (AccountRunSummary.incrementalTweetsSelected s)
    (AccountRunSummary.backfillTweetsSelected s)
    (AccountRunSummary.incrementalTweetsCandidates s)
    (AccountRunSummary.backfillTweetsCandidates s)
    done (AccountRunSummary.cooldownActive s)
    (AccountRunSummary.cooldownUntil s).

(** [summary.failed = 1; summary.backfillDone = state.backfillDone] and,
    in the cooldown cases, [cooldownActive] and [cooldownUntil]. *)
Definition withFailure (done : bool) (cooldown : option (option DateText))
    (s : AccountRunSummary.t) : AccountRunSummary.t :=
  AccountRunSummary.mk (AccountRunSummary.username s)
    (AccountRunSummary.uploaded s) (AccountRunSummary.skipped s)
    1%nat
    (AccountRunSummary.incrementalTweetsSelected s)
    (AccountRunSummary.backfillTweetsSelected s)
    (AccountRunSummary.incrementalTweetsCandidates s)
    (AccountRunSummary.backfillTweetsCandidates s)
    done
    (match cooldown with Some _ => true | None => AccountRunSummary.cooldownActive s end)
    (match cooldown with Some c => c | None => AccountRunSummary.cooldownUntil s end).

Definition withCooldownSkip (state : AccountState.t) (s : AccountRunSummary.t)
    : AccountRunSummary.t :=
  AccountRunSummary.mk (AccountRunSummary.username s)
    (AccountRunSummary.uploaded s) (AccountRunSummary.skipped s)
    (AccountRunSummary.failed s)
    (AccountRunSummary.incrementalTweetsSelected s)
    (AccountRunSummary.backfillTweetsSelected s)
    (AccountRunSummary.incrementalTweetsCandidates s)
    (AccountRunSummary.backfillTweetsCandidates s)
    (AccountState.backfillDone state) true (AccountState.rateLimitedUntil state).

(** The inner [try] block of [run] for one account.  [summary] is
    updated in place as the block proceeds, so the block returns it
    together with the error that left the block, if any. *)
Definition syncAccount_try (username : string) (state : AccountState.t)
    (summary : AccountRunSummary.t) : M (option JsError * AccountRunSummary.t) :=
  let* fetched :=
    attempt (collectIncrementalTweets username (AccountState.latestSeenTweetId state)) in
  match fetched with
  | inl error => ret (Some error, summary)
  | inr (incrementalTweets, newestSeenId) =>
      let summary :=
        withCandidates (length incrementalTweets)
          (AccountRunSummary.backfillTweetsCandidates summary) summary in
      let* olderFetch :=
        if AccountState.backfillDone state
        then ret (inr (Backfill.mk [] None true))
        else attempt (collectBackfillTweets username (AccountState.backfillCursor state)) in
      match olderFetch with
      | inl error => ret (Some error, summary)
      | inr backfill =>
          let summary :=
            withCandidates (AccountRunSummary.incrementalTweetsCandidates summary)
              (length (Backfill.tweets backfill)) summary in
          let incrementalIds := List.map MediaTweet.id incrementalTweets in
          let selected := selectForAccount incrementalTweets (Backfill.tweets backfill) in
          let incrementalSelected :=
            length (List.filter (hasId incrementalIds) selected) in
          let summary :=
            withSelected incrementalSelected
              (length selected - incrementalSelected)%nat summary in
          let* processed :=
            attempt (processSelected username selected (ProcessTweetResult.mk 0 0 0)) in
          match processed with
          | inl error => ret (Some error, summary)
          | inr totals =>
              let summary := withTotals totals (Backfill.backfillDone backfill) summary in
              let* written :=
                attempt
                  (SqliteStateRepo.upsertAccountState
                     (AccountState.mk username newestSeenId
                        (Backfill.nextCursor backfill)
                        (Backfill.backfillDone backfill) None None)) in
              match written with
              | inl error => ret (Some error, summary)
              | inr _ => ret (None, summary)
              end
          end
      end
  end.

(** The [catch (error)] block of one account. *)
Definition syncAccount_catch (username : string) (state : AccountState.t)
    (summary : AccountRunSummary.t) (error : JsError) : M AccountRunSummary.t :=
  if Errors.isTwitterRateLimitError error then
    let* cooldownUntil := computeCooldownUntil in
    let summary :=
      withFailure (AccountState.backfillDone state) (Some (Some cooldownUntil))
        summary in
    SqliteStateRepo.upsertAccountState
      (AccountState.mk username
         (AccountState.latestSeenTweetId state)
         (AccountState.backfillCursor state)
         (AccountState.backfillDone state)
         (Some cooldownUntil) None) ;;
    ret summary
  else
    let summary := withFailure (AccountState.backfillDone state) None summary in
    sendTextMessage (formatFailureReport error ("account:" +:+ username)) ;;
    ret summary.

(** [rateLimitedUntilTs] *)
Definition rateLimitedUntilTs (state : AccountState.t) : num :=
  match AccountState.rateLimitedUntil state with
  | Some until => if DateText_truthy until then Date_getTime until else NaN
  | None => NaN
  end.

(** The body of [for (const username of config.twitterUsers)]: the
    summary that is pushed for the account. *)
Definition syncAccount (username : string) : M AccountRunSummary.t :=
  let summary := createAccountSummary username in
  let* state := SqliteStateRepo.getAccountState username in
  let* now := Date_now_ in
  let ts := rateLimitedUntilTs state in
  if Number_isFinite ts && num_gtb ts (Fin now)
  then ret (withCooldownSkip state summary)
  else
    let* (thrown, summary) := syncAccount_try username state summary in
    match thrown with
    | None => ret summary
    | Some error => syncAccount_catch username state summary error
    end.

Fixpoint accountLoop (usernames : list string)
    (accountSummaries : list AccountRunSummary.t) : M (list AccountRunSummary.t) :=
  match usernames with
  | [] => ret accountSummaries
  | username :: rest =>
      let* summary := syncAccount username in
      accountLoop rest (accountSummaries ++ [summary])
  end.

Definition run : M RunSummary.t :=
  let* startMs := Date_now_ in
  let holderId := "sync-" +:+ pretty process_pid +:+ "-" +:+ pretty startMs in
  let* startedAt := nowIso in
  ensureDir (AppConfig.downloadTmpDir config) ;;
  let* lockAcquired :=
    SqliteStateRepo.acquireJobLock "daily-sync" holderId
      (AppConfig.jobLockTtlSeconds config) in
  if negb lockAcquired then
    let* finishedAt := nowIso in
    ret (RunSummary.mk startedAt finishedAt true [])
  else
    finally
      (let* outcome :=
         attempt
           (let* accountSummaries := accountLoop (AppConfig.twitterUsers config) [] in
            let* finishedAt := nowIso in
            let result := RunSummary.mk startedAt finishedAt false accountSummaries in
            sendTextMessage (formatRunReport result) ;;
            ret result) in
       match outcome with
       | inr result => ret result
       | inl error =>
           sendTextMessage (formatFailureReport error "pipeline.run") ;;
           throw error
       end)
      (SqliteStateRepo.releaseJobLock "daily-sync" holderId).

End Pipeline.

(* ===================================================================== *)
(** ** config/index.ts: [syncEnvSchema] and [loadConfig] *)
(* ===================================================================== *)

Module Config.

(** [process.env] *)
Definition Env : Type := string -> option string.

(** What [syncEnvSchema.parse] returns: one value per key of the schema. *)
Record SyncEnv := mkSyncEnv {
  TWITTER_USERS : list string;
  TWITTER_COOKIES_JSON : string;
  TELEGRAM_API_ID : Z;
  TELEGRAM_API_HASH : string;
  TELEGRAM_STRING_SESSION : string;
  TZ : string;
  STATE_DB_PATH : string;
  BACKFILL_PAGES_PER_RUN : Z;
  MAX_MEDIA_PER_RUN : Z;
  DOWNLOAD_TMP_DIR : string;
  JOB_LOCK_TTL_SECONDS : Z;
  MAX_UPLOAD_VIDEO_BYTES : Z;
}.

(** [value.split(",")] *)
Fixpoint splitComma (value : string) : list string :=
  match value with
  | EmptyString => [EmptyString]
  | String c rest =>
      if Ascii.eqb c ","%char then EmptyString :: splitComma rest
      else match splitComma rest with
           | item :: items => String c item :: items
           | [] => [String c EmptyString]
           end
  end.

(** [item.replace(/^@/, "")] *)
Definition stripAt (item : string) : string :=
  match item with
  | String c rest => if Ascii.eqb c "@"%char then rest else item
  | EmptyString => item
  end.

Section Loader.
(** [String.prototype.trim] *)
Variable String_trim : string -> string.
(** [Number(value)] when it is an integer, as [z.coerce.number().int()]
    accepts it. *)
Variable Number_int : string -> option Z.
(** [parseCookies]: [JSON.parse] and the normalisation of the cookie
    entries; [None] when it throws.  [loadConfig] only passes its result
    on. *)
Variable parseCookies : string -> option (list string).

(** [z.string().min(n)]: [input.length >= n], in UTF-16 code units. *)
Definition zString_min (n : nat) (input : option string) : option string :=
  match input with
  | Some v => if (n <=? String_length v)%nat then Some v else None
  | None => None
  end.

(** [z.string().default(d)] *)
Definition zString_default (d : string) (input : option string) : option string :=
  match input with
  | Some v => Some v
  | None => Some d
  end.

(** [z.coerce.number().int().positive()] *)
Definition zPositiveInt (input : option string) : option Z :=
  match input with
  | Some v =>
      match Number_int v with
      | Some n => if 0 <? n then Some n else None
      | None => None
      end
  | None => None
  end.

(** [z.coerce.number().int().positive().default(d)] *)
Definition zPositiveInt_default (d : Z) (input : option string) : option Z :=
  match input with
  | Some _ => zPositiveInt input
  | None => Some d
  end.

Definition usersTransform (value : string) : list string :=
  List.filter (fun item => negb (String.eqb item ""))
    (List.map (fun item => stripAt (String_trim item)) (splitComma value)).

(** [syncEnvSchema.parse(environment)]; [None] when it throws. *)
Definition syncEnvSchema_parse (environment : Env) : option SyncEnv :=
  users ← zString_min 1 (environment "TWITTER_USERS");
  cookies ← zString_min 2 (environment "TWITTER_COOKIES_JSON");
  apiId ← zPositiveInt (environment "TELEGRAM_API_ID");
  apiHash ← zString_min 10 (environment "TELEGRAM_API_HASH");
  session ← zString_default "" (environment "TELEGRAM_STRING_SESSION");
  tz ← zString_default "Asia/Shanghai" (environment "TZ");
  dbPath ← zString_default "/data/state.sqlite" (environment "STATE_DB_PATH");
  pages ← zPositiveInt_default 10 (environment "BACKFILL_PAGES_PER_RUN");
  maxMedia ← zPositiveInt_default 300 (environment "MAX_MEDIA_PER_RUN");
  tmpDir ← zString_default "/tmp/work" (environment "DOWNLOAD_TMP_DIR");
  ttl ← zPositiveInt_default 3300 (environment "JOB_LOCK_TTL_SECONDS");
  maxBytes ←
    zPositiveInt_default (512 * 1024 * 1024) (environment "MAX_UPLOAD_VIDEO_BYTES");
  Some (mkSyncEnv (usersTransform users) cookies apiId apiHash session tz dbPath
          pages maxMedia tmpDir ttl maxBytes).

(** [loadConfig]: the object literal it returns has the twelve keys of
    [AppConfig] and no other. *)
Definition loadConfig (environment : Env) : option AppConfig.t :=
  parsed ← syncEnvSchema_parse environment;
  twitterCookies ← parseCookies (TWITTER_COOKIES_JSON parsed);
  Some (AppConfig.mk
          (TWITTER_USERS parsed)
          twitterCookies
          (TELEGRAM_API_ID parsed)
          (TELEGRAM_API_HASH parsed)
          (TELEGRAM_STRING_SESSION parsed)
          (TZ parsed)
          (STATE_DB_PATH parsed)
          (BACKFILL_PAGES_PER_RUN parsed)
          (MAX_MEDIA_PER_RUN parsed)
          (DOWNLOAD_TMP_DIR parsed)
          (JOB_LOCK_TTL_SECONDS parsed)
          (MAX_UPLOAD_VIDEO_BYTES parsed)
          None).

End Loader.
End Config.

(* ===================================================================== *)
(** ** scheduler.ts: [executeDueRun] *)
(* ===================================================================== *)

Module Scheduler.

Record SchedulerConfig := mkSchedulerConfig {
  timezone : string;
  dailyAt : string;
  dailyAtHour : Z;
  dailyAtMinute : Z;
  tickSeconds : Z;
  runOnStart : bool;
}.

(** What [currentDateParts(scheduler.timezone)] returns. *)
Record DateParts := mkDateParts {
  dateKey : string;
  hour : Z;
  minute : Z;
}.

(** How [runSyncOnce] settles. *)
Inductive Settled :=
| Returned (result : RunSummary.t)
| Rejected (error : JsError).

(** The two variables of the closure, the date parts that the run in
    flight was started with, and the triggers the engine was invoked
    with so far (newest first). *)
Record Daemon := mkDaemon {
  isRunning : bool;
  lastRunDateKey : string;
  inFlight : option DateParts;
  invocations : list string;
}.

Definition dueToday (scheduler : SchedulerConfig) (now : DateParts) : bool :=
  (hour now >? dailyAtHour scheduler)
  || ((hour now =? dailyAtHour scheduler)
      && (minute now >=? dailyAtMinute scheduler)).

(** [executeDueRun] up to [await runSyncOnce(...)]: whether the tick
    invokes the engine. *)
Definition invokes (scheduler : SchedulerConfig) (now : DateParts) (d : Daemon) : bool :=
  if isRunning d then false
  else if negb (dueToday scheduler now) || String.eqb (lastRunDateKey d) (dateKey now)
       then false
       else true.

Definition onTick (scheduler : SchedulerConfig) (now : DateParts) (d : Daemon) : Daemon :=
  if invokes scheduler now d
  then mkDaemon true (lastRunDateKey d) (Some now)
         (("daily-" +:+ dateKey now) :: invocations d)
  else d.

(** [executeDueRun] from the point where [runSyncOnce] settles: the
    [try] continuation or the [catch], then [finally]. *)
Definition onSettled (outcome : Settled) (d : Daemon) : Daemon :=
  match inFlight d with
  | None => d
  | Some now =>
      let key :=
        match outcome with
        | Returned result =>
            if negb (RunSummary.skippedByLock result) then dateKey now
            else lastRunDateKey d
        | Rejected _ => lastRunDateKey d
        end in
      mkDaemon false key None (invocations d)
  end.

Inductive Input :=
| Tick (now : DateParts)
| RunSettled (outcome : Settled).

Definition step (scheduler : SchedulerConfig) (d : Daemon) (i : Input) : Daemon :=
  match i with
  | Tick now => onTick scheduler now d
  | RunSettled outcome => onSettled outcome d
  end.

Definition steps (scheduler : SchedulerConfig) (d : Daemon) (inputs : list Input)
    : Daemon :=
  List.fold_left (step scheduler) inputs d.

(** The inputs are all ticks of the day [key] or settlements. *)
Definition sameDay (key : string) (i : Input) : Prop :=
  match i with
  | Tick now => dateKey now = key
  | RunSettled _ => True
  end.

End Scheduler.

(* ===================================================================== *)
(** ** A scripted platform, for running the engine on examples *)
(* ===================================================================== *)

Module Demo.

(** Decimal digits to a number; anything else is [NaN]. *)
Fixpoint digitsValue (s : string) (acc : Z) : num :=
  match s with
  | EmptyString => Fin acc
  | String c rest =>
      let n := nat_of_ascii c in
      if (Nat.leb 48 n && Nat.leb n 57)%bool
      then digitsValue rest (10 * acc + Z.of_nat (n - 48))
      else NaN
  end.

(** The platform of the examples: the timeline of each account is given
    by [timeline], every download delivers [sizeOf url] bytes, every
    other call succeeds, the clock advances by one millisecond per
    reading, and the digest of a text is the text itself (a stand-in that
    keeps different texts apart). *)
Definition platform
    (timeline : string -> Direction -> JsError + ListTweetsWithMediaResult.t)
    (sizeOf : string -> Z) : Platform :=
  {| sha256_hex := fun text => text;
     path_join := fun a b => a +:+ "/" +:+ b;
     path_dirname := fun filePath => filePath;
     isoText := fun ms => pretty ms;
     Number_ := fun text => digitsValue text 0;
     process_pid := 1;
     Date_now := fun t => 1000 + Z.of_nat t;
     twitter_listTweetsWithMedia := fun _ params =>
       timeline (ListTweetsWithMediaParams.username params)
                (ListTweetsWithMediaParams.direction params);
     fs_mkdir := fun _ _ => None;
     fs_rm := fun _ _ => None;
     http_fetch := fun _ mediaUrl =>
       inr (Response.mk true 200 (Some (inr (sizeOf mediaUrl))));
     gram_connect := fun _ => inr true;
     gram_sendFile := fun t files _ =>
       inr (List.map (fun _ => Some (Z.of_nat t)) files);
     gram_sendMessage := fun _ _ => None;
     gram_disconnect := fun _ => None;
     sqlite_exec := fun _ _ => None |}.

(** SQLITE_BUSY as [node:sqlite] throws it. *)
Definition SQLITE_BUSY : JsError := ErrorObj "Error" "database is locked".

Definition LockStatement_eqb (a b : LockStatement) : bool :=
  match a, b with
  | BeginImmediate, BeginImmediate | SelectLock, SelectLock
  | UpsertLock, UpsertLock | Commit, Commit | Rollback, Rollback => true
  | _, _ => false
  end.

(** The same platform with a database on which one statement of the
    lock transaction throws.  With [BEGIN IMMEDIATE] and SQLITE_BUSY it
    is a database whose write lock is held by another connection. *)
Definition failingPlatform (failing : LockStatement) (error : JsError)
    (timeline : string -> Direction -> JsError + ListTweetsWithMediaResult.t)
    (sizeOf : string -> Z) : Platform :=
  let P := platform timeline sizeOf in
  {| sha256_hex := @sha256_hex P;
     path_join := @path_join P;
     path_dirname := @path_dirname P;
     isoText := @isoText P;
     Number_ := @Number_ P;
     process_pid := @process_pid P;
     Date_now := @Date_now P;
     twitter_listTweetsWithMedia := @twitter_listTweetsWithMedia P;
     fs_mkdir := @fs_mkdir P;
     fs_rm := @fs_rm P;
     http_fetch := @http_fetch P;
     gram_connect := @gram_connect P;
     gram_sendFile := @gram_sendFile P;
     gram_sendMessage := @gram_sendMessage P;
     gram_disconnect := @gram_disconnect P;
     sqlite_exec := fun _ statement =>
       if LockStatement_eqb statement failing then Some error else None |}.


Definition config (users : list string) (maxMedia : Z) (cooldown : option Z)
    : AppConfig.t :=
  AppConfig.mk users [] 1 "0123456789" "" "Asia/Shanghai" "/data/state.sqlite"
    1 maxMedia "/tmp/work" 3300 100 cooldown.

Definition emptyWorld : World := mkWorld ∅ [] ∅ false 0 [].

Definition photoTweet (id user : string) : MediaTweet.t :=
  MediaTweet.mk id user "" ("https://x.com/" +:+ user +:+ "/status/" +:+ id)
    (ParsesTo 0)
    [TweetMedia.mk "m" ("https://img/" +:+ id +:+ ".jpg") photo].

(** Two accounts with one one-photo post each, nothing older. *)
Definition twoAccounts (user : string) (direction : Direction)
    : JsError + ListTweetsWithMediaResult.t :=
  match direction with
  | newer =>
      if String.eqb user "alice"
      then inr (ListTweetsWithMediaResult.mk [photoTweet "1" "alice"] None)
      else inr (ListTweetsWithMediaResult.mk [photoTweet "2" "bob"] None)
  | older => inr (ListTweetsWithMediaResult.mk [] None)
  end.

(** An account without any media post. *)
Definition noPosts (user : string) (direction : Direction)
    : JsError + ListTweetsWithMediaResult.t :=
  inr (ListTweetsWithMediaResult.mk [] None).

(** A source that fails with a plain error. *)
Definition broken (user : string) (direction : Direction)
    : JsError + ListTweetsWithMediaResult.t :=
  inl (ErrorObj "Error" "boom").


(** A source that is rate limited. *)
Definition limited (user : string) (direction : Direction)
    : JsError + ListTweetsWithMediaResult.t :=
  inl (TwitterRateLimitError "Twitter rate limited" ["x.com"]).

(** A source that fails with a plain error that tells of a status 429,
    as the adapter throws when one host is rate limited and the other
    fails otherwise. *)
Definition plain429 (user : string) (direction : Direction)
    : JsError + ListTweetsWithMediaResult.t :=
  inl (ErrorObj "Error" "Request failed (429)").

(** One post with a small photo and a video of 500 bytes (the size cap of
    [config] is 100). *)
Definition mixedTweet : MediaTweet.t :=
  MediaTweet.mk "7" "alice" "" "https://x.com/alice/status/7" (ParsesTo 0)
    [TweetMedia.mk "a" "https://img/7.jpg" photo;
     TweetMedia.mk "b" "https://vid/7.mp4" video].

Definition mixedTimeline (user : string) (direction : Direction)
    : JsError + ListTweetsWithMediaResult.t :=
  match direction with
  | newer => inr (ListTweetsWithMediaResult.mk [mixedTweet] None)
  | older => inr (ListTweetsWithMediaResult.mk [] None)
  end.

(** One post with eleven photos: two albums. *)
Definition albumTweet : MediaTweet.t :=
  MediaTweet.mk "9" "alice" "" "https://x.com/alice/status/9" (ParsesTo 0)
    (List.map
       (fun n : nat => TweetMedia.mk (pretty n) ("https://img/9/" +:+ pretty n) photo)
       (seq 0 11)).

Definition sizes (mediaUrl : string) : Z :=
  if String.eqb mediaUrl "https://vid/7.mp4" then 500 else 10.

(** Stand-ins for the built-ins of the loader: ASCII spaces are trimmed,
    decimal digits are read as a number, and the cookie text yields two
    cookies. *)
Fixpoint trimLeft (s : string) : string :=
  match s with
  | String c rest => if Ascii.eqb c " "%char then trimLeft rest else s
  | EmptyString => s
  end.

Fixpoint trimRight (s : string) : string :=
  match s with
  | String c rest =>
      match trimRight rest with
      | EmptyString => if Ascii.eqb c " "%char then EmptyString
                       else String c EmptyString
      | rest' => String c rest'
      end
  | EmptyString => s
  end.

Definition String_trim (s : string) : string := trimRight (trimLeft s).

Definition Number_int (s : string) : option Z :=
  match digitsValue s 0 with Fin z => Some z | NaN => None end.

Definition parseCookies (raw : string) : option (list string) :=
  Some ["auth_token=a; Domain=.twitter.com; Path=/;";
        "ct0=b; Domain=.twitter.com; Path=/;"].

(** An environment with the required variables, and a cooldown of one
    minute under both names a cooldown variable could have. *)
Definition environment : Config.Env := fun key =>
  if String.eqb key "TWITTER_USERS" then Some "@alice, bob"
  else if String.eqb key "TWITTER_COOKIES_JSON" then Some "[...]"
  else if String.eqb key "TELEGRAM_API_ID" then Some "12345"
  else if String.eqb key "TELEGRAM_API_HASH" then Some "0123456789abcdef"
  else if String.eqb key "TWITTER_RATE_LIMIT_COOLDOWN_SECONDS" then Some "60"
  else if String.eqb key "SOURCE_RATE_LIMIT_COOLDOWN_SECONDS" then Some "60"
  else None.

Definition loadedConfig : option AppConfig.t :=
  Config.loadConfig String_trim Number_int parseCookies environment.

(** The [try] block of [processTweet] on the album post. *)
Definition albumOutcome : (JsError + (option JsError * Locals)) * World :=
  processTweet_try (H := platform mixedTimeline sizes)
    (config ["alice"] 50 (Some 7200)) albumTweet "alice" emptyWorld.


Definition uploadedTotal (summary : RunSummary.t) : nat :=
  List.fold_right Nat.add 0%nat
    (List.map AccountRunSummary.uploaded (RunSummary.accounts summary)).

End Demo.

(* ===================================================================== *)
(** ** Vocabulary of the statements *)
(* ===================================================================== *)

(** [wp m Q w]: run from [w], the computation [m] ends in an outcome and
    a world that satisfy [Q]. *)
Definition wp {A} (m : M A) (Q : JsError + A -> World -> Prop) (w : World) : Prop :=
  Q (fst (m w)) (snd (m w)).

(** The media key has a row in the registry. *)
Definition registered (mediaKey : string) (w : World) : Prop :=
  exists r, In r (media_registry w) /\ StoredMediaRecord.mediaKey r = mediaKey.

(** At most one row per media key. *)
Definition uniqueKeys (w : World) : Prop :=
  NoDup (List.map StoredMediaRecord.mediaKey (media_registry w)).

(** The call downloads the media [mediaKey] or hands it to the sink. *)
Definition touches (mediaKey : string) (ev : Event) : Prop :=
  match ev with
  | EvFetch k _ => k = mediaKey
  | EvSendFile files _ =>
      exists f, In f files /\ LocalMediaFile.mediaKey f = mediaKey
  | _ => False
  end.

(** The file is a video or gif above the size cap. *)
Definition oversize (config : AppConfig.t) (f : LocalMediaFile.t) : Prop :=
  LocalMediaFile.mediaType f <> photo
  /\ LocalMediaFile.fileSizeBytes f > AppConfig.maxUploadVideoBytes config.

(** The call hands a file to the sink. *)
Definition sends (f : LocalMediaFile.t) (ev : Event) : Prop :=
  match ev with
  | EvSendFile files _ => In f files
  | _ => False
  end.

(** The calls made between [w] and [w'], newest first. *)
Definition callsBetween (w w' : World) (calls : list Event) : Prop :=
  trace w' = (calls ++ trace w)%list.

Definition isSendMessage (ev : Event) : Prop :=
  match ev with EvSendMessage _ => True | _ => False end.

(** Number of media of a list of tweets. *)
Fixpoint mediaCount (tweets : list MediaTweet.t) : Z :=
  match tweets with
  | [] => 0
  | tweet :: rest => Z.of_nat (length (MediaTweet.media tweet)) + mediaCount rest
  end.

(** [(hour, minute)] is at or past the configured time of day. *)
Definition atOrPast (scheduler : Scheduler.SchedulerConfig)
    (now : Scheduler.DateParts) : Prop :=
  Scheduler.hour now > Scheduler.dailyAtHour scheduler
  \/ (Scheduler.hour now = Scheduler.dailyAtHour scheduler
      /\ Scheduler.minute now >= Scheduler.dailyAtMinute scheduler).

(** The lock of the job is free at the time [now]: no row, or a row
    whose [locked_until] is not after [now]. *)
Definition lockFree (jobName : string) (now : Z) (w : World) : Prop :=
  job_lock w !! jobName = None
  \/ exists row t, job_lock w !! jobName = Some row
                   /\ Date_getTime (LockRow.locked_until row) = Fin t /\ t <= now.

Definition lockHeld (jobName : string) (now : Z) (w : World) : Prop :=
  exists row t, job_lock w !! jobName = Some row
                /\ Date_getTime (LockRow.locked_until row) = Fin t /\ t > now.

(** A file that may be handed to the sink, given the media keys
    [okKey] that may be: its key is one of them and it is not oversize. *)
Definition okFile (config : AppConfig.t) (okKey : string -> Prop)
    (f : LocalMediaFile.t) : Prop :=
  okKey (LocalMediaFile.mediaKey f) /\ ~ oversize config f.

(** An external call that respects [okKey] and the size cap. *)
Definition okEvent (config : AppConfig.t) (okKey : string -> Prop)
    (ev : Event) : Prop :=
  match ev with
  | EvFetch k _ => okKey k
  | EvSendFile files _ => Forall (okFile config okKey) files
  | _ => True
  end.

(** [m] keeps the invariant [I], and what it returns satisfies [R]. *)
Definition yields {A} (I : World -> Prop) (m : M A) (R : A -> Prop) : Prop :=
  forall w, I w -> wp m (fun r w' => I w' /\ forall a, r = inr a -> R a) w.

Definition keeps {A} (I : World -> Prop) (m : M A) : Prop :=
  yields I m (fun _ => True).

(** The outcome of an [attempt] whose value satisfies [R]. *)
Definition onValue {A} (R : A -> Prop) (r : JsError + A) : Prop :=
  match r with inr a => R a | inl _ => True end.

(** The files collected by the media loop may all be handed to the sink. *)
Definition okLocals (config : AppConfig.t) (okKey : string -> Prop)
    (r : option JsError * Locals) : Prop :=
  Forall (okFile config okKey) (snd (snd r)).

(** Since the world [w0]: the keys in [K] have stayed registered, and
    every external call has left the media of [K] alone and has sent no
    oversize file. *)
Definition sinceInv (config : AppConfig.t) (K : string -> Prop) (w0 w : World)
    : Prop :=
  (forall k, K k -> registered k w)
  /\ exists calls,
       callsBetween w0 w calls
       /\ Forall (okEvent config (fun k => ~ K k)) calls.



(** The bound on what one account uploads in a run: at most the media
    budget, unless exactly one post was selected. *)
Definition accountBound (config : AppConfig.t) (s : AccountRunSummary.t) : Prop :=
  Z.of_nat (AccountRunSummary.uploaded s) <= AppConfig.maxMediaPerRun config
  \/ (AccountRunSummary.incrementalTweetsSelected s
      + AccountRunSummary.backfillTweetsSelected s = 1)%nat.

(** [m] returns only values that satisfy [R]. *)
Definition returns {A} (m : M A) (R : A -> Prop) : Prop :=
  yields (fun _ => True) m R.

(** [m] never throws. *)
Definition neverThrows {A} (m : M A) : Prop :=
  forall w, exists a, fst (m w) = inr a.

(** The world in which [withRetry] makes its attempt number [i] (counted
    from 0) when the attempts before it have failed: each of them was
    followed by the sleep of its delay. *)
Fixpoint retryWorld {A} (fn : M A) (options : RetryOptions.t) (i : nat)
    (w : World) : World :=
  match i with
  | O => w
  | S j =>
      record
        (EvSleep (RetryOptions.baseDelayMs options
                  * RetryOptions.factor options ^ Z.of_nat j))
        (snd (fn (retryWorld fn options j w)))
  end.

(** The delays of the [sleep] calls of a history, newest first. *)
Fixpoint sleepsIn (calls : list Event) : list Z :=
  match calls with
  | [] => []
  | EvSleep ms :: rest => ms :: sleepsIn rest
  | _ :: rest => sleepsIn rest
  end.

(** The albums handed to the sink in a history, oldest first. *)
Fixpoint albumsIn (calls : list Event) : list (list LocalMediaFile.t) :=
  match calls with
  | [] => []
  | EvSendFile files _ :: rest => (albumsIn rest ++ [files])%list
  | _ :: rest => albumsIn rest
  end.

(** The stored row of the account says that its backfill is done. *)
Definition backfillDoneStored (username : string) (w : World) : Prop :=
  exists row, account_state w !! username = Some row
              /\ AccountRow.backfill_done row = 1.

(* ===================================================================== *)
(** ** config/index.ts: [schedulerEnvSchema] and [loadSchedulerConfig] *)
(* ===================================================================== *)

Module SchedulerEnv.

(** The decimal digit [c] is between [lo] and [hi]. *)
Definition digitBetween (lo hi : nat) (c : ascii) : bool :=
  let n := nat_of_ascii c in
  (Nat.leb (48 + lo) n && Nat.leb n (48 + hi))%bool.

(** [/^([01]\d|2[0-3]):([0-5]\d)$/.test(value)] *)
Definition dailyAtPattern_test (value : string) : bool :=
  match value with
  | String h1 (String h2 (String colon (String m1 (String m2 EmptyString)))) =>
      ((digitBetween 0 1 h1 && digitBetween 0 9 h2)
       || (digitBetween 2 2 h1 && digitBetween 0 3 h2))
      && Ascii.eqb colon ":"%char
      && digitBetween 0 5 m1 && digitBetween 0 9 m2
  | _ => false
  end.

(** [value.split(":")] *)
Fixpoint splitColon (value : string) : list string :=
  match value with
  | EmptyString => [EmptyString]
  | String c rest =>
      if Ascii.eqb c ":"%char then EmptyString :: splitColon rest
      else match splitColon rest with
           | item :: items => String c item :: items
           | [] => [String c EmptyString]
           end
  end.

(** [Number(text)] on a text made of decimal digits (the empty text
    gives 0); [loadSchedulerConfig] applies [Number] to the two groups of
    a text that matched the pattern.  [undefined] and any other text
    are read as [NaN]. *)
Fixpoint Number_ofDigits_from (text : string) (acc : Z) : num :=
  match text with
  | EmptyString => Fin acc
  | String c rest =>
      if digitBetween 0 9 c
      then Number_ofDigits_from rest (10 * acc + Z.of_nat (nat_of_ascii c - 48))
      else NaN
  end.

Definition Number_ofDigits (text : option string) : num :=
  match text with
  | Some t => Number_ofDigits_from t 0
  | None => NaN
  end.

(** What [schedulerEnvSchema.parse] returns. *)
Record SchedulerEnv := mkSchedulerEnv {
  TZ : string;
  SYNC_DAILY_AT : string;
  SCHEDULER_TICK_SECONDS : Z;
  SCHEDULER_RUN_ON_START : bool;
}.

Section Loader.
(** [Number(value)] when it is an integer, as [z.coerce.number().int()]
    accepts it. *)
Variable Number_int : string -> option Z.

(** [z.string().regex(...).default("09:00")] *)
Definition zDailyAt (input : option string) : option string :=
  match input with
  | Some v => if dailyAtPattern_test v then Some v else None
  | None => Some "09:00"
  end.

(** [z.string().optional().default("false").transform(value =>
    ["1", "true", "yes", "on"].includes(value.toLowerCase()))] *)
Definition zRunOnStart (input : option string) : bool :=
  let value := match input with Some v => v | None => "false" end in
  existsb (String.eqb (Errors.lowerString value)) ["1"; "true"; "yes"; "on"].

(** [schedulerEnvSchema.parse(environment)]; [None] when it throws. *)
Definition schedulerEnvSchema_parse (environment : Config.Env)
    : option SchedulerEnv :=
  tz ← Config.zString_default "Asia/Shanghai" (environment "TZ");
  dailyAt ← zDailyAt (environment "SYNC_DAILY_AT");
  tickSeconds ←
    Config.zPositiveInt_default Number_int 30 (environment "SCHEDULER_TICK_SECONDS");
  Some (mkSchedulerEnv tz dailyAt tickSeconds
          (zRunOnStart (environment "SCHEDULER_RUN_ON_START"))).

(** [loadSchedulerConfig]: the two numbers of the object it returns, as
    JS numbers. *)
Definition dailyAtNumbers (dailyAt : string) : num * num :=
  let parts := splitColon dailyAt in
  (Number_ofDigits (nth_error parts 0), Number_ofDigits (nth_error parts 1)).

(** [loadSchedulerConfig]; [None] when it throws.  The hour and the
    minute are numbers of the configuration record, so a [NaN] has no
    place in it: [loadSchedulerConfig_numbers] below shows that none
    arises. *)
Definition loadSchedulerConfig (environment : Config.Env)
    : option Scheduler.SchedulerConfig :=
  parsed ← schedulerEnvSchema_parse environment;
  match dailyAtNumbers (SYNC_DAILY_AT parsed) with
  | (Fin dailyAtHour, Fin dailyAtMinute) =>
      Some (Scheduler.mkSchedulerConfig
              (TZ parsed) (SYNC_DAILY_AT parsed) dailyAtHour dailyAtMinute
              (SCHEDULER_TICK_SECONDS parsed) (SCHEDULER_RUN_ON_START parsed))
  | _ => None
  end.

End Loader.

(** [runSchedulerDaemon], the [if (scheduler.runOnStart)] block: the
    engine is invoked with the trigger "startup"; [now] is read after
    the run has settled, and the day is recorded only when the daily
    time has passed by then and the run was not skipped by the lock. *)
Definition runOnStartBlock (scheduler : Scheduler.SchedulerConfig)
    (outcome : Scheduler.Settled) (now : Scheduler.DateParts)
    (d : Scheduler.Daemon) : Scheduler.Daemon :=
  if Scheduler.runOnStart scheduler then
    let key :=
      match outcome with
      | Scheduler.Returned result =>
          if Scheduler.dueToday scheduler now
             && negb (RunSummary.skippedByLock result)
          then Scheduler.dateKey now
          else Scheduler.lastRunDateKey d
      | Scheduler.Rejected _ => Scheduler.lastRunDateKey d
      end in
    Scheduler.mkDaemon false key None ("startup" :: Scheduler.invocations d)
  else d.

(** The variables of [runSchedulerDaemon] when it starts. *)
Definition initialDaemon : Scheduler.Daemon :=
  Scheduler.mkDaemon false "" None [].

End SchedulerEnv.

(* ===================================================================== *)
(** ** adapters/twitter.ts: [TwitterScraperClient]

    The source adapter: the parsing of a timeline answer, the request
    with host fail-over and credential rotation, and the paging of
    [listTweetsWithMedia].  The engine above sees this adapter through
    [twitter_listTweetsWithMedia]. *)
(* ===================================================================== *)

Module TwitterAdapter.

(** JS truthiness of an optional string: [undefined] and the empty
    string are falsy. *)
Definition truthy (value : option string) : bool :=
  match value with
  | Some text => negb (String.eqb text "")
  | None => false
  end.

(** [lines.join(separator)] *)
Fixpoint joinWith (separator : string) (lines : list string) : string :=
  match lines with
  | [] => ""
  | [l] => l
  | l :: rest => l +:+ separator +:+ joinWith separator rest
  end.

(** *** The raw timeline *)

Module Variant.
Record t := mk {
  bitrate : option Z;
  url : option string;
  content_type : option string;
}.
End Variant.

Module RawMedia.
Record t := mk {
  id_str : option string;
  media_url_https : option string;
  type : option string;
  variants : option (list Variant.t);
}.
End RawMedia.

Module Legacy.
Record t := mk {
  id_str : option string;
  full_text : option string;
  created_at : option DateText;
  media : option (list RawMedia.t);
}.
End Legacy.

(** [TweetResultRaw]; [screen_name] stands for
    [core?.user_results?.result?.legacy?.screen_name]. *)
#[warnings="-register-all"]
Inductive TweetResultRaw :=
| mkTweetResultRaw (typename : option string) (tweet : option TweetResultRaw)
    (rest_id : option string) (legacy : option Legacy.t)
    (screen_name : option string).

Definition typename (raw : TweetResultRaw) : option string :=
  match raw with mkTweetResultRaw t _ _ _ _ => t end.

Definition inner_tweet (raw : TweetResultRaw) : option TweetResultRaw :=
  match raw with mkTweetResultRaw _ t _ _ _ => t end.

Definition rest_id (raw : TweetResultRaw) : option string :=
  match raw with mkTweetResultRaw _ _ r _ _ => r end.

Definition legacy (raw : TweetResultRaw) : option Legacy.t :=
  match raw with mkTweetResultRaw _ _ _ l _ => l end.

Definition screen_name (raw : TweetResultRaw) : option string :=
  match raw with mkTweetResultRaw _ _ _ _ s => s end.

(** An [itemContent] that is an object: the fields the adapter reads.
    [cursorType] and [value] are [Some] when they are strings;
    [tweet_results] and [tweetResult] stand for their [result]. *)
Module ItemContent.
Record t := mk {
  cursorType : option string;
  value : option string;
  tweet_results : option TweetResultRaw;
  tweetResult : option TweetResultRaw;
}.
End ItemContent.

(** [entry.content]; an [itemContent] that is missing or not an object
    is [None] (it yields no cursor and no post); [items] lists
    [item?.itemContent] of each element. *)
Module EntryContent.
Record t := mk {
  cursorType : option string;
  value : option string;
  itemContent : option ItemContent.t;
  items : option (list (option ItemContent.t));
}.
End EntryContent.

Module TimelineEntry.
Record t := mk {
  entryId : option string;
  content : option EntryContent.t;
}.
End TimelineEntry.

(** [TimelineInstruction]: its [entries], if any. *)
Definition TimelineInstruction : Type := option (list TimelineEntry.t).

(** [ParsedTimeline] *)
Module ParsedTimeline.
Record t := mk {
  tweets : list MediaTweet.t;
  nextCursor : option string;
}.
End ParsedTimeline.

(** The loop over [item.video_info.variants] of [normalizeMedia], with
    its two variables. *)
Fixpoint bestVariant (variants : list Variant.t) (bestUrl : option string)
    (bestBitrate : Z) : option string * Z :=
  match variants with
  | [] => (bestUrl, bestBitrate)
  | variant :: rest =>
      if negb (truthy (Variant.url variant))
      then bestVariant rest bestUrl bestBitrate
      else if truthy (Variant.content_type variant)
              && negb (Errors.occursIn "mp4"
                         (default "" (Variant.content_type variant)))
      then bestVariant rest bestUrl bestBitrate
      else
        let bitrate := default 0 (Variant.bitrate variant) in
        if bitrate >=? bestBitrate
        then bestVariant rest (Variant.url variant) bitrate
        else bestVariant rest bestUrl bestBitrate
  end.

(** One round of [for (const item of mediaEntries)]: what is pushed. *)
Definition normalizeItem (item : RawMedia.t) : list TweetMedia.t :=
  if negb (truthy (RawMedia.id_str item)) || negb (truthy (RawMedia.type item))
  then []
  else
    let id := default "" (RawMedia.id_str item) in
    let type := default "" (RawMedia.type item) in
    if String.eqb type "photo" && truthy (RawMedia.media_url_https item)
    then [TweetMedia.mk id (default "" (RawMedia.media_url_https item)) photo]
    else if String.eqb type "video" || String.eqb type "animated_gif"
    then
      match RawMedia.variants item with
      | Some variants =>
          let bestUrl := fst (bestVariant variants None (-1)) in
          if truthy bestUrl
          then [TweetMedia.mk id (default "" bestUrl)
                  (if String.eqb type "animated_gif" then gif else video)]
          else []
      | None => []
      end
    else [].

(** [normalizeMedia]; [now] is the clock read by [new Date()].
    [new Date(created_at).toISOString()] throws on a text that is not a
    date. *)
Definition normalizeMedia (raw : TweetResultRaw) (usernameHint : string)
    (now : Z) : JsError + option MediaTweet.t :=
  match legacy raw with
  | None => inr None
  | Some legacy_ =>
      let tweetId :=
        match Legacy.id_str legacy_ with
        | Some id => Some id
        | None => rest_id raw
        end in
      if negb (truthy tweetId) then inr None
      else
        let tweetId := default "" tweetId in
        let username := default usernameHint (screen_name raw) in
        let media :=
          List.concat (List.map normalizeItem (default [] (Legacy.media legacy_))) in
        if (length media =? 0)%nat then inr None
        else
          let postedAt :=
            match Legacy.created_at legacy_ with
            | Some created_at =>
                if DateText_truthy created_at
                then toISOString (Date_getTime created_at)
                else inr (ParsesTo now)
            | None => inr (ParsesTo now)
            end in
          match postedAt with
          | inl error => inl error
          | inr postedAt =>
              inr (Some (MediaTweet.mk tweetId username
                           (default "" (Legacy.full_text legacy_))
                           ("https://x.com/" +:+ username +:+ "/status/" +:+ tweetId)
                           postedAt media))
          end
  end.

(** [getTweetResultFromContent] on an [itemContent] that is an object. *)
Definition getTweetResultFromContent (content : ItemContent.t)
    : option TweetResultRaw :=
  let result :=
    match ItemContent.tweet_results content with
    | Some r => Some r
    | None => ItemContent.tweetResult content
    end in
  match result with
  | None => None
  | Some result =>
      let result :=
        match typename result, inner_tweet result with
        | Some t, Some inner =>
            if String.eqb t "TweetWithVisibilityResults" then inner else result
        | _, _ => result
        end in
      match typename result with
      | Some t =>
          if String.eqb t "Tweet" || String.eqb t "TweetWithVisibilityResults"
          then Some result else None
      | None => None
      end
  end.

(** [extractBottomCursor] of an entry that has a [content]. *)
Definition extractBottomCursor (entryId : option string)
    (content : EntryContent.t) : option string :=
  let itemCursorType :=
    match EntryContent.itemContent content with
    | Some item => ItemContent.cursorType item
    | None => None
    end in
  let itemValue :=
    match EntryContent.itemContent content with
    | Some item => ItemContent.value item
    | None => None
    end in
  if (match EntryContent.cursorType content with
      | Some t => String.eqb t "Bottom"
      | None => false
      end) && truthy (EntryContent.value content)
  then EntryContent.value content
  else if (match itemCursorType with
           | Some t => String.eqb t "Bottom"
           | None => false
           end) && truthy itemValue
  then itemValue
  else if match entryId with
          | Some id => String.prefix "cursor-bottom-" id
          | None => false
          end
  then
    if truthy (EntryContent.value content) then EntryContent.value content
    else if truthy itemValue then itemValue
    else None
  else None.

(** The candidates of an entry: [content.itemContent], then the
    [item.itemContent] of [content.items]. *)
Definition entryCandidates (content : EntryContent.t) : list ItemContent.t :=
  (match EntryContent.itemContent content with
   | Some item => [item]
   | None => []
   end
   ++ omap (fun item => item) (default [] (EntryContent.items content)))%list.

(** [for (const candidate of candidates)] *)
Fixpoint normalizeCandidates (candidates : list ItemContent.t)
    (username : string) (now : Z) (tweets : list MediaTweet.t)
    : JsError + list MediaTweet.t :=
  match candidates with
  | [] => inr tweets
  | candidate :: rest =>
      match getTweetResultFromContent candidate with
      | None => normalizeCandidates rest username now tweets
      | Some result =>
          match normalizeMedia result username now with
          | inl error => inl error
          | inr (Some normalized) =>
              normalizeCandidates rest username now (tweets ++ [normalized])
          | inr None => normalizeCandidates rest username now tweets
          end
      end
  end.

(** [for (const entry of instruction.entries ?? [])] *)
Fixpoint parseEntries (entries : list TimelineEntry.t) (username : string)
    (now : Z) (parsed : ParsedTimeline.t) : JsError + ParsedTimeline.t :=
  match entries with
  | [] => inr parsed
  | entry :: rest =>
      match TimelineEntry.content entry with
      | None => parseEntries rest username now parsed
      | Some content =>
          let cursor := extractBottomCursor (TimelineEntry.entryId entry) content in
          let nextCursor :=
            if truthy cursor then cursor else ParsedTimeline.nextCursor parsed in
          match normalizeCandidates (entryCandidates content) username now
                  (ParsedTimeline.tweets parsed) with
          | inl error => inl error
          | inr tweets =>
              parseEntries rest username now (ParsedTimeline.mk tweets nextCursor)
          end
      end
  end.

(** [for (const instruction of instructions)] *)
Fixpoint parseInstructions (instructions : list TimelineInstruction)
    (username : string) (now : Z) (parsed : ParsedTimeline.t)
    : JsError + ParsedTimeline.t :=
  match instructions with
  | [] => inr parsed
  | instruction :: rest =>
      match parseEntries (default [] instruction) username now parsed with
      | inl error => inl error
      | inr parsed' => parseInstructions rest username now parsed'
      end
  end.

(** [parseTimeline]; [instructions] stands for
    [response.data?.user?.result?.timeline_v2?.timeline?.instructions]. *)
Definition parseTimeline (instructions : option (list TimelineInstruction))
    (username : string) (now : Z) : JsError + ParsedTimeline.t :=
  parseInstructions (default [] instructions) username now
    (ParsedTimeline.mk [] None).

(** *** Requests *)

Inductive TwitterHost := twitter_com | x_com.

Definition hostName (host : TwitterHost) : string :=
  match host with twitter_com => "twitter.com" | x_com => "x.com" end.

Definition TwitterHost_eqb (a b : TwitterHost) : bool :=
  match a, b with
  | twitter_com, twitter_com | x_com, x_com => true
  | _, _ => false
  end.

Definition graphqlHosts : list TwitterHost := [twitter_com; x_com].

Module TwitterApiErrorItem.
Record t := mk { message : option string; code : option Z }.
End TwitterApiErrorItem.

(** What [fetchGraphql] holds in [payload]: the text of the answer when
    it is not JSON (or is a JSON string), [null], another value that is
    not an object, or an object, of which the adapter reads [errors],
    [error] and the data. *)
Inductive Payload (T : Type) :=
| PString (text : string)
| PNull
| PPrimitive
| PObject (errors : option (list TwitterApiErrorItem.t)) (error : option string)
    (data : T).
Arguments PString {T} text.
Arguments PNull {T}.
Arguments PPrimitive {T}.
Arguments PObject {T} errors error data.

Module GraphqlResponse.
Record t (T : Type) := mk { ok : bool; status : Z; payload : Payload T }.
Arguments mk {T} ok status payload.
Arguments ok {T} _.
Arguments status {T} _.
Arguments payload {T} _.
End GraphqlResponse.

(** What a request rejects with inside the adapter: a
    [TwitterGraphqlRequestError], or whatever [fetch] threw. *)
Inductive FetchError :=
| TwitterGraphqlRequestError (host : TwitterHost) (status : Z)
    (apiErrorCode : option Z) (message : string)
| OtherError (error : JsError).

(** [error instanceof Error ? error.message : String(error)] *)
Definition fetchErrorMessage (error : FetchError) : string :=
  match error with
  | TwitterGraphqlRequestError _ _ _ message => message
  | OtherError e => errorMessage e
  end.

(** [extractApiError]: [message] and [code]. *)
Definition extractApiError {T} (payload : Payload T) : option string * option Z :=
  match payload with
  | PObject (Some (first :: _)) _ _ =>
      let codePart :=
        match TwitterApiErrorItem.code first with
        | Some code => " (code " +:+ pretty code +:+ ")"
        | None => ""
        end in
      (Some (default "Unknown API error" (TwitterApiErrorItem.message first)
             +:+ codePart),
       TwitterApiErrorItem.code first)
  | PObject _ error _ => (error, None)
  | _ => (None, None)
  end.

(** [isRateLimitError(error, message)] *)
Definition isRateLimitError (error : FetchError) (message : string) : bool :=
  match error with
  | TwitterGraphqlRequestError _ status apiErrorCode _ =>
      if (status =? 429)
         || match apiErrorCode with Some code => code =? 88 | None => false end
      then true
      else Errors.rateLimitPattern_test message
  | OtherError _ => Errors.rateLimitPattern_test message
  end.

(** A request that was made: the host, and the indices of the cookie
    pair and of the bearer token it was made with. *)
Definition RequestMade : Type := TwitterHost * nat * nat.

(** The fields of the client object, the moment (one per request), and
    the requests made so far, newest first. *)
Record Client := mkClient {
  preferredHost : option TwitterHost;
  authCandidateIndex : nat;
  bearerTokenIndex : nat;
  moment : nat;
  requests : list RequestMade;
}.

(** A computation of the adapter. *)
Definition Act (E A : Type) : Type := Client -> (E + A) * Client.

(** [fetch(buildUrl(host), { headers })] for one operation: the answer
    at a moment, for a host and the credentials in use; [inl] when
    [fetch] or [response.text()] rejects. *)
Definition Request (T : Type) : Type :=
  nat -> TwitterHost -> nat -> nat -> JsError + GraphqlResponse.t T.

Section Adapter.
(** [payload.slice(0, 200).replace(/\s+/g, " ").trim()] *)
Variable payloadSnippet : string -> string.
(** [this.authBundle.authCandidates.length] and
    [bearerTokenCandidates.length] *)
Variable authCandidateCount : nat.
Variable bearerTokenCount : nat.

Definition getHostOrder (c : Client) : list TwitterHost :=
  match preferredHost c with
  | None => graphqlHosts
  | Some preferred =>
      preferred
      :: List.filter (fun host => negb (TwitterHost_eqb host preferred)) graphqlHosts
  end.

Definition rotateAuthCandidate (c : Client) : bool * Client :=
  if (authCandidateCount <=? authCandidateIndex c + 1)%nat then (false, c)
  else (true, mkClient (preferredHost c) (S (authCandidateIndex c))
                (bearerTokenIndex c) (moment c) (requests c)).

Definition rotateBearerToken (c : Client) : bool * Client :=
  if (bearerTokenCount <=? bearerTokenIndex c + 1)%nat then (false, c)
  else (true, mkClient (preferredHost c) (authCandidateIndex c)
                (S (bearerTokenIndex c)) (moment c) (requests c)).

(** [fetchGraphql].  [createHeaders] throws only for a cookie pair
    without [ct0], and [buildGraphqlAuthBundle] builds none. *)
Definition fetchGraphql {T} (request : Request T) (host : TwitterHost)
    : Act FetchError (Payload T * Z) :=
  fun c =>
    let requested :=
      mkClient (preferredHost c) (authCandidateIndex c) (bearerTokenIndex c)
        (S (moment c))
        ((host, authCandidateIndex c, bearerTokenIndex c) :: requests c) in
    match request (moment c) host (authCandidateIndex c) (bearerTokenIndex c) with
    | inl error => (inl (OtherError error), requested)
    | inr response =>
        let payload := GraphqlResponse.payload response in
        let status := GraphqlResponse.status response in
        let apiError := extractApiError payload in
        if negb (GraphqlResponse.ok response) then
          let snippet :=
            match payload with
            | PString text => payloadSnippet text
            | _ => ""
            end in
          let detail := default snippet (fst apiError) in
          (inl (TwitterGraphqlRequestError host status (snd apiError)
                  ("Twitter GraphQL request failed on " +:+ hostName host
                   +:+ " (" +:+ pretty status +:+ "): " +:+ detail)),
           requested)
        else if truthy (fst apiError) then
          (inl (TwitterGraphqlRequestError host status (snd apiError)
                  ("Twitter GraphQL API error on " +:+ hostName host
                   +:+ ": " +:+ default "" (fst apiError))),
           requested)
        else (inr (payload, status), requested)
    end.

(** [rateLimitedHosts.add(host)] *)
Definition Set_add (host : TwitterHost) (hosts : list TwitterHost)
    : list TwitterHost :=
  if existsb (TwitterHost_eqb host) hosts then hosts else (hosts ++ [host])%list.

(** The variables of one attempt of [executeGraphqlWithFallback]. *)
Record Attempt := mkAttempt {
  errors : list string;
  sawAuthFailure : bool;
  rateLimitedHosts : list TwitterHost;
}.

Definition setPreferredHost (host : TwitterHost) (c : Client) : Client :=
  mkClient (Some host) (authCandidateIndex c) (bearerTokenIndex c)
    (moment c) (requests c).

(** [for (const host of hostOrder)]: the result that is returned, if
    any, and the variables when the loop is left. *)
Fixpoint tryHosts {T} (request : Request T) (hosts : list TwitterHost)
    (a : Attempt) (c : Client)
    : (option (Payload T * TwitterHost) * Attempt) * Client :=
  match hosts with
  | [] => ((None, a), c)
  | host :: rest =>
      match fetchGraphql request host c with
      | (inr (payload, _), requested) =>
          ((Some (payload, host), a), setPreferredHost host requested)
      | (inl error, requested) =>
          let message := fetchErrorMessage error in
          tryHosts request rest
            (mkAttempt
               (errors a ++ [message])
               (sawAuthFailure a
                || Errors.occursIn "(401)" message
                || Errors.occursIn "code 32" message)
               (if isRateLimitError error message
                then Set_add host (rateLimitedHosts a)
                else rateLimitedHosts a))
            requested
      end
  end.

Definition failedOnAllHosts (messages : list string) : string :=
  "Twitter GraphQL failed on all hosts: " +:+ joinWith " | " messages.

(** [for (let attempt = 0; attempt < 3; attempt += 1)]; [rounds] is
    [3 - attempt]. *)
Fixpoint attempts {T} (request : Request T) (rounds : nat)
    (messages : list string) : Act JsError (Payload T * TwitterHost) :=
  fun c =>
    match rounds with
    | O => (inl (ErrorObj "Error" (failedOnAllHosts messages)), c)
    | S rounds' =>
        let hostOrder := getHostOrder c in
        match tryHosts request hostOrder (mkAttempt messages false []) c with
        | ((Some result, _), tried) => (inr result, tried)
        | ((None, a), tried) =>
            if (length (rateLimitedHosts a) =? length hostOrder)%nat
            then (inl (TwitterRateLimitError (failedOnAllHosts (errors a))
                         (List.map hostName (rateLimitedHosts a))),
                  tried)
            else if sawAuthFailure a then
              let (rotated, afterAuth) := rotateAuthCandidate tried in
              if rotated
              then attempts request rounds'
                     (errors a
                      ++ ["auth cookie pair rotate succeeded, retrying request once."])
                     afterAuth
              else
                let (rotatedBearer, afterBearer) := rotateBearerToken afterAuth in
                if rotatedBearer
                then attempts request rounds'
                       (errors a
                        ++ ["bearer rotate succeeded, retrying request once."])
                       afterBearer
                else (inl (ErrorObj "Error" (failedOnAllHosts (errors a))),
                      afterBearer)
            else (inl (ErrorObj "Error" (failedOnAllHosts (errors a))), tried)
        end
    end.

Definition executeGraphqlWithFallback {T} (request : Request T)
    : Act JsError (Payload T * TwitterHost) :=
  attempts request 3 [].

(** [payload.data] on a [null] payload *)
Definition TypeError_null_data : JsError :=
  ErrorObj "TypeError" "Cannot read properties of null (reading 'data')".

(** The two operations: [UserByScreenName], whose data is
    [data?.user?.result?.rest_id], and [UserTweets] for a user id and a
    cursor, whose data is the list of instructions. *)
Variable fetchUser : string -> Request (option string).
Variable fetchTweets :
  string -> option string -> Request (option (list TimelineInstruction)).

Definition getUserIdByScreenName (username : string) : Act JsError string :=
  fun c =>
    match executeGraphqlWithFallback (fetchUser username) c with
    | (inl error, answered) => (inl error, answered)
    | (inr (payload, host), answered) =>
        match payload with
        | PNull => (inl TypeError_null_data, answered)
        | PObject _ _ (Some userId) =>
            if negb (String.eqb userId "") then (inr userId, answered)
            else (inl (ErrorObj "Error"
                         ("Failed to resolve user id for @" +:+ username
                          +:+ " on " +:+ hostName host)), answered)
        | _ => (inl (ErrorObj "Error"
                       ("Failed to resolve user id for @" +:+ username
                        +:+ " on " +:+ hostName host)), answered)
        end
    end.

(** [parseTimeline(payload, params.username)] *)
Definition parseTimelinePayload
    (payload : Payload (option (list TimelineInstruction)))
    (username : string) (now : Z) : JsError + ParsedTimeline.t :=
  match payload with
  | PNull => inl TypeError_null_data
  | PObject _ _ instructions => parseTimeline instructions username now
  | _ => parseTimeline None username now
  end.

(** [parsed.nextCursor === cursor] *)
Definition sameCursor (a b : option string) : bool :=
  match a, b with
  | Some x, Some y => String.eqb x y
  | None, None => true
  | _, _ => false
  end.

Context `{Platform}.

(** [for (let page = 0; page < maxPages; page += 1)]: the cursor and the
    posts when the loop is left; [rounds] is [maxPages - page]. *)
Fixpoint pages (userId username : string) (rounds : nat)
    (cursor : option string) (allTweets : list MediaTweet.t)
    : Act JsError (option string * list MediaTweet.t) :=
  fun c =>
    match rounds with
    | O => (inr (cursor, allTweets), c)
    | S rounds' =>
        let variablesCursor := if truthy cursor then cursor else None in
        match executeGraphqlWithFallback (fetchTweets userId variablesCursor) c with
        | (inl error, answered) => (inl error, answered)
        | (inr (payload, _), answered) =>
            match parseTimelinePayload payload username
                    (Date_now (moment answered)) with
            | inl error => (inl error, answered)
            | inr parsed =>
                let collected :=
                  (allTweets ++ ParsedTimeline.tweets parsed)%list in
                if negb (truthy (ParsedTimeline.nextCursor parsed))
                   || sameCursor (ParsedTimeline.nextCursor parsed) cursor
                then (inr (ParsedTimeline.nextCursor parsed, collected), answered)
                else pages userId username rounds'
                       (ParsedTimeline.nextCursor parsed) collected answered
            end
        end
    end.

(** The sign of [Number(right.id) - Number(left.id)]. *)
Definition compareNewestFirst (left right : MediaTweet.t) : comparison :=
  match Number_ (MediaTweet.id left), Number_ (MediaTweet.id right) with
  | Fin l, Fin r => Z.compare r l
  | _, _ => Eq
  end.

Definition listTweetsWithMedia (params : ListTweetsWithMediaParams.t)
    : Act JsError ListTweetsWithMediaResult.t :=
  fun c =>
    match getUserIdByScreenName (ListTweetsWithMediaParams.username params) c with
    | (inl error, resolved) => (inl error, resolved)
    | (inr userId, resolved) =>
        let maxPages := Z.max 1 (ListTweetsWithMediaParams.limitPages params) in
        match pages userId (ListTweetsWithMediaParams.username params)
                (Z.to_nat maxPages) (ListTweetsWithMediaParams.cursor params) []
                resolved
        with
        | (inl error, paged) => (inl error, paged)
        | (inr (cursor, allTweets), paged) =>
            let dedupedById :=
              List.fold_left
                (fun m tweet => Map_set m (MediaTweet.id tweet) tweet)
                allTweets [] in
            let tweets := Array_sort compareNewestFirst (List.map snd dedupedById) in
            (inr (ListTweetsWithMediaResult.mk tweets
                    match ListTweetsWithMediaParams.direction params with
                    | older => cursor
                    | newer => None
                    end),
             paged)
        end
    end.

End Adapter.

End TwitterAdapter.

(** A raw timeline for the examples: one post with a photo and a video
    that has two mp4 variants, one entry without media, and the bottom
    cursor. *)
Module DemoTimeline.

Definition rawPost : TwitterAdapter.TweetResultRaw :=
  TwitterAdapter.mkTweetResultRaw (Some "Tweet") None (Some "42")
    (Some (TwitterAdapter.Legacy.mk (Some "42") (Some "hello")
             (Some (ParsesTo 1700000000000))
             (Some [TwitterAdapter.RawMedia.mk (Some "m1")
                      (Some "https://img/42.jpg") (Some "photo") None;
                    TwitterAdapter.RawMedia.mk (Some "m2") None (Some "video")
                      (Some [TwitterAdapter.Variant.mk (Some 832000)
                               (Some "https://vid/42-low.mp4") (Some "video/mp4");
                             TwitterAdapter.Variant.mk None
                               (Some "https://vid/42.m3u8")
                               (Some "application/x-mpegURL");
                             TwitterAdapter.Variant.mk (Some 2176000)
                               (Some "https://vid/42-high.mp4")
                               (Some "video/mp4")])])))
    (Some "alice").

Definition textOnly : TwitterAdapter.TweetResultRaw :=
  TwitterAdapter.mkTweetResultRaw (Some "Tweet") None (Some "43")
    (Some (TwitterAdapter.Legacy.mk (Some "43") (Some "no media") None None))
    (Some "alice").

Definition tweetEntry (raw : TwitterAdapter.TweetResultRaw)
    : TwitterAdapter.TimelineEntry.t :=
  TwitterAdapter.TimelineEntry.mk (Some "tweet-1")
    (Some (TwitterAdapter.EntryContent.mk None None
             (Some (TwitterAdapter.ItemContent.mk None None (Some raw) None))
             None)).

Definition cursorEntry (value : string) : TwitterAdapter.TimelineEntry.t :=
  TwitterAdapter.TimelineEntry.mk (Some "cursor-bottom-1")
    (Some (TwitterAdapter.EntryContent.mk (Some "Bottom") (Some value) None None)).

Definition instructions : option (list TwitterAdapter.TimelineInstruction) :=
  Some [Some [tweetEntry rawPost; tweetEntry textOnly; cursorEntry "next-1"]].

(** Every request is answered with status 429. *)
Definition limited {T} : TwitterAdapter.Request T :=
  fun _ _ _ _ =>
    inr (TwitterAdapter.GraphqlResponse.mk false 429
           (TwitterAdapter.PString "Rate limit exceeded")).

(** [twitter.com] is rate limited, [x.com] rejects the session. *)
Definition mixed {T} : TwitterAdapter.Request T :=
  fun _ host _ _ =>
    match host with
    | TwitterAdapter.twitter_com =>
        inr (TwitterAdapter.GraphqlResponse.mk false 429
               (TwitterAdapter.PString "Rate limit exceeded"))
    | TwitterAdapter.x_com =>
        inr (TwitterAdapter.GraphqlResponse.mk false 403
               (TwitterAdapter.PString "Forbidden"))
    end.

(** [twitter.com] fails, [x.com] answers. *)
Definition secondHost {T} (data : T) : TwitterAdapter.Request T :=
  fun _ host _ _ =>
    match host with
    | TwitterAdapter.twitter_com =>
        inr (TwitterAdapter.GraphqlResponse.mk false 500
               (TwitterAdapter.PString "oops"))
    | TwitterAdapter.x_com =>
        inr (TwitterAdapter.GraphqlResponse.mk true 200
               (TwitterAdapter.PObject None None data))
    end.

Definition client : TwitterAdapter.Client :=
  TwitterAdapter.mkClient None 0 0 0 [].

(** The user id is resolved; each page of the timeline holds the post
    and a cursor that names the next page. *)
Definition fetchUser (username : string) : TwitterAdapter.Request (option string) :=
  fun _ _ _ _ =>
    inr (TwitterAdapter.GraphqlResponse.mk true 200
           (TwitterAdapter.PObject None None (Some "1001"))).

Definition fetchTweets (userId : string) (cursor : option string)
    : TwitterAdapter.Request (option (list TwitterAdapter.TimelineInstruction)) :=
  fun _ _ _ _ =>
    inr (TwitterAdapter.GraphqlResponse.mk true 200
           (TwitterAdapter.PObject None None
              (Some [Some [tweetEntry rawPost;
                           cursorEntry (default "" cursor +:+ "+")]]))).

End DemoTimeline.


(** The number of runs that settled among the inputs of the daemon. *)
Fixpoint settledRuns (inputs : list Scheduler.Input) : nat :=
  match inputs with
  | [] => 0
  | Scheduler.RunSettled _ :: rest => S (settledRuns rest)
  | Scheduler.Tick _ :: rest => settledRuns rest
  end.

(** A variant the loop of [normalizeMedia] considers: it has a url, and
    its content type, if it has one, mentions mp4. *)
Definition eligibleVariant (variant : TwitterAdapter.Variant.t) : bool :=
  TwitterAdapter.truthy (TwitterAdapter.Variant.url variant)
  && negb (TwitterAdapter.truthy (TwitterAdapter.Variant.content_type variant)
           && negb (Errors.occursIn "mp4"
                      (default "" (TwitterAdapter.Variant.content_type variant)))).

(** A post as the engine expects it from the source: it has an id and at
    least one media, each media has an id and a url, its address is the
    status page of the post, and its date is one that can be printed. *)
Definition wellFormedPost (tweet : MediaTweet.t) : Prop :=
  MediaTweet.id tweet <> ""
  /\ MediaTweet.media tweet <> []
  /\ Forall (fun media => TweetMedia.id media <> "" /\ TweetMedia.url media <> "")
            (MediaTweet.media tweet)
  /\ MediaTweet.tweetUrl tweet
     = "https://x.com/" +:+ MediaTweet.username tweet +:+ "/status/"
       +:+ MediaTweet.id tweet
  /\ exists ms, MediaTweet.postedAt tweet = ParsesTo ms.

(* ===================================================================== *)
(** * Properties *)
(* ===================================================================== *)

(** ** Reasoning rules for computations *)

Section WpRules.
Context {A B : Type}.


Lemma wp_throw (e : JsError) (Q : JsError + A -> World -> Prop) w :
  Q (inl e) w -> wp (throw e) Q w.
Proof. exact (fun q => q). Qed.

Lemma wp_liftOutcome (r : JsError + A) Q w : Q r w -> wp (liftOutcome r) Q w.
Proof. exact (fun q => q). Qed.

Lemma wp_get (f : World -> A) Q w : Q (inr (f w)) w -> wp (get f) Q w.
Proof. exact (fun q => q). Qed.

Lemma wp_modify (f : World -> World) Q w : Q (inr tt) (f w) -> wp (modify f) Q w.
Proof. exact (fun q => q). Qed.


Lemma wp_bind (m : M A) (k : A -> M B) Q w :
  wp m (fun r w' => match r with
                    | inr a => wp (k a) Q w'
                    | inl e => Q (inl e) w'
                    end) w ->
  wp (bind m k) Q w.
Proof.
  unfold wp, bind. destruct (m w) as [[e|a] w']; simpl; auto.
Qed.

Lemma wp_attempt (m : M A) (Q : JsError + (JsError + A) -> World -> Prop) w :
  wp m (fun r w' => Q (inr r) w') w -> wp (attempt m) Q w.
Proof.
  unfold wp, attempt. destruct (m w) as [r w']; simpl; auto.
Qed.

Lemma wp_mono (m : M A) (Q Q' : JsError + A -> World -> Prop) w :
  wp m Q w -> (forall r w', Q r w' -> Q' r w') -> wp m Q' w.
Proof. unfold wp. auto. Qed.

End WpRules.



Lemma inDateRangeb_spec ms : inDateRangeb ms = true <-> inDateRange ms.
Proof. unfold inDateRangeb, inDateRange. rewrite andb_true_iff. lia. Qed.

Lemma toISOString_inRange ms :
  inDateRange ms -> toISOString (Fin ms) = inr (ParsesTo ms).
Proof.
  intros Hr. unfold toISOString.
  apply inDateRangeb_spec in Hr. now rewrite Hr.
Qed.

(** ** The rate-limit pattern *)

Lemma prefix_app p s :
  String.prefix p s = true <-> exists post, s = p +:+ post.
Proof.
  revert s. induction p as [|c p IH]; intros s.
  - split; [intros _; now exists s | intros _; now destruct s].
  - destruct s as [|d s].
    + split; [discriminate | intros [post Hp]; discriminate].
    + cbn [String.prefix]. destruct (Ascii.ascii_dec c d) as [->|Hne].
      * rewrite IH. split; intros [post Hp]; exists post.
        -- cbn. now rewrite Hp.
        -- now inversion Hp.
      * split; [discriminate | intros [post Hp]; inversion Hp; congruence].
Qed.

Lemma occursIn_spec p s :
  Errors.occursIn p s = true <-> exists pre post, s = pre +:+ p +:+ post.
Proof.
  induction s as [|c s IH].
  - cbn [Errors.occursIn]. rewrite orb_false_r, prefix_app. split.
    + intros [post Hp]. exists "", post. exact Hp.
    + intros [pre [post Hp]]. destruct pre; [now exists post | discriminate].
  - cbn [Errors.occursIn]. rewrite orb_true_iff, IH, prefix_app. split.
    + intros [[post Hp] | [pre [post Hp]]].
      * exists "", post. exact Hp.
      * exists (String c pre), post. cbn. now rewrite Hp.
    + intros [pre [post Hp]]. destruct pre as [|d pre].
      * left. now exists post.
      * right. exists pre, post. cbn in Hp. now inversion Hp.
Qed.

Lemma rateLimitPattern_test_spec message :
  Errors.rateLimitPattern_test message = true
  <-> Errors.matchesRateLimitPattern message.
Proof.
  unfold Errors.rateLimitPattern_test, Errors.matchesRateLimitPattern,
    Errors.containsLiteral.
  now rewrite orb_true_iff, !occursIn_spec.
Qed.

Lemma isTwitterRateLimitError_of_message error :
  Errors.matchesRateLimitPattern (errorMessage error) ->
  Errors.isTwitterRateLimitError_byMessage error = true.
Proof.
  intros Hm. apply rateLimitPattern_test_spec in Hm.
  destruct error; simpl in *; auto.
Qed.

(** The classifier of the engine is the class test. *)
Lemma isTwitterRateLimitError_spec error :
  Errors.isTwitterRateLimitError error = true
  <-> exists message hosts, error = TwitterRateLimitError message hosts.
Proof.
  destruct error as [message hosts|name message|text]; cbn.
  - split; [intros _; now exists message, hosts | reflexivity].
  - split; [discriminate | intros (m & h & Heq); discriminate].
  - split; [discriminate | intros (m & h & Heq); discriminate].
Qed.

(** ** The account [catch] block *)

Section CatchBlock.
Context `{Platform}.
Variable config : AppConfig.t.

Lemma computeCooldownUntil_configured w cooldown :
  AppConfig.twitterRateLimitCooldownSeconds config = Some cooldown ->
  inDateRange (Date_now (tick w) + cooldown * 1000) ->
  computeCooldownUntil config w
  = (inr (ParsesTo (Date_now (tick w) + cooldown * 1000)), advance w).
Proof.
  intros Hcd Hrange. unfold computeCooldownUntil, bind, Date_now_, liftOutcome.
  rewrite Hcd. cbn [ToNumber num_mul num_add].
  now rewrite (toISOString_inRange _ Hrange).
Qed.

Lemma computeCooldownUntil_undefined w :
  AppConfig.twitterRateLimitCooldownSeconds config = None ->
  computeCooldownUntil config w = (inl RangeError_invalid_time, advance w).
Proof.
  intros Hcd. unfold computeCooldownUntil, bind, Date_now_, liftOutcome.
  now rewrite Hcd.
Qed.

(** The cooldown date exists exactly when the configuration has a
    cooldown and [now + cooldown] is a time value of a date. *)
Lemma computeCooldownUntil_returns w until w' :
  computeCooldownUntil config w = (inr until, w') ->
  exists cooldown,
    AppConfig.twitterRateLimitCooldownSeconds config = Some cooldown
    /\ inDateRange (Date_now (tick w) + cooldown * 1000)
    /\ until = ParsesTo (Date_now (tick w) + cooldown * 1000)
    /\ w' = advance w.
Proof.
  unfold computeCooldownUntil, bind, Date_now_, liftOutcome.
  destruct (AppConfig.twitterRateLimitCooldownSeconds config) as [cooldown|];
    cbn [ToNumber num_mul num_add toISOString]; [|discriminate].
  destruct (inDateRangeb _) eqn:Hrange; [|discriminate].
  intros Heq. injection Heq as <- <-. exists cooldown.
  split; [reflexivity|]. split; [now apply inDateRangeb_spec|]. now split.
Qed.

(** The row the cooldown branch writes. *)
Lemma syncAccount_catch_rateLimit username state summary error w cooldown :
  Errors.isTwitterRateLimitError error = true ->
  AppConfig.twitterRateLimitCooldownSeconds config = Some cooldown ->
  inDateRange (Date_now (tick w) + cooldown * 1000) ->
  let until := ParsesTo (Date_now (tick w) + cooldown * 1000) in
  syncAccount_catch config username state summary error w
  = (inr (withFailure (AccountState.backfillDone state) (Some (Some until)) summary),
     set_account_state
       (insert username
          (AccountRow.mk (AccountState.latestSeenTweetId state)
             (AccountState.backfillCursor state)
             (if AccountState.backfillDone state then 1 else 0)
             (Some until)
             (ParsesTo (Date_now (S (tick w))))))
       (advance (advance w))).
Proof.
  intros Hrl Hcd Hrange. unfold syncAccount_catch. rewrite Hrl.
  unfold bind at 1. rewrite (computeCooldownUntil_configured _ _ Hcd Hrange).
  reflexivity.
Qed.

(** The cooldown branch makes no external call. *)
Lemma syncAccount_catch_rateLimit_trace username state summary error w :
  Errors.isTwitterRateLimitError error = true ->
  trace (snd (syncAccount_catch config username state summary error w)) = trace w.
Proof.
  intros Hrl. unfold syncAccount_catch. rewrite Hrl.
  unfold computeCooldownUntil, bind, Date_now_, liftOutcome. cbn.
  destruct (toISOString _); reflexivity.
Qed.

(** The other branch is the failure report, sent through the sink
    adapter, and nothing else. *)
Lemma syncAccount_catch_other username state summary error w :
  Errors.isTwitterRateLimitError error = false ->
  syncAccount_catch config username state summary error w
  = (sendTextMessage (formatFailureReport error ("account:" +:+ username)) ;;
     ret (withFailure (AccountState.backfillDone state) None summary)) w.
Proof.
  intros Hrl. unfold syncAccount_catch. now rewrite Hrl.
Qed.

(** [sendTextMessage] writes to no relation, and the calls it makes are
    the connection, if there is none yet, and the message. *)
Lemma sendTextMessage_effect message w :
  let w' := snd (sendTextMessage message w) in
  account_state w' = account_state w
  /\ media_registry w' = media_registry w
  /\ job_lock w' = job_lock w
  /\ (callsBetween w w' [EvSendMessage message]
      \/ callsBetween w w' [EvSendMessage message; EvConnect]
      \/ callsBetween w w' [EvConnect]).
Proof.
  unfold sendTextMessage, ensureConnected, bind, get, call_, call, modify,
    throw, ret, callsBetween.
  destruct (connected w) eqn:Hc; cbn; [auto 6|].
  destruct (gram_connect (tick w)) as [e|[|]]; cbn; auto 6.
Qed.

End CatchBlock.

(** C9 (as amended).  The classifier that the engine imports accepts
    the typed variant and nothing else: [isTwitterRateLimitError] is
    true exactly for an instance of [TwitterRateLimitError], whatever
    its message.  In the account [catch] block a typed error takes the
    cooldown branch: no call leaves the process (no failure report),
    and when [now + cooldown] is a date the account row is rewritten
    with it as [rate_limited_until] and the summary marks the cooldown.
    Any other error, also one whose message contains "(429)" or "rate
    limit", takes the failure-report branch: the block does what
    [sendTextMessage] of the report does and nothing else, no account
    row is written, and the summary it returns has [failed = 1] and its
    cooldown fields as they were. *)
Theorem C9_only_the_typed_error_takes_cooldown_path `{Platform}
    (config : AppConfig.t) (error : JsError) (username : string)
    (state : AccountState.t) (summary : AccountRunSummary.t) (w : World) :
  let caught := syncAccount_catch config username state summary error w in
  (Errors.isTwitterRateLimitError error = true
   <-> exists message hosts, error = TwitterRateLimitError message hosts)
  /\ ((exists message hosts, error = TwitterRateLimitError message hosts) ->
      caught
      = (let* cooldownUntil := computeCooldownUntil config in
         SqliteStateRepo.upsertAccountState
           (AccountState.mk username
              (AccountState.latestSeenTweetId state)
              (AccountState.backfillCursor state)
              (AccountState.backfillDone state)
              (Some cooldownUntil) None) ;;
         ret (withFailure (AccountState.backfillDone state)
                (Some (Some cooldownUntil)) summary)) w
      /\ trace (snd caught) = trace w
      /\ forall until w1,
           computeCooldownUntil config w = (inr until, w1) ->
           (exists cooldown,
              AppConfig.twitterRateLimitCooldownSeconds config = Some cooldown
              /\ until = ParsesTo (Date_now (tick w) + cooldown * 1000))
           /\ (exists summary', fst caught = inr summary'
                 /\ AccountRunSummary.cooldownActive summary' = true
                 /\ AccountRunSummary.cooldownUntil summary' = Some until
                 /\ AccountRunSummary.failed summary' = 1%nat)
           /\ (exists row, account_state (snd caught) !! username = Some row
                 /\ AccountRow.rate_limited_until row = Some until))
  /\ ((forall message hosts, error <> TwitterRateLimitError message hosts) ->
      let sent :=
        sendTextMessage (formatFailureReport error ("account:" +:+ username)) w in
      Errors.isTwitterRateLimitError error = false
      /\ snd caught = snd sent
      /\ account_state (snd caught) = account_state w
      /\ (forall e, fst sent = inl e -> fst caught = inl e)
      /\ (fst sent = inr tt ->
          exists summary', fst caught = inr summary'
            /\ AccountRunSummary.failed summary' = 1%nat
            /\ AccountRunSummary.cooldownActive summary'
               = AccountRunSummary.cooldownActive summary
            /\ AccountRunSummary.cooldownUntil summary'
               = AccountRunSummary.cooldownUntil summary)).
Proof.
  intros caught. subst caught.
  split; [apply isTwitterRateLimitError_spec|]. split.
  - intros Htyped. apply isTwitterRateLimitError_spec in Htyped.
    split; [unfold syncAccount_catch; now rewrite Htyped|].
    split; [now apply syncAccount_catch_rateLimit_trace|].
    intros until_ w1 Hcooldown.
    apply computeCooldownUntil_returns in Hcooldown.
    destruct Hcooldown as (cooldown & Hcd & Hrange & -> & _).
    split; [now exists cooldown|].
    rewrite (syncAccount_catch_rateLimit config username state summary error w
               cooldown Htyped Hcd Hrange).
    split.
    + eexists. split; [reflexivity|]. cbn. auto.
    + eexists. split; [apply lookup_insert_eq|]. reflexivity.
  - intros Hplain sent. subst sent.
    assert (Hother : Errors.isTwitterRateLimitError error = false).
    { destruct (Errors.isTwitterRateLimitError error) eqn:Hrl; [|reflexivity].
      apply isTwitterRateLimitError_spec in Hrl.
      destruct Hrl as (message & hosts & ->). now destruct (Hplain message hosts). }
    split; [exact Hother|].
    rewrite (syncAccount_catch_other config username state summary error w Hother).
    unfold bind.
    pose proof (sendTextMessage_effect
                  (formatFailureReport error ("account:" +:+ username)) w)
      as (Hacc & _).
    destruct (sendTextMessage _ w) as [[e|[]] w'] eqn:Hsent; cbn [fst snd] in *.
    + split; [reflexivity|]. split; [exact Hacc|].
      split; [intros e' Heq; now injection Heq as <- | discriminate].
    + split; [reflexivity|]. split; [exact Hacc|].
      split; [discriminate|]. intros _. eexists. split; [reflexivity|].
      cbn. auto.
Qed.

(** The claim has a generic error with a matching message take the
    cooldown path.  A source that throws a plain [Error] whose message is
    "Request failed (429)": the message matches the pattern, the
    classifier of the engine answers false, and the run sends the
    failure report of the account, marks no cooldown and stores no
    row. *)
Lemma C9_counterexample :
  let P := Demo.platform Demo.plain429 Demo.sizes in
  let config := Demo.config ["alice"] 5 (Some 7200) in
  let error := ErrorObj "Error" "Request failed (429)" in
  Errors.matchesRateLimitPattern (errorMessage error)
  /\ Errors.isTwitterRateLimitError error = false
  /\ exists pushed w',
       syncAccount (H := P) config "alice" Demo.emptyWorld = (inr pushed, w')
       /\ AccountRunSummary.failed pushed = 1%nat
       /\ AccountRunSummary.cooldownActive pushed = false
       /\ AccountRunSummary.cooldownUntil pushed = None
       /\ trace w'
          = [EvSendMessage (formatFailureReport error "account:alice");
             EvConnect;
             EvListTweets (ListTweetsWithMediaParams.mk "alice" None newer 1)]
       /\ account_state w' = ∅.
Proof.
  intros P config error. split; [|split].
  - left. exists "request failed ", "". reflexivity.
  - reflexivity.
  - eexists. eexists. split; [vm_compute; reflexivity|].
    repeat split.
Qed.

(** ** The scheduler *)

Lemma dueToday_spec scheduler now :
  Scheduler.dueToday scheduler now = true <-> atOrPast scheduler now.
Proof.
  unfold Scheduler.dueToday, atOrPast.
  rewrite orb_true_iff, andb_true_iff. lia.
Qed.

Lemma invokes_spec scheduler now d :
  Scheduler.invokes scheduler now d = true
  <-> Scheduler.isRunning d = false
      /\ atOrPast scheduler now
      /\ Scheduler.lastRunDateKey d <> Scheduler.dateKey now.
Proof.
  unfold Scheduler.invokes. rewrite <- dueToday_spec.
  destruct (Scheduler.isRunning d); [intuition discriminate|].
  destruct (Scheduler.dueToday scheduler now); cbn; [|intuition discriminate].
  destruct (String.eqb_spec (Scheduler.lastRunDateKey d) (Scheduler.dateKey now));
    intuition (discriminate || auto).
Qed.

(** Once a day is recorded as run and nothing is in flight, ticks of that
    day and stray settlements change nothing. *)
Lemma steps_sameDay_idle scheduler key inputs d :
  Scheduler.isRunning d = false ->
  Scheduler.inFlight d = None ->
  Scheduler.lastRunDateKey d = key ->
  Forall (Scheduler.sameDay key) inputs ->
  Scheduler.steps scheduler d inputs = d.
Proof.
  intros Hr Hf Hk Hall. unfold Scheduler.steps.
  induction Hall as [|i inputs Hi _ IH]; [reflexivity|].
  cbn [fold_left]. replace (Scheduler.step scheduler d i) with d; [exact IH|].
  destruct i as [now|outcome]; cbn in *.
  - unfold Scheduler.onTick, Scheduler.invokes. rewrite Hr, Hk, Hi.
    rewrite String.eqb_refl, orb_true_r. reflexivity.
  - unfold Scheduler.onSettled. now rewrite Hf.
Qed.

(** C8.  A tick invokes the engine exactly when no run is in flight, the
    time of day is at or past the configured one, and the last run date
    key is not today's; when the run returns, the last run date key
    becomes today's exactly when the run was not skipped by the lock; a
    day skipped by the lock is run again by a later due tick of that
    day, and a completed day is not run again by any later tick of that
    day. *)
Theorem C8_scheduler_tick (scheduler : Scheduler.SchedulerConfig)
    (now : Scheduler.DateParts) (d : Scheduler.Daemon) :
  (Scheduler.invokes scheduler now d = true
   <-> Scheduler.isRunning d = false
       /\ atOrPast scheduler now
       /\ Scheduler.lastRunDateKey d <> Scheduler.dateKey now)
  /\ (Scheduler.invokes scheduler now d = false ->
      Scheduler.onTick scheduler now d = d)
  /\ (Scheduler.invokes scheduler now d = true ->
      let running := Scheduler.onTick scheduler now d in
      Scheduler.isRunning running = true
      /\ Scheduler.invocations running
         = ("daily-" +:+ Scheduler.dateKey now) :: Scheduler.invocations d
      /\ forall result,
           let after := Scheduler.onSettled (Scheduler.Returned result) running in
           Scheduler.isRunning after = false
           /\ (Scheduler.lastRunDateKey after = Scheduler.dateKey now
               <-> RunSummary.skippedByLock result = false)
           /\ (RunSummary.skippedByLock result = true ->
               Scheduler.lastRunDateKey after = Scheduler.lastRunDateKey d
               /\ forall later,
                    Scheduler.dateKey later = Scheduler.dateKey now ->
                    atOrPast scheduler later ->
                    Scheduler.invokes scheduler later after = true)
           /\ (RunSummary.skippedByLock result = false ->
               forall inputs,
                 Forall (Scheduler.sameDay (Scheduler.dateKey now)) inputs ->
                 Scheduler.invocations (Scheduler.steps scheduler after inputs)
                 = Scheduler.invocations running)).
Proof.
  split; [apply invokes_spec|]. split.
  - intros Hno. unfold Scheduler.onTick. now rewrite Hno.
  - intros Hinv running. subst running. unfold Scheduler.onTick. rewrite Hinv.
    apply invokes_spec in Hinv. destruct Hinv as (Hrun & Hdue & Hkey).
    split; [reflexivity|]. split; [reflexivity|].
    intros result. unfold Scheduler.onSettled. cbn [Scheduler.inFlight].
    destruct (RunSummary.skippedByLock result) eqn:Hskip;
      cbn [negb Scheduler.isRunning Scheduler.lastRunDateKey
           Scheduler.invocations].
    + split; [reflexivity|]. split; [intuition congruence|]. split.
      * intros _. split; [reflexivity|]. intros later Hsame Hlater.
        apply invokes_spec. cbn. rewrite Hsame. auto.
      * discriminate.
    + split; [reflexivity|]. split; [intuition congruence|]. split.
      * discriminate.
      * intros _ inputs Hall.
        now rewrite (steps_sameDay_idle scheduler (Scheduler.dateKey now)).
Qed.

(** ** The job lock *)

(** Unfolding of [acquireJobLock], and the case analysis over what its
    statements answer. *)
Ltac lock_simpl :=
  cbn [fst snd tick advance job_lock set_job_lock account_state media_registry
       connected trace].

Ltac lock_unfold :=
  unfold SqliteStateRepo.acquireJobLock, SqliteStateRepo.lockTransaction,
    SqliteStateRepo.db_exec, bind, attempt, Date_now_, liftOutcome, get, modify,
    throw, ret;
  lock_simpl.

Ltac lock_cases :=
  repeat (lock_simpl;
          match goal with
          | |- context [sqlite_exec ?t ?statement] =>
              destruct (sqlite_exec t statement) eqn:?
          | |- context [match job_lock ?w !! ?jobName with _ => _ end] =>
              destruct (job_lock w !! jobName) eqn:?
          | |- context [if num_gtb ?a ?b then _ else _] =>
              destruct (num_gtb a b) eqn:?
          end);
  lock_simpl.

Section JobLock.
Context `{Platform}.

(** How a call of [acquireJobLock] can end: it throws and leaves every
    row as it was, or it returns false and leaves every row as it was,
    or it returns true and has written the row of the job. *)
Lemma acquireJobLock_cases jobName holderId ttlSeconds w :
  let out := SqliteStateRepo.acquireJobLock jobName holderId ttlSeconds w in
  (exists error, out = (inl error, advance w))
  \/ out = (inr false, advance w)
  \/ exists lockUntil,
       out = (inr true,
              set_job_lock (insert jobName (LockRow.mk lockUntil holderId))
                (advance w)).
Proof.
  lock_unfold.
  destruct (toISOString _) as [e|lockUntil]; [left; now eexists|].
  lock_cases; eauto.
Qed.

Lemma acquireJobLock_begin_fails jobName holderId ttlSeconds w error :
  inDateRange (Date_now (tick w) + ttlSeconds * 1000) ->
  sqlite_exec (S (tick w)) BeginImmediate = Some error ->
  SqliteStateRepo.acquireJobLock jobName holderId ttlSeconds w
  = (inl error, advance w).
Proof.
  intros Hrange Hbusy. lock_unfold.
  rewrite (toISOString_inRange _ Hrange). lock_simpl. now rewrite Hbusy.
Qed.

Lemma acquireJobLock_free jobName holderId ttlSeconds w :
  let now := Date_now (tick w) in
  inDateRange (now + ttlSeconds * 1000) ->
  sqlite_exec (S (tick w)) BeginImmediate = None ->
  sqlite_exec (S (tick w)) SelectLock = None ->
  sqlite_exec (S (tick w)) UpsertLock = None ->
  sqlite_exec (S (tick w)) Commit = None ->
  lockFree jobName now w ->
  SqliteStateRepo.acquireJobLock jobName holderId ttlSeconds w
  = (inr true,
     set_job_lock
       (insert jobName (LockRow.mk (ParsesTo (now + ttlSeconds * 1000)) holderId))
       (advance w)).
Proof.
  intros now Hrange Hbegin Hselect Hupsert Hcommit Hfree. subst now.
  assert (Hheld :
    match job_lock w !! jobName with
    | Some row => num_gtb (Date_getTime (LockRow.locked_until row))
                    (Fin (Date_now (tick w)))
    | None => false
    end = false).
  { destruct Hfree as [Hnone | (row & t & Hrow & Ht & Hle)].
    - now rewrite Hnone.
    - rewrite Hrow, Ht. cbn [num_gtb]. lia. }
  lock_unfold. rewrite (toISOString_inRange _ Hrange).
  repeat (lock_simpl;
          first [rewrite Hbegin | rewrite Hselect | rewrite Hheld
                | rewrite Hupsert | rewrite Hcommit]).
  reflexivity.
Qed.

(** A valid row: the call does not return true, whatever the statements
    do; it returns false when they go through. *)
Lemma acquireJobLock_held jobName holderId ttlSeconds w :
  let now := Date_now (tick w) in
  lockHeld jobName now w ->
  fst (SqliteStateRepo.acquireJobLock jobName holderId ttlSeconds w) <> inr true
  /\ (inDateRange (now + ttlSeconds * 1000) ->
      sqlite_exec (S (tick w)) BeginImmediate = None ->
      sqlite_exec (S (tick w)) SelectLock = None ->
      sqlite_exec (S (tick w)) Commit = None ->
      SqliteStateRepo.acquireJobLock jobName holderId ttlSeconds w
      = (inr false, advance w)).
Proof.
  intros now (row & t & Hrow & Ht & Hgt). subst now.
  assert (Hheld :
    match job_lock w !! jobName with
    | Some row => num_gtb (Date_getTime (LockRow.locked_until row))
                    (Fin (Date_now (tick w)))
    | None => false
    end = true).
  { rewrite Hrow, Ht. cbn [num_gtb]. lia. }
  split.
  - lock_unfold. destruct (toISOString _) as [e|until]; [discriminate|].
    lock_cases; try discriminate; congruence.
  - intros Hrange Hbegin Hselect Hcommit.
    lock_unfold. rewrite (toISOString_inRange _ Hrange).
    repeat (lock_simpl;
            first [rewrite Hbegin | rewrite Hselect | rewrite Hheld
                  | rewrite Hcommit]).
    reflexivity.
Qed.

(** A call that returns false has found a valid row. *)
Lemma acquireJobLock_false jobName holderId ttlSeconds w :
  fst (SqliteStateRepo.acquireJobLock jobName holderId ttlSeconds w) = inr false ->
  lockHeld jobName (Date_now (tick w)) w.
Proof.
  lock_unfold.
  destruct (toISOString _) as [e|lockUntil]; [discriminate|].
  lock_cases; try discriminate.
  intros _.
  match goal with
  | Hrow : job_lock w !! jobName = Some ?row, Hgt : num_gtb _ _ = true |- _ =>
      exists row; revert Hgt;
      destruct (Date_getTime (LockRow.locked_until row)) as [until|];
      cbn [num_gtb]; [|discriminate];
      intros Hgt; exists until; repeat split; [exact Hrow | lia]
  end.
Qed.

(** A call returns only when the statements on its way went through. *)
Lemma acquireJobLock_returns jobName holderId ttlSeconds w acquired :
  fst (SqliteStateRepo.acquireJobLock jobName holderId ttlSeconds w) = inr acquired ->
  sqlite_exec (S (tick w)) BeginImmediate = None
  /\ sqlite_exec (S (tick w)) SelectLock = None
  /\ sqlite_exec (S (tick w)) Commit = None
  /\ (acquired = true -> sqlite_exec (S (tick w)) UpsertLock = None).
Proof.
  lock_unfold.
  destruct (toISOString _) as [e|lockUntil]; [discriminate|].
  lock_cases; try discriminate; intros Heq; injection Heq as <-;
    repeat split; auto; discriminate.
Qed.

(** The row a successful call has written. *)
Lemma acquireJobLock_true jobName holderId ttlSeconds w w1 :
  inDateRange (Date_now (tick w) + ttlSeconds * 1000) ->
  SqliteStateRepo.acquireJobLock jobName holderId ttlSeconds w = (inr true, w1) ->
  w1 = set_job_lock
         (insert jobName
            (LockRow.mk (ParsesTo (Date_now (tick w) + ttlSeconds * 1000)) holderId))
         (advance w).
Proof.
  intros Hrange Hout.
  pose proof (acquireJobLock_cases jobName holderId ttlSeconds w) as Hcases.
  cbv zeta in Hcases. rewrite Hout in Hcases.
  destruct Hcases as [[e Heq] | [Heq | [until Heq]]]; try discriminate.
  injection Heq as ->.
  revert Hout. lock_unfold. rewrite (toISOString_inRange _ Hrange).
  lock_cases; try discriminate.
  all: intros Heq; injection Heq as Hrow.
  all: apply (f_equal (fun locks => locks !! jobName)) in Hrow.
  all: rewrite !lookup_insert_eq in Hrow; injection Hrow as <-; reflexivity.
Qed.

End JobLock.

(** C4 (as amended).  [acquireJobLock] reads the lock row of the job
    inside an immediate-write transaction.  When the statements of the
    transaction go through: with no row, or a row whose [locked_until] is
    not after now, it writes [(job_name, now + ttl, holder_id)] and
    returns true; with a row that is still valid it returns false (a
    return value, not an error) and changes no row; a call returns false
    only for such a row, and a call returns only when its statements
    went through.  When [BEGIN IMMEDIATE] throws, as it does with
    SQLITE_BUSY while another connection holds the write lock of the
    database, the call throws that error, whatever the lock row is: that
    contention is an error, not a return value.  A call that throws has
    changed no row.  After one caller has succeeded, a caller that comes
    before that lock expires does not succeed.  [now + ttl] is taken to
    be a date that [toISOString] can print; when it is not, the call
    throws before any statement. *)
Theorem C4_acquireJobLock `{Platform} (jobName holderId : string)
    (ttlSeconds : Z) (w : World) :
  let now := Date_now (tick w) in
  let lockUntil := now + ttlSeconds * 1000 in
  let runs statement := sqlite_exec (S (tick w)) statement = None in
  let out := SqliteStateRepo.acquireJobLock jobName holderId ttlSeconds w in
  (inDateRange lockUntil ->
   (runs BeginImmediate -> runs SelectLock -> runs UpsertLock -> runs Commit ->
    lockFree jobName now w ->
    out = (inr true,
           set_job_lock (insert jobName (LockRow.mk (ParsesTo lockUntil) holderId))
             (advance w)))
   /\ (runs BeginImmediate -> runs SelectLock -> runs Commit ->
       lockHeld jobName now w ->
       out = (inr false, advance w))
   /\ (forall error,
         sqlite_exec (S (tick w)) BeginImmediate = Some error ->
         out = (inl error, advance w))
   /\ (forall w1 w2 holder2 ttl2,
         out = (inr true, w1) ->
         job_lock w2 !! jobName = job_lock w1 !! jobName ->
         Date_now (tick w2) < lockUntil ->
         fst (SqliteStateRepo.acquireJobLock jobName holder2 ttl2 w2) <> inr true))
  /\ (~ inDateRange lockUntil -> out = (inl RangeError_invalid_time, advance w))
  /\ (fst out = inr false -> lockHeld jobName now w)
  /\ (forall acquired,
        fst out = inr acquired ->
        runs BeginImmediate /\ runs SelectLock /\ runs Commit
        /\ (acquired = true -> runs UpsertLock))
  /\ (forall error, fst out = inl error -> snd out = advance w).
Proof.
  intros now lockUntil runs out. subst now lockUntil runs out.
  split; [|split; [|split; [|split]]].
  - intros Hrange. split; [|split; [|split]].
    + intros Hbegin Hselect Hupsert Hcommit Hfree. now apply acquireJobLock_free.
    + intros Hbegin Hselect Hcommit Hheld.
      now apply (acquireJobLock_held jobName holderId ttlSeconds w Hheld).
    + intros error Hbusy. now apply acquireJobLock_begin_fails.
    + intros w1 w2 holder2 ttl2 Hfirst Hsame Hbefore.
      apply acquireJobLock_held.
      apply (acquireJobLock_true _ _ _ _ _ Hrange) in Hfirst. subst w1.
      cbn [job_lock set_job_lock advance] in Hsame.
      rewrite lookup_insert_eq in Hsame.
      eexists (LockRow.mk (ParsesTo _) holderId), _.
      rewrite Hsame. cbn. repeat split; lia.
  - intros Hrange. lock_unfold. unfold toISOString.
    destruct (inDateRangeb _) eqn:Hb; [|reflexivity].
    now apply inDateRangeb_spec in Hb.
  - apply acquireJobLock_false.
  - intros acquired. apply acquireJobLock_returns.
  - intros error Hthrown.
    destruct (acquireJobLock_cases jobName holderId ttlSeconds w)
      as [[e Hout] | [Hout | [until Hout]]];
      rewrite Hout in Hthrown |- *; cbn in Hthrown |- *;
      [reflexivity | discriminate | discriminate].
Qed.

Lemma C4_witness :
  SqliteStateRepo.acquireJobLock (H := Demo.platform Demo.noPosts Demo.sizes)
    "daily-sync" "sync-1-1000" 3300 Demo.emptyWorld
  = (inr true,
     set_job_lock
       (insert "daily-sync" (LockRow.mk (ParsesTo 3301000) "sync-1-1000"))
       (advance Demo.emptyWorld)).
Proof.
  refine (proj1 (proj1 (@C4_acquireJobLock (Demo.platform Demo.noPosts Demo.sizes)
                          "daily-sync" "sync-1-1000" 3300 Demo.emptyWorld) _)
            eq_refl eq_refl eq_refl eq_refl _).
  - unfold inDateRange, maxTimeValue. cbn. lia.
  - left. reflexivity.
Defined.

(** The claim makes lock contention a return value, and has a free lock
    always taken.  With a database whose write lock is held by another
    connection, [BEGIN IMMEDIATE] throws SQLITE_BUSY: the call throws,
    with no lock row as well as with a valid lock row of another holder,
    and the run of the engine rejects instead of returning a summary with
    [skippedByLock].  With a [COMMIT] that fails, the call on a free lock
    throws as well, and the row it had written is rolled back.  With a
    time-to-live of ten million million seconds, [now + ttl] is past the
    last date and the call on a free lock throws a [RangeError]. *)
Lemma C4_counterexample :
  let busy := Demo.failingPlatform BeginImmediate Demo.SQLITE_BUSY
                Demo.noPosts Demo.sizes in
  let full := Demo.failingPlatform Commit
                (ErrorObj "Error" "database or disk is full")
                Demo.noPosts Demo.sizes in
  let held :=
    set_job_lock (insert "daily-sync" (LockRow.mk (ParsesTo 9000) "sync-7-1"))
      Demo.emptyWorld in
  lockFree "daily-sync" 1000 Demo.emptyWorld
  /\ SqliteStateRepo.acquireJobLock (H := busy) "daily-sync" "sync-1-1000" 3300
       Demo.emptyWorld
     = (inl Demo.SQLITE_BUSY, advance Demo.emptyWorld)
  /\ lockHeld "daily-sync" 1000 held
  /\ SqliteStateRepo.acquireJobLock (H := busy) "daily-sync" "sync-1-1000" 3300 held
     = (inl Demo.SQLITE_BUSY, advance held)
  /\ fst (run (H := busy) (Demo.config ["alice"] 5 (Some 7200)) held)
     = inl Demo.SQLITE_BUSY
  /\ SqliteStateRepo.acquireJobLock (H := full) "daily-sync" "sync-1-1000" 3300
       Demo.emptyWorld
     = (inl (ErrorObj "Error" "database or disk is full"), advance Demo.emptyWorld)
  /\ SqliteStateRepo.acquireJobLock (H := Demo.platform Demo.noPosts Demo.sizes)
       "daily-sync" "sync-1-1000" 10000000000000 Demo.emptyWorld
     = (inl RangeError_invalid_time, advance Demo.emptyWorld).
Proof.
  intros busy full held. split; [now left|]. split; [reflexivity|]. split.
  - exists (LockRow.mk (ParsesTo 9000) "sync-7-1"), 9000.
    split; [reflexivity|]. split; [reflexivity|]. lia.
  - split; [reflexivity|]. split; [vm_compute; reflexivity|].
    split; reflexivity.
Qed.

(** ** The configuration loader *)

(** C5.  Whatever the environment holds, the configuration that
    [loadConfig] returns carries no cooldown: the schema has no key for
    it and the returned object no [twitterRateLimitCooldownSeconds], so
    the engine's [computeCooldownUntil] multiplies [undefined] by 1000
    and [toISOString] throws "Invalid time value". *)
Theorem C5_loadConfig_carries_no_cooldown `{Platform}
    (String_trim : string -> string) (Number_int : string -> option Z)
    (parseCookies : string -> option (list string))
    (environment : Config.Env) (config : AppConfig.t) :
  Config.loadConfig String_trim Number_int parseCookies environment = Some config ->
  AppConfig.twitterRateLimitCooldownSeconds config = None
  /\ forall w,
       computeCooldownUntil config w = (inl RangeError_invalid_time, advance w).
Proof.
  intros Hload.
  assert (Hnone : AppConfig.twitterRateLimitCooldownSeconds config = None).
  { unfold Config.loadConfig in Hload.
    destruct (Config.syncEnvSchema_parse _ _ _) as [parsed|]; [|discriminate].
    cbn in Hload. destruct (parseCookies _); [|discriminate].
    cbn in Hload. now inversion Hload. }
  split; [exact Hnone|]. intros w. now apply computeCooldownUntil_undefined.
Qed.

Lemma C5_witness :
  exists config,
    Demo.loadedConfig = Some config
    /\ AppConfig.twitterUsers config = ["alice"; "bob"]
    /\ computeCooldownUntil (H := Demo.platform Demo.limited Demo.sizes)
         config Demo.emptyWorld
       = (inl RangeError_invalid_time, advance Demo.emptyWorld).
Proof.
  eexists. split; [vm_compute; reflexivity|]. split; [reflexivity|].
  refine (proj2 (@C5_loadConfig_carries_no_cooldown
                   (Demo.platform Demo.limited Demo.sizes)
                   Demo.String_trim Demo.Number_int Demo.parseCookies
                   Demo.environment _ _) Demo.emptyWorld).
  vm_compute. reflexivity.
Defined.

(** With the configuration that [loadConfig] returns, a rate-limited
    account does not enter cooldown: the [catch] block throws, the run
    rejects, and no account row is written. *)
Example loaded_config_rate_limit_rejects_run :
  exists config w',
    Demo.loadedConfig = Some config
    /\ run (H := Demo.platform Demo.limited Demo.sizes) config Demo.emptyWorld
       = (inl RangeError_invalid_time, w')
    /\ account_state w' = ∅.
Proof.
  eexists. eexists. split; [vm_compute; reflexivity|].
  split; vm_compute; reflexivity.
Qed.

(** ** Invariants of the engine

    An invariant of the world that survives clock readings, the external
    calls that respect [okKey] and the size cap, the connection flag and
    the insertion of registry rows, and that makes every unregistered key
    an [okKey], is kept by the whole of [processTweet] and by everything
    [run] does around it. *)

Section Invariant.
Context `{Platform}.
Variable config : AppConfig.t.
Variable I : World -> Prop.
Variable okKey : string -> Prop.

Hypothesis I_advance : forall w, I w -> I (advance w).
Hypothesis I_record :
  forall ev w, okEvent config okKey ev -> I w -> I (record ev w).
Hypothesis I_connected : forall b w, I w -> I (set_connected b w).
Hypothesis I_mark :
  forall r w, I w -> I (set_media_registry (SqliteStateRepo.insertOrReplace r) w).
Hypothesis I_fresh :
  forall k w, I w ->
    existsb (fun r => String.eqb (StoredMediaRecord.mediaKey r) k)
            (media_registry w) = false ->
    okKey k.

Lemma yields_ret {A} (a : A) (R : A -> Prop) : R a -> yields I (ret a) R.
Proof.
  intros HR w HI. split; [exact HI|]. intros a' Heq.
  injection Heq as <-. exact HR.
Qed.

Lemma yields_throw {A} (e : JsError) (R : A -> Prop) : yields I (throw e) R.
Proof. intros w HI. split; [exact HI|]. discriminate. Qed.

Lemma yields_liftOutcome {A} (r : JsError + A) (R : A -> Prop) :
  onValue R r -> yields I (liftOutcome r) R.
Proof.
  intros HR w HI. split; [exact HI|]. intros a Heq. cbn in Heq. now subst r.
Qed.

Lemma yields_weaken {A} (m : M A) (R R' : A -> Prop) :
  yields I m R -> (forall a, R a -> R' a) -> yields I m R'.
Proof.
  intros Hm HR w HI. eapply wp_mono; [exact (Hm w HI)|].
  intros r w' [HI' Hr]. split; auto.
Qed.

Lemma yields_bind {A B} (m : M A) (k : A -> M B) (R : A -> Prop) (R' : B -> Prop) :
  yields I m R -> (forall a, R a -> yields I (k a) R') -> yields I (bind m k) R'.
Proof.
  intros Hm Hk w HI. apply wp_bind. eapply wp_mono; [exact (Hm w HI)|].
  intros [e|a] w' [HI' Hr].
  - split; [exact HI'|]. discriminate.
  - exact (Hk a (Hr a eq_refl) w' HI').
Qed.

Lemma yields_attempt {A} (m : M A) (R : A -> Prop) :
  yields I m R -> yields I (attempt m) (onValue R).
Proof.
  intros Hm w HI. apply wp_attempt. eapply wp_mono; [exact (Hm w HI)|].
  intros r w' [HI' Hr]. split; [exact HI'|].
  intros a Heq. injection Heq as <-. destruct r; cbn; auto.
Qed.

Lemma yields_get {A} (f : World -> A) (R : A -> Prop) :
  (forall w, I w -> R (f w)) -> yields I (get f) R.
Proof.
  intros HR w HI. split; [exact HI|]. intros a Heq.
  injection Heq as <-. auto.
Qed.

Lemma keeps_modify (f : World -> World) :
  (forall w, I w -> I (f w)) -> keeps I (modify f).
Proof. intros Hf w HI. split; [now apply Hf | auto]. Qed.

Lemma keeps_call {A} (ev : Event) (answer : nat -> JsError + A) :
  okEvent config okKey ev -> keeps I (call ev answer).
Proof. intros Hev w HI. split; [now apply I_record | auto]. Qed.

Lemma keeps_call_ (ev : Event) (answer : nat -> option JsError) :
  okEvent config okKey ev -> keeps I (call_ ev answer).
Proof. intros Hev. now apply keeps_call. Qed.

Lemma keeps_Date_now_ : keeps I Date_now_.
Proof. intros w HI. split; [now apply I_advance | auto]. Qed.

Lemma keeps_nowIso : keeps I nowIso.
Proof.
  unfold nowIso. eapply yields_bind; [apply keeps_Date_now_|].
  intros now _. now apply yields_ret.
Qed.

Lemma keeps_ensureDir directory : keeps I (ensureDir directory).
Proof. now apply keeps_call_. Qed.

Lemma keeps_removeFileSafe filePath : keeps I (removeFileSafe filePath).
Proof. now apply keeps_call_. Qed.

Lemma keeps_sleep ms : keeps I (sleep ms).
Proof. now apply keeps_call. Qed.

Lemma yields_withRetry_loop {A} (fn : M A) options (R : A -> Prop)
    rounds attempt_ lastError :
  yields I fn R ->
  yields I (withRetry_loop fn options rounds attempt_ lastError) R.
Proof.
  intros Hfn. revert attempt_ lastError.
  induction rounds as [|rounds IH]; intros attempt_ lastError; cbn [withRetry_loop].
  - apply yields_throw.
  - eapply yields_bind; [apply yields_attempt, Hfn|].
    intros [error|v] Hv; cbn in Hv.
    + destruct (attempt_ =? RetryOptions.retries options).
      * apply yields_throw.
      * eapply yields_bind; [apply keeps_sleep|]. intros _ _. apply IH.
    + now apply yields_ret.
Qed.

Lemma yields_withRetry {A} (fn : M A) options (R : A -> Prop) :
  yields I fn R -> yields I (withRetry fn options) R.
Proof. intros Hfn. now apply yields_withRetry_loop. Qed.

Lemma yields_downloadMedia input :
  okKey (DownloadMediaInput.mediaKey input) ->
  yields I (downloadMedia input)
    (fun f => LocalMediaFile.mediaKey f = DownloadMediaInput.mediaKey input
              /\ LocalMediaFile.mediaType f = DownloadMediaInput.mediaType input).
Proof.
  intros Hkey. unfold downloadMedia, ensureParentDir.
  eapply yields_bind; [apply keeps_ensureDir|]. intros _ _.
  eapply yields_bind; [now apply (keeps_call (A := Response.t))|].
  intros response _.
  destruct (Response.ok response); [|apply yields_throw].
  destruct (Response.body response) as [stream|]; [|apply yields_throw].
  eapply yields_bind; [now apply (yields_liftOutcome _ (fun _ => True)); destruct stream|].
  intros size _. now apply yields_ret.
Qed.

Lemma keeps_ensureConnected : keeps I ensureConnected.
Proof.
  unfold ensureConnected.
  eapply yields_bind; [apply (yields_get _ (fun _ => True)); auto|].
  intros [|] _; [now apply yields_ret|].
  eapply yields_bind; [now apply (keeps_call (A := bool))|].
  intros [|] _; [|apply yields_throw].
  apply keeps_modify. auto.
Qed.

Lemma keeps_sendTextMessage message : keeps I (sendTextMessage message).
Proof.
  unfold sendTextMessage.
  eapply yields_bind; [apply keeps_ensureConnected|]. intros _ _.
  now apply keeps_call_.
Qed.

Lemma chunkArray_loop_Forall {T} (P : T -> Prop) rounds (items : list T) size index :
  Forall P items -> Forall (Forall P) (chunkArray_loop rounds items size index).
Proof.
  intros Hall. revert index.
  induction rounds as [|rounds IH]; intros index; cbn [chunkArray_loop].
  - constructor.
  - destruct (index <? length items)%nat; constructor; [|apply IH].
    now apply Forall_take, Forall_drop.
Qed.

Lemma keeps_sendChunks input chunks index messageIds :
  Forall (Forall (okFile config okKey)) chunks ->
  keeps I (sendChunks input chunks index messageIds).
Proof.
  intros Hall. revert index messageIds.
  induction Hall as [|chunk chunks Hchunk _ IH]; intros index messageIds;
    cbn [sendChunks].
  - now apply yields_ret.
  - eapply yields_bind;
      [apply (yields_liftOutcome _ (fun _ => True)); now destruct (toCaption _ _)|].
    intros caption _.
    eapply yields_bind; [now apply (keeps_call (A := list (option Z)))|].
    intros messages _. apply IH.
Qed.

Lemma keeps_sendTweetMediaGroup input :
  Forall (okFile config okKey) (SendTweetMediaGroupInput.mediaFiles input) ->
  keeps I (sendTweetMediaGroup input).
Proof.
  intros Hfiles. unfold sendTweetMediaGroup.
  eapply yields_bind; [apply keeps_ensureConnected|]. intros _ _.
  eapply yields_bind;
    [apply keeps_sendChunks; now apply chunkArray_loop_Forall|].
  intros messageIds _. now apply yields_ret.
Qed.

Lemma yields_isMediaUploaded mediaKey :
  yields I (SqliteStateRepo.isMediaUploaded mediaKey)
    (fun found => found = false -> okKey mediaKey).
Proof. apply yields_get. intros w HI Hnone. now apply (I_fresh _ w). Qed.

Lemma keeps_markMediaUploaded record_ :
  keeps I (SqliteStateRepo.markMediaUploaded record_).
Proof. apply keeps_modify. intros w HI. now apply I_mark. Qed.

Lemma yields_processMedia tweet username media locals :
  Forall (okFile config okKey) (snd locals) ->
  yields I (processMedia config tweet username media locals)
    (okLocals config okKey).
Proof.
  destruct locals as [result downloadedFiles]. cbn [snd]. intros Hfiles.
  unfold processMedia.
  eapply yields_bind; [apply yields_isMediaUploaded|].
  intros [|] Hfresh; [now apply yields_ret|].
  specialize (Hfresh eq_refl).
  eapply yields_bind;
    [apply yields_attempt, yields_withRetry, yields_downloadMedia; exact Hfresh|].
  intros [error|downloaded] Hd; cbn in Hd; [now apply yields_ret|].
  destruct Hd as [Hk Ht].
  destruct (negb (MediaType_eqb (LocalMediaFile.mediaType downloaded) photo)
            && (LocalMediaFile.fileSizeBytes downloaded
                >? AppConfig.maxUploadVideoBytes config)) eqn:Hbig.
  - eapply yields_bind; [apply keeps_nowIso|]. intros uploadedAt _.
    eapply yields_bind; [apply keeps_markMediaUploaded|]. intros _ _.
    eapply yields_bind; [apply yields_attempt, keeps_removeFileSafe|].
    intros [error|[]] _; now apply yields_ret.
  - apply yields_ret. unfold okLocals. cbn [snd].
    apply Forall_app. split; [exact Hfiles|]. constructor; [|constructor].
    split; [now rewrite Hk|].
    intros [Hphoto Hsize]. apply andb_false_iff in Hbig.
    destruct Hbig as [Hb|Hb].
    + apply negb_false_iff in Hb. apply Hphoto.
      now destruct (LocalMediaFile.mediaType downloaded).
    + lia.
Qed.

Lemma yields_mediaLoop tweet username medias locals :
  Forall (okFile config okKey) (snd locals) ->
  yields I (mediaLoop config tweet username medias locals)
    (okLocals config okKey).
Proof.
  revert locals. induction medias as [|media rest IH]; intros locals Hfiles;
    cbn [mediaLoop].
  - now apply yields_ret.
  - eapply yields_bind; [now apply yields_processMedia|].
    intros [[error|] locals'] Hok; unfold okLocals in Hok; cbn [snd] in Hok.
    + now apply yields_ret.
    + now apply IH.
Qed.

Lemma keeps_markUploadedLoop tweet username messageIds files result :
  keeps I (markUploadedLoop tweet username messageIds files result).
Proof.
  revert result. induction files as [|file rest IH]; intros result;
    cbn [markUploadedLoop].
  - now apply yields_ret.
  - eapply yields_bind; [apply keeps_nowIso|]. intros uploadedAt _.
    eapply yields_bind; [apply keeps_markMediaUploaded|]. intros _ _.
    apply IH.
Qed.

Lemma keeps_processTweet_try tweet username :
  keeps I (processTweet_try config tweet username).
Proof.
  unfold processTweet_try.
  eapply yields_bind; [apply yields_mediaLoop; constructor|].
  intros [[error|] [result downloadedFiles]] Hok;
    unfold okLocals in Hok; cbn [snd] in Hok; [now apply yields_ret|].
  destruct (length downloadedFiles =? 0)%nat; [now apply yields_ret|].
  eapply yields_bind;
    [apply yields_attempt, yields_withRetry, keeps_sendTweetMediaGroup; exact Hok|].
  intros [error|sendResult] _; [now apply yields_ret|].
  eapply yields_bind; [apply yields_attempt, keeps_markUploadedLoop|].
  intros [error|result'] _; now apply yields_ret.
Qed.

Lemma keeps_removeAll paths rejected : keeps I (removeAll paths rejected).
Proof.
  revert rejected. induction paths as [|filePath rest IH]; intros rejected;
    cbn [removeAll].
  - destruct rejected; [apply yields_throw | now apply yields_ret].
  - eapply yields_bind; [apply yields_attempt, keeps_removeFileSafe|].
    intros removed _. apply IH.
Qed.

Lemma keeps_processTweet tweet username :
  keeps I (processTweet config tweet username).
Proof.
  unfold processTweet.
  eapply yields_bind; [apply keeps_processTweet_try|].
  intros [thrown [result downloadedFiles]] _.
  eapply yields_bind; [apply keeps_removeAll|]. intros _ _.
  now apply yields_ret.
Qed.

Lemma keeps_processSelected username selected totals :
  keeps I (processSelected config username selected totals).
Proof.
  revert totals. induction selected as [|tweet rest IH]; intros totals;
    cbn [processSelected].
  - now apply yields_ret.
  - eapply yields_bind; [apply keeps_processTweet|]. intros processed _. apply IH.
Qed.

Lemma keeps_collectIncrementalTweets username latestSeenTweetId :
  keeps I (collectIncrementalTweets config username latestSeenTweetId).
Proof.
  unfold collectIncrementalTweets.
  eapply yields_bind;
    [now apply (keeps_call (A := ListTweetsWithMediaResult.t))|].
  intros response _. now apply yields_ret.
Qed.

Lemma keeps_collectBackfillTweets username backfillCursor :
  keeps I (collectBackfillTweets config username backfillCursor).
Proof.
  unfold collectBackfillTweets.
  eapply yields_bind;
    [now apply (keeps_call (A := ListTweetsWithMediaResult.t))|].
  intros response _. now apply yields_ret.
Qed.

Lemma keeps_computeCooldownUntil : keeps I (computeCooldownUntil config).
Proof.
  unfold computeCooldownUntil.
  eapply yields_bind; [apply keeps_Date_now_|]. intros now _.
  apply yields_liftOutcome. now destruct (toISOString _).
Qed.

Lemma keeps_finally {A} (m : M A) (f : M unit) :
  keeps I m -> keeps I f -> keeps I (finally m f).
Proof.
  intros Hm Hf. unfold finally.
  eapply yields_bind; [apply yields_attempt, Hm|]. intros r _.
  eapply yields_bind; [apply Hf|]. intros _ _.
  now apply yields_liftOutcome; destruct r.
Qed.

(** When the invariant also survives writes to the account and lock
    relations, the whole run keeps it. *)
Hypothesis I_account : forall f w, I w -> I (set_account_state f w).
Hypothesis I_lock : forall f w, I w -> I (set_job_lock f w).

Lemma keeps_getAccountState username :
  keeps I (SqliteStateRepo.getAccountState username).
Proof.
  unfold SqliteStateRepo.getAccountState.
  eapply yields_bind; [apply (yields_get _ (fun _ => True)); auto|].
  intros [row|] _; [now apply yields_ret|].
  eapply yields_bind; [apply keeps_nowIso|]. intros updatedAt _.
  now apply yields_ret.
Qed.

Lemma keeps_upsertAccountState state :
  keeps I (SqliteStateRepo.upsertAccountState state).
Proof.
  unfold SqliteStateRepo.upsertAccountState.
  eapply yields_bind.
  - destruct (AccountState.updatedAt state);
      [now apply (yields_ret _ (fun _ => True)) | apply keeps_nowIso].
  - intros updatedAt _. apply keeps_modify. intros w HI. now apply I_account.
Qed.

Lemma keeps_syncAccount_try username state summary :
  keeps I (syncAccount_try config username state summary).
Proof.
  unfold syncAccount_try.
  eapply yields_bind; [apply yields_attempt, keeps_collectIncrementalTweets|].
  intros [error|[incrementalTweets newestSeenId]] _; [now apply yields_ret|].
  eapply yields_bind.
  - destruct (AccountState.backfillDone state);
      [now apply (yields_ret _ (fun _ => True))
      | eapply yields_weaken;
        [apply yields_attempt, keeps_collectBackfillTweets | auto]].
  - intros [error|backfill] _; [now apply yields_ret|].
    eapply yields_bind; [apply yields_attempt, keeps_processSelected|].
    intros [error|totals] _; [now apply yields_ret|].
    eapply yields_bind; [apply yields_attempt, keeps_upsertAccountState|].
    intros [error|[]] _; now apply yields_ret.
Qed.

Lemma keeps_syncAccount_catch username state summary error :
  keeps I (syncAccount_catch config username state summary error).
Proof.
  unfold syncAccount_catch. destruct (Errors.isTwitterRateLimitError error).
  - eapply yields_bind; [apply keeps_computeCooldownUntil|]. intros cooldownUntil _.
    eapply yields_bind; [apply keeps_upsertAccountState|]. intros _ _.
    now apply yields_ret.
  - eapply yields_bind; [apply keeps_sendTextMessage|]. intros _ _.
    now apply yields_ret.
Qed.

Lemma keeps_syncAccount username : keeps I (syncAccount config username).
Proof.
  unfold syncAccount.
  eapply yields_bind; [apply keeps_getAccountState|]. intros state _.
  eapply yields_bind; [apply keeps_Date_now_|]. intros now _.
  destruct (Number_isFinite _ && num_gtb _ _); [now apply yields_ret|].
  eapply yields_bind; [apply keeps_syncAccount_try|].
  intros [[error|] summary] _;
    [apply keeps_syncAccount_catch | now apply yields_ret].
Qed.

Lemma keeps_accountLoop usernames accountSummaries :
  keeps I (accountLoop config usernames accountSummaries).
Proof.
  revert accountSummaries.
  induction usernames as [|username rest IH]; intros accountSummaries;
    cbn [accountLoop].
  - now apply yields_ret.
  - eapply yields_bind; [apply keeps_syncAccount|]. intros summary _. apply IH.
Qed.

Lemma keeps_acquireJobLock jobName holderId ttlSeconds :
  keeps I (SqliteStateRepo.acquireJobLock jobName holderId ttlSeconds).
Proof.
  intros w HI. unfold wp.
  destruct (acquireJobLock_cases jobName holderId ttlSeconds w)
    as [[e ->] | [-> | [until ->]]]; cbn [fst snd]; (split; [|auto]).
  - now apply I_advance.
  - now apply I_advance.
  - apply I_lock. now apply I_advance.
Qed.

Lemma keeps_releaseJobLock jobName holderId :
  keeps I (SqliteStateRepo.releaseJobLock jobName holderId).
Proof. apply keeps_modify. intros w HI. now apply I_lock. Qed.

Lemma keeps_run : keeps I (run config).
Proof.
  unfold run.
  eapply yields_bind; [apply keeps_Date_now_|]. intros startMs _.
  eapply yields_bind; [apply keeps_nowIso|]. intros startedAt _.
  eapply yields_bind; [apply keeps_ensureDir|]. intros _ _.
  eapply yields_bind; [apply keeps_acquireJobLock|]. intros [|] _; cbn [negb].
  - apply keeps_finally; [|apply keeps_releaseJobLock].
    eapply yields_bind.
    + apply yields_attempt.
      eapply yields_bind; [apply keeps_accountLoop|]. intros accountSummaries _.
      eapply yields_bind; [apply keeps_nowIso|]. intros finishedAt _.
      eapply yields_bind; [apply keeps_sendTextMessage|]. intros _ _.
      now apply (yields_ret _ (fun _ => True)).
    + intros [error|result] _; [|now apply yields_ret].
      eapply yields_bind; [apply keeps_sendTextMessage|]. intros _ _.
      apply yields_throw.
  - eapply yields_bind; [apply keeps_nowIso|]. intros finishedAt _.
    now apply yields_ret.
Qed.

End Invariant.

(** ** The registry: one row per key, rows never leave *)

Lemma registered_existsb mediaKey w :
  registered mediaKey w
  <-> existsb (fun r => String.eqb (StoredMediaRecord.mediaKey r) mediaKey)
              (media_registry w) = true.
Proof.
  unfold registered. rewrite existsb_exists.
  split; intros (r & Hin & Hk); exists r; split; auto.
  - now apply String.eqb_eq.
  - now apply String.eqb_eq in Hk.
Qed.

Lemma insertOrReplace_In record_ rows r :
  In r (SqliteStateRepo.insertOrReplace record_ rows)
  <-> r = record_
      \/ (In r rows
          /\ StoredMediaRecord.mediaKey r <> StoredMediaRecord.mediaKey record_).
Proof.
  unfold SqliteStateRepo.insertOrReplace.
  rewrite in_app_iff, filter_In. cbn [In]. rewrite negb_true_iff.
  split.
  - intros [[Hin Hne] | [Heq | []]]; [right | left; auto].
    split; [exact Hin|]. now apply String.eqb_neq.
  - intros [Heq | [Hin Hne]]; [right; left; auto | left].
    split; [exact Hin|]. now apply String.eqb_neq.
Qed.

Lemma insertOrReplace_registered record_ w mediaKey :
  registered mediaKey w ->
  registered mediaKey
    (set_media_registry (SqliteStateRepo.insertOrReplace record_) w).
Proof.
  intros (r & Hin & Hk). unfold registered. cbn [media_registry set_media_registry].
  destruct (String.eqb_spec (StoredMediaRecord.mediaKey r)
                            (StoredMediaRecord.mediaKey record_)) as [Heq|Hne].
  - exists record_. split; [apply insertOrReplace_In; now left | congruence].
  - exists r. split; [apply insertOrReplace_In; now right | exact Hk].
Qed.

Lemma insertOrReplace_unique record_ w :
  uniqueKeys w ->
  uniqueKeys (set_media_registry (SqliteStateRepo.insertOrReplace record_) w).
Proof.
  unfold uniqueKeys. cbn [media_registry set_media_registry].
  generalize (media_registry w). intros rows Hnd.
  unfold SqliteStateRepo.insertOrReplace. rewrite map_app. cbn [List.map].
  apply NoDup_app. split; [|split].
  - induction rows as [|r rows IH]; cbn [List.filter List.map]; [constructor|].
    cbn [List.map] in Hnd. apply NoDup_cons in Hnd. destruct Hnd as [Hnotin Hnd].
    destruct (negb _); [|now apply IH].
    cbn [List.map]. apply NoDup_cons. split; [|now apply IH].
    intros Hin. apply Hnotin.
    apply list_elem_of_In. apply list_elem_of_In in Hin.
    apply in_map_iff in Hin. destruct Hin as (r' & Hk & Hin').
    apply in_map_iff. exists r'. split; [exact Hk|].
    apply filter_In in Hin'. tauto.
  - intros k Hin Hin2. apply list_elem_of_In in Hin, Hin2.
    destruct Hin2 as [<-|[]].
    apply in_map_iff in Hin. destruct Hin as (r' & Hk & Hin').
    apply filter_In in Hin'. destruct Hin' as [_ Hne].
    apply negb_true_iff, String.eqb_neq in Hne. congruence.
  - apply NoDup_singleton.
Qed.

Lemma uniqueKeys_empty w : media_registry w = [] -> uniqueKeys w.
Proof. intros Hempty. unfold uniqueKeys. rewrite Hempty. constructor. Qed.

Section Dedupe.
Context `{Platform}.
Variable config : AppConfig.t.

Lemma run_uniqueKeys w : uniqueKeys w -> uniqueKeys (snd (run config w)).
Proof.
  intros Hu.
  refine (proj1 (keeps_run config uniqueKeys (fun _ => True) _ _ _ _ _ _ _ w Hu));
    auto using insertOrReplace_unique.
Qed.

Lemma sinceInv_refl K w : (forall k, K k -> registered k w) -> sinceInv config K w w.
Proof. intros HK. split; [exact HK|]. exists []. split; [reflexivity | constructor]. Qed.

Lemma sinceInv_record K w0 ev w :
  okEvent config (fun k => ~ K k) ev ->
  sinceInv config K w0 w -> sinceInv config K w0 (record ev w).
Proof.
  intros Hev (HK & calls & Hcalls & Hok). split; [exact HK|].
  exists (ev :: calls). split; [|now constructor].
  unfold callsBetween in *. cbn. now rewrite Hcalls.
Qed.

Lemma sinceInv_fresh K w0 k w :
  sinceInv config K w0 w ->
  existsb (fun r => String.eqb (StoredMediaRecord.mediaKey r) k)
          (media_registry w) = false ->
  ~ K k.
Proof.
  intros (HK & _) Hnone Hk. apply HK, registered_existsb in Hk. congruence.
Qed.

Lemma sinceInv_mark K w0 r w :
  sinceInv config K w0 w ->
  sinceInv config K w0 (set_media_registry (SqliteStateRepo.insertOrReplace r) w).
Proof.
  intros (HK & Hcalls). split; [|exact Hcalls].
  intros k Hk. now apply insertOrReplace_registered, HK.
Qed.

Lemma run_sinceInv K w :
  (forall k, K k -> registered k w) ->
  sinceInv config K w (snd (run config w)).
Proof.
  intros HK.
  refine (proj1 (keeps_run config (sinceInv config K w) (fun k => ~ K k)
                   _ _ _ _ _ _ _ w (sinceInv_refl K w HK)));
    auto using sinceInv_record, sinceInv_mark.
  intros k w1. apply sinceInv_fresh.
Qed.

Lemma processTweet_sinceInv K tweet username w :
  (forall k, K k -> registered k w) ->
  sinceInv config K w (snd (processTweet config tweet username w)).
Proof.
  intros HK.
  refine (proj1 (keeps_processTweet config (sinceInv config K w) (fun k => ~ K k)
                   _ _ _ _ _ tweet username w (sinceInv_refl K w HK)));
    auto using sinceInv_record, sinceInv_mark.
  intros k w1. apply sinceInv_fresh.
Qed.

Lemma okEvent_untouched K ev k :
  okEvent config (fun k => ~ K k) ev -> K k -> ~ touches k ev.
Proof.
  destruct ev; cbn; auto.
  - intros Hok Hk ->. contradiction.
  - intros Hok Hk (f & Hin & Hf).
    rewrite List.Forall_forall in Hok. destruct (Hok f Hin) as [Hnot _].
    apply Hnot. now rewrite Hf.
Qed.

Lemma okEvent_not_oversize okKey ev f :
  okEvent config okKey ev -> sends f ev -> ~ oversize config f.
Proof.
  destruct ev; cbn; try contradiction.
  intros Hok Hin. rewrite List.Forall_forall in Hok. now destruct (Hok f Hin).
Qed.

(** A media whose key is registered: the iteration counts it as skipped
    and does nothing else. *)
Lemma processMedia_registered tweet username media locals w :
  registered (makeMediaKey (MediaTweet.id tweet) (TweetMedia.url media)) w ->
  processMedia config tweet username media locals w
  = (inr (None, (addSkipped (fst locals), snd locals)), w).
Proof.
  intros Hreg. apply registered_existsb in Hreg.
  destruct locals as [result downloadedFiles].
  unfold processMedia, bind, SqliteStateRepo.isMediaUploaded, get.
  now rewrite Hreg.
Qed.

End Dedupe.

(** C1.  The registry holds at most one row per media key, and a run
    keeps it so; a key that is registered when a run starts stays
    registered, and no call of the run downloads that media or hands it
    to the sink; when [processTweet] meets a media whose key is
    registered, the iteration returns [skipped + 1] with [uploaded] and
    [failed] as they were, makes no call (no download, no send: the
    world is as before) and leaves the send list as it is. *)
Theorem C1_registered_media_never_resent `{Platform} (config : AppConfig.t)
    (w : World) :
  uniqueKeys w ->
  let w' := snd (run config w) in
  uniqueKeys w'
  /\ (forall k, registered k w -> registered k w')
  /\ (exists calls,
        callsBetween w w' calls
        /\ forall k ev, registered k w -> In ev calls -> ~ touches k ev)
  /\ (forall tweet username media locals w1,
        registered (makeMediaKey (MediaTweet.id tweet) (TweetMedia.url media)) w1 ->
        processMedia config tweet username media locals w1
        = (inr (None,
                (ProcessTweetResult.mk
                   (ProcessTweetResult.uploaded (fst locals))
                   (S (ProcessTweetResult.skipped (fst locals)))
                   (ProcessTweetResult.failed (fst locals)),
                 snd locals)),
           w1)).
Proof.
  intros Hu w'. subst w'. split; [now apply run_uniqueKeys|].
  destruct (run_sinceInv config (fun k => registered k w) w (fun k Hk => Hk))
    as (Hreg & calls & Hcalls & Hok).
  split; [exact Hreg|]. split.
  - exists calls. split; [exact Hcalls|]. intros k ev Hk Hin.
    rewrite List.Forall_forall in Hok.
    exact (okEvent_untouched config (fun k => registered k w) ev k
             (Hok ev Hin) Hk).
  - intros tweet username media locals w1. apply processMedia_registered.
Qed.

(** A second run over what a first run left: the incremental fetch stops
    at the latest seen post, nothing is uploaded and the registry is as
    it was. *)
Example second_run_uploads_nothing :
  let P := Demo.platform Demo.twoAccounts Demo.sizes in
  let config := Demo.config ["alice"; "bob"] 1 (Some 7200) in
  let afterFirstRun := snd (run (H := P) config Demo.emptyWorld) in
  exists summary w',
    run (H := P) config afterFirstRun = (inr summary, w')
    /\ List.map AccountRunSummary.uploaded (RunSummary.accounts summary)
       = [0%nat; 0%nat]
    /\ List.map AccountRunSummary.skipped (RunSummary.accounts summary)
       = [0%nat; 0%nat]
    /\ media_registry w' = media_registry afterFirstRun.
Proof.
  intros P config afterFirstRun. do 2 eexists.
  split; [vm_compute; reflexivity|]. repeat split.
Qed.

(** The post of the first run, processed again: its photo is counted as
    skipped and the world is untouched. *)
Example registered_photo_is_skipped :
  let P := Demo.platform Demo.twoAccounts Demo.sizes in
  let config := Demo.config ["alice"; "bob"] 1 (Some 7200) in
  let afterFirstRun := snd (run (H := P) config Demo.emptyWorld) in
  processTweet (H := P) config (Demo.photoTweet "1" "alice") "alice" afterFirstRun
  = (inr (ProcessTweetResult.mk 0 1 0), afterFirstRun).
Proof. vm_compute. reflexivity. Qed.

Lemma C1_witness :
  let P := Demo.platform Demo.twoAccounts Demo.sizes in
  let config := Demo.config ["alice"; "bob"] 1 (Some 7200) in
  let afterFirstRun := snd (run (H := P) config Demo.emptyWorld) in
  uniqueKeys (snd (run (H := P) config afterFirstRun))
  /\ processMedia (H := P) config (Demo.photoTweet "1" "alice") "alice"
       (TweetMedia.mk "m" "https://img/1.jpg" photo)
       (ProcessTweetResult.mk 4 2 1, []) afterFirstRun
     = (inr (None, (ProcessTweetResult.mk 4 3 1, [])), afterFirstRun).
Proof.
  intros P config afterFirstRun.
  assert (Hunique : uniqueKeys afterFirstRun).
  { apply (bool_decide_unpack _). vm_compute. exact Logic.I. }
  destruct (@C1_registered_media_never_resent P config afterFirstRun Hunique)
    as (Hkept & _ & _ & Hskipped).
  split; [exact Hkept|].
  apply (Hskipped (Demo.photoTweet "1" "alice") "alice"
           (TweetMedia.mk "m" "https://img/1.jpg" photo)
           (ProcessTweetResult.mk 4 2 1, []) afterFirstRun).
  apply registered_existsb. vm_compute. reflexivity.
Defined.

(** ** The oversize branch *)

Lemma processMedia_oversize `{Platform} (config : AppConfig.t)
    tweet username media result downloadedFiles w downloaded w1 :
  let mediaKey := makeMediaKey (MediaTweet.id tweet) (TweetMedia.url media) in
  let input :=
    DownloadMediaInput.mk mediaKey (TweetMedia.url media) (TweetMedia.type media)
      (path_join (AppConfig.downloadTmpDir config) username) in
  ~ registered mediaKey w ->
  withRetry (downloadMedia input) downloadRetry w = (inr downloaded, w1) ->
  oversize config downloaded ->
  let record_ :=
    StoredMediaRecord.mk mediaKey (MediaTweet.id tweet) username
      (TweetMedia.url media) (TweetMedia.type media)
      (ParsesTo (Date_now (tick w1))) [] skipped_oversize in
  let w2 :=
    set_media_registry (SqliteStateRepo.insertOrReplace record_) (advance w1) in
  processMedia config tweet username media (result, downloadedFiles) w
  = (inr (fs_rm (tick w2) (LocalMediaFile.path downloaded),
          (addSkipped result, downloadedFiles)),
     record (EvRemoveFile (LocalMediaFile.path downloaded)) w2).
Proof.
  intros mediaKey input Hfresh Hdl [Hphoto Hsize] record_ w2.
  assert (Hnone : existsb
            (fun r => String.eqb (StoredMediaRecord.mediaKey r) mediaKey)
            (media_registry w) = false).
  { destruct (existsb _ _) eqn:He; [|reflexivity].
    exfalso. now apply Hfresh, registered_existsb. }
  unfold processMedia. fold mediaKey. fold input.
  unfold bind at 1. unfold SqliteStateRepo.isMediaUploaded, get. rewrite Hnone.
  unfold bind at 1. unfold attempt. rewrite Hdl.
  replace (negb (MediaType_eqb (LocalMediaFile.mediaType downloaded) photo))
    with true by (now destruct (LocalMediaFile.mediaType downloaded)).
  replace (LocalMediaFile.fileSizeBytes downloaded
           >? AppConfig.maxUploadVideoBytes config) with true by lia.
  cbn [andb].
  unfold bind, nowIso, Date_now_, SqliteStateRepo.markMediaUploaded, modify,
    removeFileSafe, call_, call, ret. cbn.
  fold record_. fold w2.
  now destruct (fs_rm (S (tick w1)) (LocalMediaFile.path downloaded)).
Qed.

(** C6.  A downloaded media that is not a photo and is larger than
    [maxUploadVideoBytes]: the iteration inserts a registry row with
    status [skipped_oversize] and no message id, adds one to [skipped],
    removes the local file (its only call after the download), and leaves
    the send list as it was; and no call that [processTweet] makes hands
    an oversize file to the sink. *)
Theorem C6_oversize_media_is_skipped `{Platform} (config : AppConfig.t)
    (tweet : MediaTweet.t) (username : string) (media : TweetMedia.t)
    (result : ProcessTweetResult.t) (downloadedFiles : list LocalMediaFile.t)
    (w : World) (downloaded : LocalMediaFile.t) (w1 : World) :
  let mediaKey := makeMediaKey (MediaTweet.id tweet) (TweetMedia.url media) in
  let input :=
    DownloadMediaInput.mk mediaKey (TweetMedia.url media) (TweetMedia.type media)
      (path_join (AppConfig.downloadTmpDir config) username) in
  ~ registered mediaKey w ->
  withRetry (downloadMedia input) downloadRetry w = (inr downloaded, w1) ->
  oversize config downloaded ->
  let record_ :=
    StoredMediaRecord.mk mediaKey (MediaTweet.id tweet) username
      (TweetMedia.url media) (TweetMedia.type media)
      (ParsesTo (Date_now (tick w1))) [] skipped_oversize in
  let '(r, w') :=
    processMedia config tweet username media (result, downloadedFiles) w in
  (exists thrown, r = inr (thrown, (addSkipped result, downloadedFiles)))
  /\ In record_ (media_registry w')
  /\ callsBetween w1 w' [EvRemoveFile (LocalMediaFile.path downloaded)]
  /\ (forall tweet' username' w0,
        exists calls,
          callsBetween w0 (snd (processTweet config tweet' username' w0)) calls
          /\ forall f ev, In ev calls -> sends f ev -> ~ oversize config f).
Proof.
  intros mediaKey input Hfresh Hdl Hbig record_.
  rewrite (processMedia_oversize config tweet username media result
             downloadedFiles w downloaded w1 Hfresh Hdl Hbig).
  split; [eexists; reflexivity|]. split; [|split].
  - cbn [media_registry record set_media_registry].
    apply insertOrReplace_In. now left.
  - reflexivity.
  - intros tweet' username' w0.
    destruct (processTweet_sinceInv config (fun _ => False) tweet' username' w0)
      as (_ & calls & Hcalls & Hok); [contradiction|].
    exists calls. split; [exact Hcalls|]. intros f ev Hin.
    rewrite List.Forall_forall in Hok.
    now apply (okEvent_not_oversize config (fun k => ~ False)), Hok.
Qed.

Lemma C6_witness :
  exists thrown,
    fst (processMedia (H := Demo.platform Demo.mixedTimeline Demo.sizes)
           (Demo.config ["alice"] 5 (Some 7200)) Demo.mixedTweet "alice"
           (TweetMedia.mk "b" "https://vid/7.mp4" video)
           (ProcessTweetResult.mk 0 0 0, []) Demo.emptyWorld)
    = inr (thrown, (ProcessTweetResult.mk 0 1 0, [])).
Proof.
  assert (Hfresh : ~ registered
            (makeMediaKey (H := Demo.platform Demo.mixedTimeline Demo.sizes)
               "7" "https://vid/7.mp4") Demo.emptyWorld).
  { intros (r & Hin & _). exact Hin. }
  generalize (@C6_oversize_media_is_skipped
                (Demo.platform Demo.mixedTimeline Demo.sizes)
                (Demo.config ["alice"] 5 (Some 7200)) Demo.mixedTweet "alice"
                (TweetMedia.mk "b" "https://vid/7.mp4" video)
                (ProcessTweetResult.mk 0 0 0) [] Demo.emptyWorld _ _
                Hfresh eq_refl).
  cbv zeta.
  destruct (processMedia _ _ _ _ _ _) as [r w'].
  intros HC6. destruct HC6 as [[thrown Hr] _].
  - split; [discriminate | vm_compute; reflexivity].
  - exists thrown. exact Hr.
Defined.

(** ** The records written after a group send *)

Section GroupSend.
Context `{Platform}.
Variable config : AppConfig.t.

Lemma chunkArray_loop_concat {T} rounds (items : list T) size index :
  (0 < size)%nat ->
  (length items <= index + rounds)%nat ->
  concat (chunkArray_loop rounds items size index) = skipn index items.
Proof.
  intros Hsize. revert index.
  induction rounds as [|rounds IH]; intros index Hlen; cbn [chunkArray_loop].
  - cbn. symmetry. apply skipn_all2. lia.
  - destruct (Nat.ltb_spec index (length items)) as [Hlt|Hge].
    + cbn [concat]. rewrite IH by lia.
      rewrite Nat.add_comm, <- skipn_skipn. apply firstn_skipn.
    + cbn. symmetry. apply skipn_all2. lia.
Qed.

Lemma chunkArray_concat {T} (items : list T) :
  concat (chunkArray items 10) = items.
Proof.
  unfold chunkArray. rewrite chunkArray_loop_concat by lia. reflexivity.
Qed.








Lemma markUploadedLoop_returns tweet username messageIds files result w :
  fst (markUploadedLoop tweet username messageIds files result w)
  = inr (ProcessTweetResult.mk
           (ProcessTweetResult.uploaded result + length files)
           (ProcessTweetResult.skipped result)
           (ProcessTweetResult.failed result)).
Proof.
  revert result w.
  induction files as [|file rest IH]; intros result w; cbn [markUploadedLoop].
  - cbn. destruct result. cbn. now rewrite Nat.add_0_r.
  - unfold bind, nowIso, Date_now_, SqliteStateRepo.markMediaUploaded, modify, ret.
    cbn. rewrite IH. cbn. f_equal. f_equal. lia.
Qed.


End GroupSend.



(** The album post: eleven files, two albums, and each of the eleven rows
    holds the eleven message ids. *)
Example album_rows_hold_every_id :
  List.map (fun r => length (StoredMediaRecord.telegramMessageIds r))
    (media_registry (snd Demo.albumOutcome))
  = repeat 11%nat 11.
Proof. vm_compute. reflexivity. Qed.

(** ** A failed account *)

Section FailedAccount.
Context `{Platform}.
Variable config : AppConfig.t.

Lemma keeps_snd {A} (I : World -> Prop) (m : M A) w :
  keeps I m -> I w -> I (snd (m w)).
Proof. intros Hm HI. exact (proj1 (Hm w HI)). Qed.


Lemma upsertAccountState_row state w :
  exists updatedAt,
    account_state (snd (SqliteStateRepo.upsertAccountState state w))
    = <[AccountState.username state :=
          AccountRow.mk (AccountState.latestSeenTweetId state)
            (AccountState.backfillCursor state)
            (if AccountState.backfillDone state then 1 else 0)
            (AccountState.rateLimitedUntil state) updatedAt]> (account_state w).
Proof.
  unfold SqliteStateRepo.upsertAccountState, bind, nowIso, Date_now_, bind, ret,
    modify.
  destruct (AccountState.updatedAt state); cbn; eexists; reflexivity.
Qed.


End FailedAccount.




(** ** The media budget *)

Lemma mediaCount_app a b : mediaCount (a ++ b) = mediaCount a + mediaCount b.
Proof.
  induction a as [|t a IH]; cbn [mediaCount app]; [reflexivity|].
  rewrite IH. lia.
Qed.

Lemma mediaCount_nonneg a : 0 <= mediaCount a.
Proof.
  induction a as [|t a IH]; cbn [mediaCount]; lia.
Qed.

(** Once something is selected and the budget is not overdrawn, the
    selection stays within what is left. *)
Lemma selectTweets_within candidates selected mediaBudget :
  selected <> [] -> 0 <= mediaBudget ->
  mediaCount (selectTweets candidates selected mediaBudget)
  <= mediaCount selected + mediaBudget.
Proof.
  revert selected mediaBudget.
  induction candidates as [|tweet rest IH]; intros selected mediaBudget Hne Hb;
    cbn [selectTweets].
  - lia.
  - destruct (mediaBudget <=? 0) eqn:Hz; [lia|].
    destruct ((Z.of_nat (length (MediaTweet.media tweet)) >? mediaBudget)
              && (0 <? length selected)%nat) eqn:Hskip.
    + now apply IH.
    + assert (Hfit : Z.of_nat (length (MediaTweet.media tweet)) <= mediaBudget).
      { apply andb_false_iff in Hskip. destruct Hskip as [Hc|Hl]; [lia|].
        apply Nat.ltb_ge in Hl. destruct selected; [contradiction | cbn in Hl; lia]. }
      etransitivity; [apply IH|].
      * now destruct selected.
      * lia.
      * rewrite mediaCount_app. cbn [mediaCount]. lia.
Qed.

(** From an empty selection: within the budget, or the first candidate
    alone. *)
Lemma selectTweets_first candidates mediaBudget :
  0 <= mediaBudget ->
  mediaCount (selectTweets candidates [] mediaBudget) <= mediaBudget
  \/ exists first rest,
       candidates = first :: rest
       /\ selectTweets candidates [] mediaBudget = [first]
       /\ Z.of_nat (length (MediaTweet.media first)) > mediaBudget.
Proof.
  intros Hb. destruct candidates as [|first rest]; cbn [selectTweets].
  - left. cbn. lia.
  - destruct (mediaBudget <=? 0) eqn:Hz; [left; cbn; lia|].
    rewrite andb_false_r. cbn [app].
    destruct (Z.leb_spec (Z.of_nat (length (MediaTweet.media first))) mediaBudget)
      as [Hfit|Hbig].
    + left. etransitivity; [apply selectTweets_within; [discriminate | lia]|].
      cbn [mediaCount]. lia.
    + right. exists first, rest. split; [reflexivity|]. split; [|lia].
      destruct rest as [|next rest']; cbn [selectTweets]; [reflexivity|].
      replace (mediaBudget - Z.of_nat (length (MediaTweet.media first)) <=? 0)
        with true by lia.
      reflexivity.
Qed.

Section Budget.
Context `{Platform}.
Variable config : AppConfig.t.

Lemma returns_any {A} (m : M A) : returns m (fun _ => True).
Proof. intros w _. split; auto. Qed.

Lemma returns_processMedia tweet username media locals :
  returns (processMedia config tweet username media locals)
    (fun r =>
       ProcessTweetResult.uploaded (fst (snd r))
       = ProcessTweetResult.uploaded (fst locals)
       /\ (length (snd (snd r)) <= S (length (snd locals)))%nat).
Proof.
  destruct locals as [result files]. unfold returns, processMedia.
  eapply yields_bind; [apply returns_any|]. intros [|] _.
  { apply yields_ret. cbn. split; [reflexivity | lia]. }
  eapply yields_bind; [apply returns_any|]. intros [error|downloaded] _.
  { apply yields_ret. cbn. split; [reflexivity | lia]. }
  destruct (negb _ && _).
  - eapply yields_bind; [apply returns_any|]. intros uploadedAt _.
    eapply yields_bind; [apply returns_any|]. intros _ _.
    eapply yields_bind; [apply returns_any|].
    intros [e|[]] _; apply yields_ret; cbn; split; (reflexivity || lia).
  - apply yields_ret. cbn. rewrite length_app. cbn. split; [reflexivity | lia].
Qed.

Lemma returns_mediaLoop tweet username medias locals :
  returns (mediaLoop config tweet username medias locals)
    (fun r =>
       ProcessTweetResult.uploaded (fst (snd r))
       = ProcessTweetResult.uploaded (fst locals)
       /\ (length (snd (snd r)) <= length (snd locals) + length medias)%nat).
Proof.
  revert locals. induction medias as [|media rest IH]; intros locals;
    cbn [mediaLoop]; unfold returns in *.
  - apply yields_ret. cbn. split; [reflexivity | lia].
  - eapply yields_bind; [apply returns_processMedia|].
    intros [[error|] locals'] [Hup Hlen]; cbn [fst snd] in Hup, Hlen.
    + apply yields_ret. cbn [fst snd length]. split; [exact Hup | lia].
    + eapply yields_weaken; [apply IH|].
      intros r [Hup' Hlen']. cbn [length]. split; [congruence | lia].
Qed.

Lemma returns_markUploadedLoop tweet username messageIds files result :
  returns (markUploadedLoop tweet username messageIds files result)
    (fun r => ProcessTweetResult.uploaded r
              = (ProcessTweetResult.uploaded result + length files)%nat).
Proof.
  intros w _. split; [exact Logic.I|]. intros a Ha.
  rewrite markUploadedLoop_returns in Ha. injection Ha as <-. reflexivity.
Qed.

Lemma returns_processTweet_try tweet username :
  returns (processTweet_try config tweet username)
    (fun r => (ProcessTweetResult.uploaded (fst (snd r))
               <= length (MediaTweet.media tweet))%nat).
Proof.
  unfold returns, processTweet_try.
  eapply yields_bind; [apply returns_mediaLoop|].
  intros [thrown [result files]] [Hup Hlen]; cbn in Hup, Hlen.
  destruct thrown as [error|]; [apply yields_ret; cbn; lia|].
  destruct (length files =? 0)%nat; [apply yields_ret; cbn; lia|].
  eapply yields_bind; [apply returns_any|].
  intros [error|sendResult] _; [apply yields_ret; cbn; lia|].
  eapply yields_bind; [apply yields_attempt, returns_markUploadedLoop|].
  intros [error|result'] Hmark; cbn in Hmark; apply yields_ret; cbn; lia.
Qed.

Lemma returns_processTweet tweet username :
  returns (processTweet config tweet username)
    (fun r => (ProcessTweetResult.uploaded r
               <= length (MediaTweet.media tweet))%nat).
Proof.
  unfold returns, processTweet.
  eapply yields_bind; [apply returns_processTweet_try|].
  intros [thrown [result files]] Hup; cbn [fst snd] in Hup.
  eapply yields_bind; [apply returns_any|]. intros _ _.
  apply yields_ret. now destruct thrown.
Qed.

Lemma returns_processSelected username selected totals :
  returns (processSelected config username selected totals)
    (fun r => Z.of_nat (ProcessTweetResult.uploaded r)
              <= Z.of_nat (ProcessTweetResult.uploaded totals)
                 + mediaCount selected).
Proof.
  revert totals. induction selected as [|tweet rest IH]; intros totals;
    cbn [processSelected mediaCount]; unfold returns in *.
  - apply yields_ret. lia.
  - eapply yields_bind; [apply returns_processTweet|]. intros processed Hup.
    cbv beta in Hup.
    eapply yields_weaken; [apply IH|]. intros r Hr. cbn in Hr. lia.
Qed.

Hypothesis budget_nonneg : 0 <= AppConfig.maxMediaPerRun config.

Lemma accountBound_nothing_uploaded s :
  AccountRunSummary.uploaded s = 0%nat -> accountBound config s.
Proof. intros H0. left. rewrite H0. exact budget_nonneg. Qed.

Lemma returns_syncAccount_try username state summary :
  AccountRunSummary.uploaded summary = 0%nat ->
  returns (syncAccount_try config username state summary)
    (fun r => accountBound config (snd r)).
Proof.
  intros H0. unfold returns, syncAccount_try.
  eapply yields_bind; [apply returns_any|].
  intros [error|[incrementalTweets newestSeenId]] _.
  { apply yields_ret. now apply accountBound_nothing_uploaded. }
  eapply yields_bind; [apply returns_any|].
  intros [error|backfill] _.
  { apply yields_ret. now apply accountBound_nothing_uploaded. }
  cbv zeta.
  eapply yields_bind; [apply yields_attempt, returns_processSelected|].
  intros [error|totals] Hup; cbn in Hup.
  { apply yields_ret. now apply accountBound_nothing_uploaded. }
  eapply yields_bind; [apply returns_any|].
  intros written _.
  match goal with
  | |- yields _ (match written with inl _ => ret (_, ?s) | inr _ => _ end) _ =>
      assert (Hb : accountBound config s)
  end.
  { unfold accountBound. cbn.
    unfold selectForAccount in *.
    destruct (selectTweets_first
                (List.filter (hasId (List.map MediaTweet.id incrementalTweets))
                   (mergeUniqueTweets (incrementalTweets ++ Backfill.tweets backfill))
                 ++ List.filter
                      (fun tweet =>
                         negb (hasId (List.map MediaTweet.id incrementalTweets) tweet))
                      (mergeUniqueTweets
                         (incrementalTweets ++ Backfill.tweets backfill)))
                (AppConfig.maxMediaPerRun config) budget_nonneg)
      as [Hfit | (first & rest & _ & Hone & _)].
    - left. lia.
    - right. rewrite Hone. cbn. destruct (hasId _ first); reflexivity. }
  destruct written as [error|[]]; apply yields_ret; exact Hb.
Qed.

Lemma returns_syncAccount_catch username state summary error :
  accountBound config summary ->
  returns (syncAccount_catch config username state summary error)
    (accountBound config).
Proof.
  intros Hb. unfold returns, syncAccount_catch.
  destruct (Errors.isTwitterRateLimitError error).
  - eapply yields_bind; [apply returns_any|]. intros cooldownUntil _.
    eapply yields_bind; [apply returns_any|]. intros _ _.
    apply yields_ret. exact Hb.
  - eapply yields_bind; [apply returns_any|]. intros _ _.
    apply yields_ret. exact Hb.
Qed.

Lemma returns_syncAccount username :
  returns (syncAccount config username) (accountBound config).
Proof.
  unfold returns, syncAccount.
  eapply yields_bind; [apply returns_any|]. intros state _.
  eapply yields_bind; [apply returns_any|]. intros now _.
  destruct (Number_isFinite _ && num_gtb _ _).
  { apply yields_ret. now apply accountBound_nothing_uploaded. }
  eapply yields_bind; [now apply returns_syncAccount_try|].
  intros [[error|] summary] Hb; cbn [snd] in Hb.
  - now apply returns_syncAccount_catch.
  - now apply yields_ret.
Qed.

Lemma returns_accountLoop usernames accountSummaries :
  Forall (accountBound config) accountSummaries ->
  returns (accountLoop config usernames accountSummaries)
    (Forall (accountBound config)).
Proof.
  revert accountSummaries.
  induction usernames as [|username rest IH]; intros accountSummaries Hall;
    cbn [accountLoop]; unfold returns in *.
  - now apply yields_ret.
  - eapply yields_bind; [apply returns_syncAccount|]. intros pushed Hb.
    apply IH. apply Forall_app. split; [exact Hall|]. now constructor.
Qed.

Lemma returns_run :
  returns (run config)
    (fun summary => Forall (accountBound config) (RunSummary.accounts summary)).
Proof.
  unfold returns, run.
  eapply yields_bind; [apply returns_any|]. intros startMs _.
  eapply yields_bind; [apply returns_any|]. intros startedAt _.
  eapply yields_bind; [apply returns_any|]. intros _ _.
  eapply yields_bind; [apply returns_any|]. intros [|] _; cbn [negb].
  - unfold finally.
    eapply yields_bind.
    + apply yields_attempt.
      eapply yields_bind.
      * apply yields_attempt.
        eapply yields_bind; [apply returns_accountLoop; constructor|].
        intros accountSummaries Hall.
        eapply yields_bind; [apply returns_any|]. intros finishedAt _.
        eapply yields_bind; [apply returns_any|]. intros _ _.
        apply (yields_ret _ _
                 (fun summary =>
                    Forall (accountBound config) (RunSummary.accounts summary))).
        exact Hall.
      * intros [error|result] Hres; cbn in Hres.
        -- eapply yields_bind; [apply returns_any|]. intros _ _.
           apply yields_throw.
        -- apply yields_ret. exact Hres.
    + intros outcome Hout.
      eapply yields_bind; [apply returns_any|]. intros _ _.
      apply yields_liftOutcome. exact Hout.
  - eapply yields_bind; [apply returns_any|]. intros finishedAt _.
    apply yields_ret. constructor.
Qed.

End Budget.

(** C2 (as amended).  The media budget is per account: in every run, for
    each account, the number of media uploaded is at most
    [maxMediaPerRun], unless exactly one post was selected for the
    account (the first candidate, alone, larger than the budget).  The
    selection goes through the incremental candidates and then the
    backfill candidates, starting from the full budget for each account;
    it stops when the budget left is zero or less, passes over a post
    with more media than the budget left once something is selected, and
    otherwise takes the post and subtracts its media. *)
Theorem C2_media_budget_per_account `{Platform} (config : AppConfig.t)
    (w w' : World) (summary : RunSummary.t) :
  0 <= AppConfig.maxMediaPerRun config ->
  run config w = (inr summary, w') ->
  Forall (accountBound config) (RunSummary.accounts summary)
  /\ (forall incremental backfill,
        let merged := mergeUniqueTweets (incremental ++ backfill) in
        let ids := List.map MediaTweet.id incremental in
        selectForAccount config incremental backfill
        = selectTweets
            (List.filter (hasId ids) merged
             ++ List.filter (fun tweet => negb (hasId ids tweet)) merged)
            [] (AppConfig.maxMediaPerRun config))
  /\ (forall candidates,
        let selected := selectTweets candidates [] (AppConfig.maxMediaPerRun config) in
        mediaCount selected <= AppConfig.maxMediaPerRun config
        \/ exists first rest,
             candidates = first :: rest /\ selected = [first]
             /\ Z.of_nat (length (MediaTweet.media first))
                > AppConfig.maxMediaPerRun config)
  /\ (forall tweet rest selected mediaBudget,
        mediaBudget <= 0 ->
        selectTweets (tweet :: rest) selected mediaBudget = selected)
  /\ (forall tweet rest selected mediaBudget,
        0 < mediaBudget ->
        Z.of_nat (length (MediaTweet.media tweet)) > mediaBudget ->
        selected <> [] ->
        selectTweets (tweet :: rest) selected mediaBudget
        = selectTweets rest selected mediaBudget)
  /\ (forall tweet rest selected mediaBudget,
        0 < mediaBudget ->
        Z.of_nat (length (MediaTweet.media tweet)) <= mediaBudget
        \/ selected = [] ->
        selectTweets (tweet :: rest) selected mediaBudget
        = selectTweets rest (selected ++ [tweet])
            (mediaBudget - Z.of_nat (length (MediaTweet.media tweet)))).
Proof.
  intros Hmax Hrun. split; [|split; [|split; [|split; [|split]]]].
  - pose proof (returns_run config Hmax w Logic.I) as [_ Hres].
    rewrite Hrun in Hres. exact (Hres summary eq_refl).
  - reflexivity.
  - intros candidates. now apply selectTweets_first.
  - intros tweet rest selected mediaBudget Hz. cbn [selectTweets].
    now replace (mediaBudget <=? 0) with true by lia.
  - intros tweet rest selected mediaBudget Hpos Hbig Hne. cbn [selectTweets].
    replace (mediaBudget <=? 0) with false by lia.
    replace (Z.of_nat (length (MediaTweet.media tweet)) >? mediaBudget)
      with true by lia.
    now destruct selected.
  - intros tweet rest selected mediaBudget Hpos Hfit. cbn [selectTweets].
    replace (mediaBudget <=? 0) with false by lia.
    destruct Hfit as [Hfit | ->].
    + now replace (Z.of_nat (length (MediaTweet.media tweet)) >? mediaBudget)
        with false by lia.
    + now rewrite andb_false_r.
Qed.

Lemma C2_witness :
  let P := Demo.platform Demo.twoAccounts Demo.sizes in
  let config := Demo.config ["alice"; "bob"] 1 (Some 7200) in
  match fst (run (H := P) config Demo.emptyWorld) with
  | inr summary => Forall (accountBound config) (RunSummary.accounts summary)
  | inl _ => True
  end.
Proof.
  intros P config.
  destruct (run (H := P) config Demo.emptyWorld) as [[e|summary] w'] eqn:Hrun;
    [exact Logic.I|].
  refine (proj1 (@C2_media_budget_per_account P config Demo.emptyWorld w' summary
                   _ Hrun)).
  vm_compute. discriminate.
Defined.

(** The specification bounds the uploads of a run by the budget.  With a
    budget of one media and two accounts that each have one post with one
    photo, the run uploads two media, and no selected post is larger than
    the budget. *)
Lemma C2_counterexample :
  let P := Demo.platform Demo.twoAccounts Demo.sizes in
  let config := Demo.config ["alice"; "bob"] 1 (Some 7200) in
  exists summary w',
    run (H := P) config Demo.emptyWorld = (inr summary, w')
    /\ AppConfig.maxMediaPerRun config = 1
    /\ Demo.uploadedTotal summary = 2%nat
    /\ List.map AccountRunSummary.uploaded (RunSummary.accounts summary)
       = [1%nat; 1%nat]
    /\ length (MediaTweet.media (Demo.photoTweet "1" "alice")) = 1%nat
    /\ length (MediaTweet.media (Demo.photoTweet "2" "bob")) = 1%nat.
Proof.
  intros P config. eexists. eexists.
  split; [vm_compute; reflexivity|]. repeat split.
Qed.

(** ** An account without media posts *)




(* ===================================================================== *)
(** * Further properties of the state repository *)
(* ===================================================================== *)

Lemma world_eta w :
  mkWorld (account_state w) (media_registry w) (job_lock w) (connected w)
          (tick w) (trace w) = w.
Proof. now destruct w. Qed.

Lemma releaseJobLock_effect jobName holderId w :
  SqliteStateRepo.releaseJobLock jobName holderId w
  = (inr tt,
     match job_lock w !! jobName with
     | Some row =>
         if String.eqb (LockRow.holder_id row) holderId
         then set_job_lock (delete jobName) w else w
     | None => w
     end).
Proof.
  unfold SqliteStateRepo.releaseJobLock, modify, set_job_lock.
  destruct (job_lock w !! jobName) as [row|]; [|now rewrite world_eta].
  destruct (String.eqb _ _); [reflexivity | now rewrite world_eta].
Qed.

(** X1.  [releaseJobLock] deletes the row of the job only when the caller
    is its holder: a release by another holder, or of a job without a
    row, changes nothing at all; the rows of other jobs are never
    touched.  After a successful [acquireJobLock], a release by the same
    holder leaves the job without a row, and a release by anyone else
    leaves the lock as acquired. *)
Theorem X1_releaseJobLock_only_by_holder `{Platform} (jobName holderId : string)
    (ttlSeconds : Z) (w : World) :
  fst (SqliteStateRepo.acquireJobLock jobName holderId ttlSeconds w) = inr true ->
  let acquired := snd (SqliteStateRepo.acquireJobLock jobName holderId ttlSeconds w) in
  (forall w0 other,
     (forall row, job_lock w0 !! jobName = Some row ->
                  LockRow.holder_id row <> other) ->
     SqliteStateRepo.releaseJobLock jobName other w0 = (inr tt, w0))
  /\ (forall w0 anyHolder otherJob,
        otherJob <> jobName ->
        job_lock (snd (SqliteStateRepo.releaseJobLock jobName anyHolder w0))
          !! otherJob = job_lock w0 !! otherJob)
  /\ job_lock (snd (SqliteStateRepo.releaseJobLock jobName holderId acquired))
       !! jobName = None
  /\ (forall other,
        other <> holderId ->
        SqliteStateRepo.releaseJobLock jobName other acquired = (inr tt, acquired)).
Proof.
  intros Hacquired acquired. subst acquired.
  destruct (acquireJobLock_cases jobName holderId ttlSeconds w)
    as [[e Hout] | [Hout | [until Hout]]];
    rewrite Hout in Hacquired |- *; cbn [fst snd] in Hacquired |- *;
    try discriminate.
  clear Hout Hacquired.
  assert (Hno : forall w0 other,
            (forall row, job_lock w0 !! jobName = Some row ->
                         LockRow.holder_id row <> other) ->
            SqliteStateRepo.releaseJobLock jobName other w0 = (inr tt, w0)).
  { intros w0 other Hother. rewrite releaseJobLock_effect.
    destruct (job_lock w0 !! jobName) as [row|] eqn:Hrow; [|reflexivity].
    destruct (String.eqb_spec (LockRow.holder_id row) other) as [Heq|Hne];
      [|reflexivity].
    now destruct (Hother row eq_refl). }
  split; [exact Hno|]. split; [|split].
  - intros w0 anyHolder otherJob Hne. rewrite releaseJobLock_effect. cbn [snd].
    destruct (job_lock w0 !! jobName) as [row|]; [|reflexivity].
    destruct (String.eqb _ _); [|reflexivity].
    cbn [job_lock set_job_lock]. now apply lookup_delete_ne.
  - rewrite releaseJobLock_effect. cbn [snd job_lock set_job_lock advance].
    rewrite lookup_insert_eq. cbn [LockRow.holder_id].
    rewrite String.eqb_refl. cbn [job_lock set_job_lock].
    apply lookup_delete_eq.
  - intros other Hne. apply Hno. intros row.
    cbn [job_lock set_job_lock advance]. rewrite lookup_insert_eq.
    intros Heq. injection Heq as <-. cbn. congruence.
Qed.

Lemma X1_witness :
  job_lock
    (snd (SqliteStateRepo.releaseJobLock "daily-sync" "sync-1-1000"
            (snd (@SqliteStateRepo.acquireJobLock
                    (Demo.platform Demo.noPosts Demo.sizes)
                    "daily-sync" "sync-1-1000" 3300 Demo.emptyWorld))))
    !! "daily-sync" = None.
Proof.
  refine (proj1 (proj2 (proj2
            (@X1_releaseJobLock_only_by_holder
               (Demo.platform Demo.noPosts Demo.sizes)
               "daily-sync" "sync-1-1000" 3300 Demo.emptyWorld _)))).
  reflexivity.
Defined.

(** X2.  The account relation reads back what was written:
    [getAccountState] after [upsertAccountState] returns the cursor that
    was written ([backfillDone] goes through the integer column and
    comes back as it was, [updatedAt] is the given one or the time of
    the write), the read changes nothing, and the rows of the other
    accounts are as before.  For an account without a row the read
    returns the empty cursor and creates no row. *)
Theorem X2_account_state_reads_back_what_was_written `{Platform} (state : AccountState.t)
    (w : World) :
  let written := snd (SqliteStateRepo.upsertAccountState state w) in
  (exists updatedAt,
     SqliteStateRepo.getAccountState (AccountState.username state) written
     = (inr (AccountState.mk (AccountState.username state)
               (AccountState.latestSeenTweetId state)
               (AccountState.backfillCursor state)
               (AccountState.backfillDone state)
               (AccountState.rateLimitedUntil state)
               (Some updatedAt)), written)
     /\ updatedAt
        = match AccountState.updatedAt state with
          | Some given => given
          | None => ParsesTo (Date_now (tick w))
          end)
  /\ (forall other,
        other <> AccountState.username state ->
        account_state written !! other = account_state w !! other)
  /\ (forall username w0,
        account_state w0 !! username = None ->
        SqliteStateRepo.getAccountState username w0
        = (inr (AccountState.mk username None None false None
                  (Some (ParsesTo (Date_now (tick w0))))), advance w0)).
Proof.
  intros written. subst written. split; [|split].
  - unfold SqliteStateRepo.upsertAccountState, SqliteStateRepo.getAccountState,
      bind, nowIso, Date_now_, bind, ret, modify, get.
    destruct (AccountState.updatedAt state) as [given|];
      cbn [snd fst account_state set_account_state advance];
      rewrite lookup_insert_eq; cbn;
      (eexists; split; [|reflexivity]);
      now destruct (AccountState.backfillDone state).
  - intros other Hne.
    destruct (upsertAccountState_row state w) as [updatedAt ->].
    now apply lookup_insert_ne.
  - intros username w0 Hnone.
    unfold SqliteStateRepo.getAccountState, bind, get, nowIso, Date_now_, bind, ret.
    now rewrite Hnone.
Qed.

Lemma filter_other_keys_absent (mediaKey : string) rows :
  ~ In mediaKey (List.map StoredMediaRecord.mediaKey rows) ->
  List.filter
    (fun r => negb (String.eqb (StoredMediaRecord.mediaKey r) mediaKey)) rows
  = rows.
Proof.
  induction rows as [|r rows IH]; cbn [List.filter List.map In]; [reflexivity|].
  intros Hnot.
  destruct (String.eqb_spec (StoredMediaRecord.mediaKey r) mediaKey) as [Heq|Hne].
  - destruct Hnot. now left.
  - cbn [negb]. f_equal. apply IH. intros Hin. apply Hnot. now right.
Qed.

Lemma filter_other_keys_present (mediaKey : string) rows :
  NoDup (List.map StoredMediaRecord.mediaKey rows) ->
  In mediaKey (List.map StoredMediaRecord.mediaKey rows) ->
  S (length (List.filter
       (fun r => negb (String.eqb (StoredMediaRecord.mediaKey r) mediaKey))
       rows))
  = length rows.
Proof.
  induction rows as [|r rows IH]; cbn [List.filter List.map In length];
    [intros _ []|].
  intros Hnd Hin. apply NoDup_cons in Hnd. destruct Hnd as [Hnotin Hnd].
  rewrite list_elem_of_In in Hnotin.
  destruct (String.eqb_spec (StoredMediaRecord.mediaKey r) mediaKey) as [Heq|Hne].
  - cbn [negb]. rewrite filter_other_keys_absent; [reflexivity|]. now rewrite <- Heq.
  - cbn [negb length]. f_equal. apply IH; [exact Hnd|].
    destruct Hin as [Heq|Hin]; [contradiction | exact Hin].
Qed.

(** X3.  The media registry answers for what was recorded:
    after [markMediaUploaded record], [isMediaUploaded] finds the key of
    the record, its answer for every other key is what it was, the
    record is the only row with its key, and the registry has grown by
    one row when the key was new and kept its size when the row replaced
    an older one. *)
Theorem X3_markMediaUploaded_then_isMediaUploaded (record_ : StoredMediaRecord.t)
    (w : World) :
  uniqueKeys w ->
  let mediaKey := StoredMediaRecord.mediaKey record_ in
  let marked := snd (SqliteStateRepo.markMediaUploaded record_ w) in
  SqliteStateRepo.isMediaUploaded mediaKey marked = (inr true, marked)
  /\ (forall other,
        other <> mediaKey ->
        fst (SqliteStateRepo.isMediaUploaded other marked)
        = fst (SqliteStateRepo.isMediaUploaded other w))
  /\ (forall r, In r (media_registry marked) ->
                StoredMediaRecord.mediaKey r = mediaKey -> r = record_)
  /\ length (media_registry marked)
     = (if fst (SqliteStateRepo.isMediaUploaded mediaKey w)
           is inr true
        then length (media_registry w)
        else S (length (media_registry w))).
Proof.
  intros Hunique mediaKey marked. subst mediaKey marked.
  unfold SqliteStateRepo.markMediaUploaded, SqliteStateRepo.isMediaUploaded,
    modify, get.
  cbn [fst snd media_registry set_media_registry].
  split; [|split; [|split]].
  - f_equal. f_equal. apply existsb_exists. exists record_. split.
    + apply insertOrReplace_In. now left.
    + apply String.eqb_refl.
  - intros other Hne. f_equal. apply eq_true_iff_eq.
    rewrite !existsb_exists. split; intros (r & Hin & Hk).
    + apply insertOrReplace_In in Hin. destruct Hin as [-> | [Hin _]].
      * apply String.eqb_eq in Hk. congruence.
      * now exists r.
    + exists r. split; [|exact Hk]. apply insertOrReplace_In. right.
      split; [exact Hin|]. apply String.eqb_eq in Hk. congruence.
  - intros r Hin Hk. apply insertOrReplace_In in Hin.
    destruct Hin as [-> | [_ Hne]]; [reflexivity | contradiction].
  - unfold SqliteStateRepo.insertOrReplace. rewrite length_app. cbn [length].
    rewrite Nat.add_1_r.
    destruct (existsb _ (media_registry w)) eqn:Hfound.
    + apply filter_other_keys_present; [exact Hunique|].
      apply existsb_exists in Hfound. destruct Hfound as (r & Hin & Hk).
      apply String.eqb_eq in Hk. rewrite <- Hk. now apply in_map.
    + rewrite filter_other_keys_absent; [reflexivity|].
      intros Hin. apply in_map_iff in Hin. destruct Hin as (r & Hk & Hin).
      assert (Htrue : existsb
                (fun r0 => String.eqb (StoredMediaRecord.mediaKey r0)
                                      (StoredMediaRecord.mediaKey record_))
                (media_registry w) = true).
      { apply existsb_exists. exists r. split; [exact Hin|].
        now apply String.eqb_eq. }
      congruence.
Qed.

Lemma X3_witness :
  let record_ := StoredMediaRecord.mk "k1" "10" "alice" "u1" photo
                   (ParsesTo 0) ["7"] uploaded in
  let marked := snd (SqliteStateRepo.markMediaUploaded record_
                       (snd (SqliteStateRepo.markMediaUploaded record_
                               Demo.emptyWorld))) in
  SqliteStateRepo.isMediaUploaded "k1" marked = (inr true, marked)
  /\ length (media_registry marked) = 1%nat.
Proof.
  intros record_ marked.
  assert (Hunique : uniqueKeys
            (snd (SqliteStateRepo.markMediaUploaded record_ Demo.emptyWorld))).
  { apply insertOrReplace_unique. now apply uniqueKeys_empty. }
  destruct (X3_markMediaUploaded_then_isMediaUploaded record_ _ Hunique)
    as (Hfound & _ & _ & Hlen).
  split; [exact Hfound | exact Hlen].
Defined.

(* ===================================================================== *)
(** * Further properties of [withRetry] and [chunkArray] *)
(* ===================================================================== *)


(** The loop, entered at the attempt number [k] in the world of that
    attempt, ends with the outcome of the attempt number [i]: the first
    one that succeeds, or the last one allowed. *)
Lemma withRetry_loop_outcome {A} (fn : M A) options (n : nat) w :
  RetryOptions.retries options = Z.of_nat n ->
  forall d k i lastError,
    (i = k + d)%nat -> (i <= n)%nat ->
    (forall j, (k <= j < i)%nat ->
               exists e, fst (fn (retryWorld fn options j w)) = inl e) ->
    (exists v, fst (fn (retryWorld fn options i w)) = inr v) \/ i = n ->
    withRetry_loop fn options (S (n - k)) (Z.of_nat k) lastError
      (retryWorld fn options k w)
    = fn (retryWorld fn options i w).
Proof.
  intros Hretries.
  induction d as [|d IH]; intros k i lastError Hi Hle Hfail Hlast.
  - replace k with i by lia. cbn [withRetry_loop]. unfold bind at 1, attempt.
    destruct (fn (retryWorld fn options i w)) as [[e|v] w0] eqn:Hfn; [|reflexivity].
    destruct Hlast as [[v Hv] | ->]; [discriminate|].
    replace (Z.of_nat n =? RetryOptions.retries options) with true
      by (symmetry; apply Z.eqb_eq; lia).
    reflexivity.
  - destruct (Hfail k) as [e He]; [lia|].
    cbn [withRetry_loop]. unfold bind at 1, attempt.
    destruct (fn (retryWorld fn options k w)) as [[error|v] w0] eqn:Hfn;
      cbn [fst] in He; [|discriminate].
    replace (Z.of_nat k =? RetryOptions.retries options) with false
      by (symmetry; apply Z.eqb_neq; lia).
    unfold bind at 1. unfold sleep at 1, call. cbn [fst snd].
    replace (Z.of_nat k + 1) with (Z.of_nat (S k)) by lia.
    replace (n - k)%nat with (S (n - S k)) by lia.
    replace (record _ w0) with (retryWorld fn options (S k) w)
      by (cbn [retryWorld]; now rewrite Hfn).
    apply (IH (S k) i); [lia | lia | | exact Hlast].
    intros j Hj. apply Hfail. lia.
Qed.

(** The sleeps made up to the attempt number [i], when the operation
    itself does not sleep. *)
Lemma retryWorld_sleeps {A} (fn : M A) options w :
  (forall w0, sleepsIn (trace (snd (fn w0))) = sleepsIn (trace w0)) ->
  forall i,
    sleepsIn (trace (retryWorld fn options i w))
    = (rev (List.map
              (fun j => RetryOptions.baseDelayMs options
                        * RetryOptions.factor options ^ Z.of_nat j)
              (seq 0 i))
       ++ sleepsIn (trace w))%list.
Proof.
  intros Hquiet. induction i as [|i IH]; [reflexivity|].
  cbn [retryWorld record trace sleepsIn]. rewrite Hquiet, IH.
  rewrite seq_S, map_app, rev_app_distr. reflexivity.
Qed.

(** Anything that counts the calls of the operation and that a sleep
    leaves alone has counted [i] calls before the attempt number [i]. *)
Lemma retryWorld_counts {A} (fn : M A) options w (counter : World -> nat) :
  (forall w0, counter (snd (fn w0)) = S (counter w0)) ->
  (forall ms w0, counter (record (EvSleep ms) w0) = counter w0) ->
  forall i, counter (retryWorld fn options i w) = (counter w + i)%nat.
Proof.
  intros Hcall Hsleep. induction i as [|i IH]; [cbn; lia|].
  cbn [retryWorld]. rewrite Hsleep, Hcall, IH. lia.
Qed.

(** X4.  [withRetry] around an operation: a first attempt that succeeds
    is returned as it is, without any sleep; with a negative [retries]
    the operation is never called and the value thrown is [undefined].
    Otherwise the call ends with the outcome of one attempt, value or
    error, and in the world that attempt left: the first attempt that
    succeeds, or the attempt number [retries] when none before it did,
    so that what is thrown is the error of the last attempt.  Each
    attempt before it was followed by one sleep, of
    [baseDelayMs * factor ^ j] after the attempt number [j], and the
    operation was called once per attempt: [retries + 1] times when
    every attempt fails. *)
Theorem X4_withRetry_attempts_and_backoff {A} (fn : M A)
    (options : RetryOptions.t) :
  let retries := RetryOptions.retries options in
  let delay j := RetryOptions.baseDelayMs options
                 * RetryOptions.factor options ^ Z.of_nat j in
  let attemptAt i w := fn (retryWorld fn options i w) in
  (0 <= retries ->
   forall w v w', fn w = (inr v, w') -> withRetry fn options w = (inr v, w'))
  /\ (retries < 0 ->
      forall w, withRetry fn options w = (inl (ThrownValue "undefined"), w))
  /\ (0 <= retries ->
      forall w i,
        (i <= Z.to_nat retries)%nat ->
        (forall j, (j < i)%nat -> exists e, fst (attemptAt j w) = inl e) ->
        (exists v, fst (attemptAt i w) = inr v) \/ i = Z.to_nat retries ->
        withRetry fn options w = attemptAt i w
        /\ ((forall w0, sleepsIn (trace (snd (fn w0))) = sleepsIn (trace w0)) ->
            sleepsIn (trace (snd (withRetry fn options w)))
            = (rev (List.map delay (seq 0 i)) ++ sleepsIn (trace w))%list)
        /\ (forall counter : World -> nat,
              (forall w0, counter (snd (fn w0)) = S (counter w0)) ->
              (forall ms w0, counter (record (EvSleep ms) w0) = counter w0) ->
              counter (snd (withRetry fn options w)) = (counter w + i + 1)%nat)).
Proof.
  intros retries delay attemptAt. subst retries delay attemptAt. unfold withRetry.
  split; [|split].
  - intros Hpos w v w' Hfn.
    replace (Z.to_nat (RetryOptions.retries options + 1))
      with (S (Z.to_nat (RetryOptions.retries options))) by lia.
    cbn [withRetry_loop]. unfold bind at 1, attempt. now rewrite Hfn.
  - intros Hneg w.
    replace (Z.to_nat (RetryOptions.retries options + 1)) with 0%nat by lia.
    reflexivity.
  - intros Hpos w i Hle Hfail Hlast.
    assert (Hout : withRetry_loop fn options
                     (Z.to_nat (RetryOptions.retries options + 1)) 0
                     (ThrownValue "undefined") w
                   = fn (retryWorld fn options i w)).
    { replace (Z.to_nat (RetryOptions.retries options + 1))
        with (S (Z.to_nat (RetryOptions.retries options) - 0)) by lia.
      apply (withRetry_loop_outcome fn options
               (Z.to_nat (RetryOptions.retries options)) w ltac:(lia)
               i 0%nat i (ThrownValue "undefined"));
        [reflexivity | exact Hle | | exact Hlast].
      intros j Hj. apply Hfail. lia. }
    rewrite Hout. split; [reflexivity|]. split.
    + intros Hquiet. rewrite Hquiet. now apply retryWorld_sleeps.
    + intros counter Hcall Hsleep.
      rewrite Hcall, (retryWorld_counts fn options w counter Hcall Hsleep). lia.
Qed.

(** An operation that fails every time with an error that names the
    moment of the call, retried twice: the calls are made at the moments
    0, 2 and 4, the error thrown is the one of the third call, after
    sleeps of 500 and 1000 milliseconds. *)
Lemma X4_witness :
  let failing : M unit :=
    fun w => (inl (ErrorObj "Error" (pretty (tick w))), advance w) in
  let options := RetryOptions.mk 2 500 2 in
  fst (withRetry failing options Demo.emptyWorld) = inl (ErrorObj "Error" "4")
  /\ sleepsIn (trace (snd (withRetry failing options Demo.emptyWorld)))
     = [1000; 500].
Proof.
  intros failing options.
  destruct (proj2 (proj2 (X4_withRetry_attempts_and_backoff failing options))
              ltac:(cbn; lia) Demo.emptyWorld 2%nat)
    as (Hout & Hsleeps & _).
  - cbn. lia.
  - intros j _. eexists. reflexivity.
  - now right.
  - split; [now rewrite Hout | now apply Hsleeps].
Defined.

Lemma chunkArray_loop_sizes {T} rounds (items : list T) size index :
  (0 < size)%nat ->
  Forall (fun chunk => (0 < length chunk <= size)%nat)
         (chunkArray_loop rounds items size index).
Proof.
  intros Hsize. revert index.
  induction rounds as [|rounds IH]; intros index; cbn [chunkArray_loop];
    [constructor|].
  destruct (Nat.ltb_spec index (length items)) as [Hlt|Hge]; [|constructor].
  constructor; [|apply IH].
  rewrite length_firstn, length_skipn. lia.
Qed.

Lemma chunkArray_loop_length {T} rounds (items : list T) size index :
  (0 < size)%nat ->
  (length items <= index + rounds)%nat ->
  length (chunkArray_loop rounds items size index)
  = ((length items - index + size - 1) / size)%nat.
Proof.
  intros Hsize. revert index.
  induction rounds as [|rounds IH]; intros index Hlen; cbn [chunkArray_loop].
  - cbn [length]. symmetry. apply Nat.div_small. lia.
  - destruct (Nat.ltb_spec index (length items)) as [Hlt|Hge].
    + cbn [length]. rewrite IH by lia.
      destruct (Nat.le_gt_cases size (length items - index)) as [Hfull|Hpart].
      * replace (length items - index + size - 1)%nat
          with ((length items - (index + size) + size - 1) + 1 * size)%nat by lia.
        rewrite Nat.div_add by lia. lia.
      * replace (length items - (index + size) + size - 1)%nat
          with (size - 1)%nat by lia.
        rewrite (Nat.div_small (size - 1)) by lia.
        apply (Nat.div_unique _ _ 1%nat (length items - index - 1)%nat); lia.
    + cbn [length]. symmetry. apply Nat.div_small. lia.
Qed.

Lemma chunkArray_loop_full {T} rounds (items : list T) size index i chunk :
  (0 < size)%nat ->
  nth_error (chunkArray_loop rounds items size index) i = Some chunk ->
  (S i < length (chunkArray_loop rounds items size index))%nat ->
  length chunk = size.
Proof.
  intros Hsize. revert index i.
  induction rounds as [|rounds IH]; intros index i; cbn [chunkArray_loop].
  - now destruct i.
  - destruct (Nat.ltb_spec index (length items)) as [Hlt|Hge];
      [|now destruct i].
    destruct i as [|i]; cbn [nth_error length].
    + intros Heq Hmore. injection Heq as <-.
      rewrite length_firstn, length_skipn.
      destruct rounds as [|rounds']; cbn [chunkArray_loop length] in Hmore; [lia|].
      destruct (Nat.ltb_spec (index + size) (length items)) as [Hlt'|Hge'];
        [lia | cbn [length] in Hmore; lia].
    + intros Heq Hmore. apply (IH (index + size)%nat i); [exact Heq | lia].
Qed.

(** X5.  [chunkArray items size] with a positive [size] cuts [items]
    into consecutive pieces: the pieces put together are [items], no
    piece is empty or longer than [size], every piece but the last has
    exactly [size] items, and there are ceil(length / size) pieces. *)
Theorem X5_chunkArray_partitions {T} (items : list T) (size : nat) :
  (0 < size)%nat ->
  let chunks := chunkArray items size in
  concat chunks = items
  /\ Forall (fun chunk => (0 < length chunk <= size)%nat) chunks
  /\ (forall i chunk,
        nth_error chunks i = Some chunk ->
        (S i < length chunks)%nat -> length chunk = size)
  /\ length chunks = ((length items + size - 1) / size)%nat.
Proof.
  intros Hsize chunks. subst chunks. unfold chunkArray.
  split; [|split; [|split]].
  - now rewrite chunkArray_loop_concat by lia.
  - now apply chunkArray_loop_sizes.
  - intros i chunk. now apply chunkArray_loop_full.
  - rewrite chunkArray_loop_length by lia. now rewrite Nat.sub_0_r.
Qed.

Lemma X5_witness :
  concat (chunkArray [1; 2; 3; 4; 5; 6; 7] 3) = [1; 2; 3; 4; 5; 6; 7]
  /\ length (chunkArray [1; 2; 3; 4; 5; 6; 7] 3) = 3%nat.
Proof.
  destruct (X5_chunkArray_partitions [1; 2; 3; 4; 5; 6; 7] 3)
    as (Hconcat & _ & _ & Hlength); [lia|].
  split; [exact Hconcat | exact Hlength].
Defined.

(* ===================================================================== *)
(** * Further properties of the sink adapter *)
(* ===================================================================== *)

Lemma toCaption_invalid_date `{Platform} input index e :
  toISOString (Date_getTime (SendTweetMediaGroupInput.postedAt input)) = inl e ->
  toCaption input index = inl e.
Proof. unfold toCaption. now intros ->. Qed.

Lemma toCaption_valid_date `{Platform} input index iso :
  toISOString (Date_getTime (SendTweetMediaGroupInput.postedAt input)) = inr iso ->
  exists caption, toCaption input index = inr caption.
Proof. unfold toCaption. intros ->. now eexists. Qed.

Lemma sendChunks_albums `{Platform} input chunks :
  forall index messageIds w,
  exists sent rest,
    albumsIn (trace (snd (sendChunks input chunks index messageIds w)))
    = (albumsIn (trace w) ++ sent)%list
    /\ chunks = (sent ++ rest)%list
    /\ (forall ids, fst (sendChunks input chunks index messageIds w) = inr ids ->
                    rest = [])
    /\ (forall e,
          toISOString (Date_getTime (SendTweetMediaGroupInput.postedAt input))
          = inl e ->
          sent = []
          /\ (chunks <> [] ->
              fst (sendChunks input chunks index messageIds w) = inl e)).
Proof.
  induction chunks as [|chunk chunks IH]; intros index messageIds w.
  - exists [], []. cbn. rewrite app_nil_r. repeat split; auto.
    intros Hne. now destruct Hne.
  - cbn [sendChunks]. unfold liftOutcome.
    destruct (toISOString
                (Date_getTime (SendTweetMediaGroupInput.postedAt input)))
      as [e|iso] eqn:Hdate.
    + rewrite (toCaption_invalid_date input index e Hdate). cbn [fst snd].
      exists [], (chunk :: chunks). rewrite app_nil_r.
      split; [reflexivity|]. split; [reflexivity|]. split.
      * unfold bind. cbn. discriminate.
      * intros e' He'. injection He' as <-. split; [reflexivity|].
        intros _. reflexivity.
    + destruct (toCaption_valid_date input index iso Hdate) as [caption ->].
      unfold bind, call. cbn [fst snd].
      destruct (gram_sendFile (tick w) (List.map LocalMediaFile.path chunk) caption)
        as [e|messages].
      * cbn [fst snd record trace albumsIn].
        exists [chunk], chunks. repeat split; auto; discriminate.
      * destruct (IH (S index) (messageIds ++ numericIds messages)%list
                     (record (EvSendFile chunk caption) w))
          as (sent & rest & Halbums & Hchunks & Hall & _).
        exists (chunk :: sent), rest. split; [|split; [|split]].
        -- rewrite Halbums. cbn [record trace albumsIn].
           now rewrite <- app_assoc.
        -- now rewrite Hchunks.
        -- exact Hall.
        -- discriminate.
Qed.

(** X6.  What [sendTweetMediaGroup] hands to the sink: albums are sent
    in the order of [chunkArray(mediaFiles, 10)], each at most once, and
    what has been sent when the call ends is an initial part of that
    list.  When the call returns, all of it was sent, so every file was
    handed over exactly once and in order.  When [postedAt] is not a
    valid date, no album is sent at all. *)
Theorem X6_sendTweetMediaGroup_albums `{Platform}
    (input : SendTweetMediaGroupInput.t) (w : World) :
  let files := SendTweetMediaGroupInput.mediaFiles input in
  let out := sendTweetMediaGroup input w in
  exists sent rest,
    albumsIn (trace (snd out)) = (albumsIn (trace w) ++ sent)%list
    /\ chunkArray files 10 = (sent ++ rest)%list
    /\ (forall result, fst out = inr result -> concat sent = files)
    /\ (forall e,
          toISOString (Date_getTime (SendTweetMediaGroupInput.postedAt input))
          = inl e ->
          sent = []).
Proof.
  intros files out. subst files out.
  unfold sendTweetMediaGroup. unfold bind at 1 2 3 4.
  unfold ensureConnected. unfold bind at 1 2 3 4, get. cbn [fst snd].
  assert (Hgo : forall w1,
            albumsIn (trace w1) = albumsIn (trace w) ->
            let out :=
              (let* messageIds :=
                 sendChunks input
                   (chunkArray (SendTweetMediaGroupInput.mediaFiles input) 10)
                   0 [] in
               ret (SendTweetMediaGroupResult.mk messageIds)) w1 in
            exists sent rest,
              albumsIn (trace (snd out)) = (albumsIn (trace w) ++ sent)%list
              /\ chunkArray (SendTweetMediaGroupInput.mediaFiles input) 10
                 = (sent ++ rest)%list
              /\ (forall result, fst out = inr result ->
                    concat sent = SendTweetMediaGroupInput.mediaFiles input)
              /\ (forall e,
                    toISOString
                      (Date_getTime (SendTweetMediaGroupInput.postedAt input))
                    = inl e -> sent = [])).
  { intros w1 Hsame out. subst out.
    destruct (sendChunks_albums input
                (chunkArray (SendTweetMediaGroupInput.mediaFiles input) 10)
                0%nat [] w1)
      as (sent & rest & Halbums & Hchunks & Hall & Hdate).
    exists sent, rest. unfold bind.
    destruct (sendChunks input _ 0 [] w1) as [[e|ids] w2] eqn:Hsend;
      unfold ret; cbn [fst snd] in *; rewrite Halbums, Hsame;
      (split; [reflexivity|]); (split; [exact Hchunks|]); split.
    - discriminate.
    - intros e' He'. now apply (Hdate e').
    - intros result _. rewrite (Hall ids eq_refl), app_nil_r in Hchunks.
      rewrite <- Hchunks. apply chunkArray_concat.
    - intros e' He'. now apply (Hdate e'). }
  destruct (connected w) eqn:Hconnected.
  - cbn [fst snd ret]. now apply Hgo.
  - unfold call. cbn [fst snd].
    destruct (gram_connect (tick w)) as [e|[|]]; cbn [fst snd].
    + exists [], (chunkArray (SendTweetMediaGroupInput.mediaFiles input) 10).
      cbn [record trace albumsIn]. rewrite app_nil_r.
      repeat split; auto. discriminate.
    + unfold modify. cbn [fst snd]. apply Hgo. reflexivity.
    + exists [], (chunkArray (SendTweetMediaGroupInput.mediaFiles input) 10).
      cbn [throw fst snd record trace albumsIn]. rewrite app_nil_r.
      repeat split; auto. discriminate.
Qed.



(* ===================================================================== *)
(** * Further properties of [processTweet] *)
(* ===================================================================== *)

Section Accounting.
Context `{Platform}.
Variable config : AppConfig.t.

(** What one round of the media loop does to the locals: exactly one of
    [skipped] and the list of files to send grows by one, unless the
    round was left by a throw. *)
Lemma processMedia_counts tweet username media locals :
  returns (processMedia config tweet username media locals)
    (fun r =>
       ProcessTweetResult.uploaded (fst (snd r))
       = ProcessTweetResult.uploaded (fst locals)
       /\ ProcessTweetResult.failed (fst (snd r))
          = ProcessTweetResult.failed (fst locals)
       /\ (ProcessTweetResult.skipped (fst (snd r)) + length (snd (snd r))
           <= S (ProcessTweetResult.skipped (fst locals) + length (snd locals)))%nat
       /\ (fst r = None ->
           (ProcessTweetResult.skipped (fst (snd r)) + length (snd (snd r))
            = S (ProcessTweetResult.skipped (fst locals) + length (snd locals)))%nat)).
Proof.
  destruct locals as [result files]. unfold returns, processMedia.
  eapply yields_bind; [apply returns_any|]. intros [|] _.
  { apply yields_ret. cbn. repeat split; lia. }
  eapply yields_bind; [apply returns_any|]. intros [error|downloaded] _.
  { apply yields_ret. cbn. repeat split; (lia || discriminate). }
  destruct (negb _ && _).
  - eapply yields_bind; [apply returns_any|]. intros uploadedAt _.
    eapply yields_bind; [apply returns_any|]. intros _ _.
    eapply yields_bind; [apply returns_any|].
    intros [e|[]] _; apply yields_ret; cbn; repeat split;
      (lia || discriminate).
  - apply yields_ret. cbn. rewrite length_app. cbn. repeat split; lia.
Qed.

Lemma mediaLoop_counts tweet username medias locals :
  returns (mediaLoop config tweet username medias locals)
    (fun r =>
       ProcessTweetResult.uploaded (fst (snd r))
       = ProcessTweetResult.uploaded (fst locals)
       /\ ProcessTweetResult.failed (fst (snd r))
          = ProcessTweetResult.failed (fst locals)
       /\ (ProcessTweetResult.skipped (fst (snd r)) + length (snd (snd r))
           <= ProcessTweetResult.skipped (fst locals) + length (snd locals)
              + length medias)%nat
       /\ (fst r = None ->
           (ProcessTweetResult.skipped (fst (snd r)) + length (snd (snd r))
            = ProcessTweetResult.skipped (fst locals) + length (snd locals)
              + length medias)%nat)).
Proof.
  revert locals. induction medias as [|media rest IH]; intros locals;
    cbn [mediaLoop]; unfold returns in *.
  - apply yields_ret. cbn. repeat split; lia.
  - eapply yields_bind; [apply processMedia_counts|].
    intros [[error|] locals'] (Hup & Hfailed & Hle & Heq);
      cbn [fst snd] in Hup, Hfailed, Hle, Heq.
    + apply yields_ret. cbn [fst snd length].
      repeat split; (congruence || lia || discriminate).
    + specialize (Heq eq_refl).
      eapply yields_weaken; [apply IH|].
      intros r (Hup' & Hfailed' & Hle' & Heq'). cbn [length].
      split; [congruence|]. split; [congruence|]. split; [lia|].
      intros Hnone. specialize (Heq' Hnone). lia.
Qed.

Lemma markUploadedLoop_counts tweet username messageIds files result :
  returns (markUploadedLoop tweet username messageIds files result)
    (fun r => r = ProcessTweetResult.mk
                    (ProcessTweetResult.uploaded result + length files)
                    (ProcessTweetResult.skipped result)
                    (ProcessTweetResult.failed result)).
Proof.
  intros w _. split; [exact Logic.I|]. intros a Ha.
  rewrite markUploadedLoop_returns in Ha. now injection Ha as <-.
Qed.

Lemma processTweet_try_counts tweet username :
  returns (processTweet_try config tweet username)
    (fun r =>
       ProcessTweetResult.failed (fst (snd r)) = 0%nat
       /\ (ProcessTweetResult.uploaded (fst (snd r))
           + ProcessTweetResult.skipped (fst (snd r))
           <= length (MediaTweet.media tweet))%nat
       /\ (fst r = None ->
           (ProcessTweetResult.uploaded (fst (snd r))
            + ProcessTweetResult.skipped (fst (snd r))
            = length (MediaTweet.media tweet))%nat)).
Proof.
  unfold returns, processTweet_try.
  eapply yields_bind; [apply mediaLoop_counts|].
  intros [thrown [result files]] (Hup & Hfailed & Hle & Heq);
    cbn [fst snd ProcessTweetResult.uploaded ProcessTweetResult.failed
         ProcessTweetResult.skipped length] in Hup, Hfailed, Hle, Heq.
  destruct thrown as [error|].
  { apply yields_ret. cbn [fst snd].
    repeat split; (lia || discriminate). }
  specialize (Heq eq_refl).
  destruct (Nat.eqb_spec (length files) 0) as [Hnone|Hsome].
  { apply yields_ret. cbn [fst snd]. repeat split; lia. }
  eapply yields_bind; [apply returns_any|].
  intros [error|sendResult] _.
  { apply yields_ret. cbn [fst snd]. repeat split; (lia || discriminate). }
  eapply yields_bind; [apply yields_attempt, markUploadedLoop_counts|].
  intros [error|result'] Hmarked; cbn [onValue] in Hmarked.
  - apply yields_ret. cbn [fst snd]. repeat split; (lia || discriminate).
  - apply yields_ret. subst result'.
    cbn [fst snd ProcessTweetResult.uploaded ProcessTweetResult.failed
         ProcessTweetResult.skipped].
    repeat split; lia.
Qed.

Lemma processSelected_counts username selected totals :
  returns (processSelected config username selected totals)
    (fun r =>
       (ProcessTweetResult.failed r
        <= ProcessTweetResult.failed totals + length selected)%nat
       /\ Z.of_nat (ProcessTweetResult.uploaded r + ProcessTweetResult.skipped r)
          <= Z.of_nat (ProcessTweetResult.uploaded totals
                       + ProcessTweetResult.skipped totals)
             + mediaCount selected
       /\ (ProcessTweetResult.failed r = ProcessTweetResult.failed totals ->
           Z.of_nat (ProcessTweetResult.uploaded r + ProcessTweetResult.skipped r)
           = Z.of_nat (ProcessTweetResult.uploaded totals
                       + ProcessTweetResult.skipped totals)
             + mediaCount selected)
       /\ (ProcessTweetResult.failed totals <= ProcessTweetResult.failed r)%nat).
Proof.
  revert totals. induction selected as [|tweet rest IH]; intros totals;
    cbn [processSelected mediaCount length]; unfold returns in *.
  - apply yields_ret. lia.
  - unfold processTweet.
    eapply yields_bind.
    { eapply yields_bind; [apply processTweet_try_counts|].
      intros [thrown [result files]] Htry.
      eapply yields_bind; [apply returns_any|]. intros _ _.
      apply (yields_ret _ _
               (fun r =>
                  (ProcessTweetResult.failed r <= 1)%nat
                  /\ (ProcessTweetResult.uploaded r + ProcessTweetResult.skipped r
                      <= length (MediaTweet.media tweet))%nat
                  /\ (ProcessTweetResult.failed r = 0%nat ->
                      (ProcessTweetResult.uploaded r + ProcessTweetResult.skipped r
                       = length (MediaTweet.media tweet))%nat))).
      cbn [fst snd] in Htry. destruct Htry as (Hfailed & Hle & Heq).
      destruct thrown as [error|]; cbn; [|specialize (Heq eq_refl)];
        repeat split; lia. }
    intros processed (Hfailed & Hle & Heq).
    eapply yields_weaken; [apply IH|].
    intros r (Hf & Hsum & Hall & Hmono).
    cbn [ProcessTweetResult.uploaded ProcessTweetResult.failed
         ProcessTweetResult.skipped] in Hf, Hsum, Hall, Hmono.
    split; [lia|]. split; [lia|]. split; [|lia].
    intros Hsame.
    assert (Hzero : ProcessTweetResult.failed processed = 0%nat) by lia.
    specialize (Heq Hzero).
    assert (Hsame' : ProcessTweetResult.failed r
                     = (ProcessTweetResult.failed totals
                        + ProcessTweetResult.failed processed)%nat) by lia.
    specialize (Hall Hsame'). lia.
Qed.

End Accounting.

(** X8.  The counters of the posts processed for an account: a post
    adds at most one to [failed] and at most its number of media to
    [uploaded + skipped]; when nothing failed, every media of every
    selected post was counted exactly once, as uploaded or as skipped. *)
Theorem X8_processSelected_accounting `{Platform} (config : AppConfig.t)
    (username : string) (selected : list MediaTweet.t) (w w' : World)
    (totals : ProcessTweetResult.t) :
  processSelected config username selected (ProcessTweetResult.mk 0 0 0) w
  = (inr totals, w') ->
  (ProcessTweetResult.failed totals <= length selected)%nat
  /\ Z.of_nat (ProcessTweetResult.uploaded totals
               + ProcessTweetResult.skipped totals)
     <= mediaCount selected
  /\ (ProcessTweetResult.failed totals = 0%nat ->
      Z.of_nat (ProcessTweetResult.uploaded totals
                + ProcessTweetResult.skipped totals)
      = mediaCount selected).
Proof.
  intros Hrun.
  pose proof (processSelected_counts config username selected
                (ProcessTweetResult.mk 0 0 0) w Logic.I) as [_ Hres].
  rewrite Hrun in Hres. specialize (Hres totals eq_refl).
  cbn [ProcessTweetResult.uploaded ProcessTweetResult.failed
       ProcessTweetResult.skipped] in Hres.
  destruct Hres as (Hf & Hsum & Hall & _).
  split; [lia|]. split; [lia|]. intros Hzero. apply Hall. lia.
Qed.

Lemma X8_witness :
  let P := Demo.platform Demo.mixedTimeline Demo.sizes in
  let out := @processSelected P (Demo.config ["alice"] 50 (Some 7200)) "alice"
               [Demo.mixedTweet; Demo.albumTweet]
               (ProcessTweetResult.mk 0 0 0) Demo.emptyWorld in
  exists totals,
    fst out = inr totals
    /\ Z.of_nat (ProcessTweetResult.uploaded totals
                 + ProcessTweetResult.skipped totals) = 13.
Proof.
  intros P out.
  assert (Hrun : exists totals, out = (inr totals, snd out)).
  { vm_compute. eexists. reflexivity. }
  destruct Hrun as [totals Hrun]. exists totals.
  split; [now rewrite Hrun|].
  destruct (@X8_processSelected_accounting P _ _ _ _ _ _ Hrun)
    as (_ & _ & Hall).
  rewrite Hall; [reflexivity|].
  revert Hrun. vm_compute. intros Heq. now injection Heq as <-.
Defined.

Section Cleanup.
Context `{Platform}.
Variable config : AppConfig.t.

Lemma neverThrows_ret {A} (a : A) : neverThrows (ret a).
Proof. intros w. now exists a. Qed.

Lemma neverThrows_bind {A B} (m : M A) (k : A -> M B) :
  neverThrows m -> (forall a, neverThrows (k a)) -> neverThrows (bind m k).
Proof.
  intros Hm Hk w. unfold bind. destruct (Hm w) as [a Ha].
  destruct (m w) as [[e|a'] w1]; cbn [fst] in Ha; [discriminate|].
  apply Hk.
Qed.

Lemma neverThrows_attempt {A} (m : M A) : neverThrows (attempt m).
Proof.
  intros w. unfold attempt. destruct (m w) as [r w1]. now exists r.
Qed.

Lemma neverThrows_processMedia tweet username media locals :
  neverThrows (processMedia config tweet username media locals).
Proof.
  destruct locals as [result files]. unfold processMedia.
  apply neverThrows_bind; [intros w; now eexists|]. intros [|].
  { apply neverThrows_ret. }
  apply neverThrows_bind; [apply neverThrows_attempt|].
  intros [error|downloaded]; [apply neverThrows_ret|].
  destruct (negb _ && _); [|apply neverThrows_ret].
  apply neverThrows_bind; [intros w; now eexists|]. intros uploadedAt.
  apply neverThrows_bind; [intros w; now eexists|]. intros _.
  apply neverThrows_bind; [apply neverThrows_attempt|].
  intros [error|[]]; apply neverThrows_ret.
Qed.

Lemma neverThrows_mediaLoop tweet username medias locals :
  neverThrows (mediaLoop config tweet username medias locals).
Proof.
  revert locals. induction medias as [|media rest IH]; intros locals;
    cbn [mediaLoop].
  - apply neverThrows_ret.
  - apply neverThrows_bind; [apply neverThrows_processMedia|].
    intros [[error|] locals']; [apply neverThrows_ret | apply IH].
Qed.

Lemma neverThrows_processTweet_try tweet username :
  neverThrows (processTweet_try config tweet username).
Proof.
  unfold processTweet_try.
  apply neverThrows_bind; [apply neverThrows_mediaLoop|].
  intros [[error|] [result files]]; [apply neverThrows_ret|].
  destruct (length files =? 0)%nat; [apply neverThrows_ret|].
  apply neverThrows_bind; [apply neverThrows_attempt|].
  intros [error|sendResult]; [apply neverThrows_ret|].
  apply neverThrows_bind; [apply neverThrows_attempt|].
  intros [error|result']; apply neverThrows_ret.
Qed.

(** Every removal is attempted, whatever the answers: the calls of
    [removeAll] are one [rm] per path, in order. *)
Lemma removeAll_trace paths :
  forall rejected w,
    trace (snd (removeAll paths rejected w))
    = (rev (List.map EvRemoveFile paths) ++ trace w)%list.
Proof.
  induction paths as [|filePath rest IH]; intros rejected w; cbn [removeAll].
  - now destruct rejected.
  - unfold bind at 1. unfold attempt, removeFileSafe, call_, call.
    cbn [fst snd]. rewrite IH. cbn [List.map rev record trace].
    now rewrite <- app_assoc.
Qed.

Lemma removeAll_outcome paths :
  forall rejected w,
    (forall t filePath, fs_rm t filePath = None) ->
    fst (removeAll paths rejected w)
    = match rejected with Some error => inl error | None => inr tt end.
Proof.
  induction paths as [|filePath rest IH]; intros rejected w Hrm; cbn [removeAll].
  - now destruct rejected.
  - unfold bind at 1. unfold attempt, removeFileSafe, call_, call.
    cbn [fst snd]. rewrite IH by exact Hrm. rewrite Hrm.
    now destruct rejected.
Qed.

End Cleanup.

(** X9.  [processTweet] and the scratch files: the [try] block never
    throws (a failed download or send is caught and counted), and after
    it one removal is attempted for every downloaded file that was kept
    for the send, in order, whether the post succeeded or failed and
    whatever the removals answer.  So [processTweet] can only throw when
    a removal fails: with a file system whose removals succeed it always
    returns, with [failed] raised by one exactly when the [try] block
    was left by an error. *)
Theorem X9_processTweet_cleans_up `{Platform} (config : AppConfig.t)
    (tweet : MediaTweet.t) (username : string) (w : World) :
  exists thrown result files,
    fst (processTweet_try config tweet username w)
    = inr (thrown, (result, files))
    /\ trace (snd (processTweet config tweet username w))
       = (rev (List.map EvRemoveFile (List.map LocalMediaFile.path files))
          ++ trace (snd (processTweet_try config tweet username w)))%list
    /\ ((forall t filePath, fs_rm t filePath = None) ->
        fst (processTweet config tweet username w)
        = inr (match thrown with
               | Some _ => addFailed result
               | None => result
               end)).
Proof.
  destruct (neverThrows_processTweet_try config tweet username w)
    as [[thrown [result files]] Htry].
  exists thrown, result, files. split; [exact Htry|].
  unfold processTweet. unfold bind at 1 3.
  destruct (processTweet_try config tweet username w) as [r w1].
  cbn [fst snd] in Htry |- *. subst r.
  unfold bind.
  pose proof (removeAll_trace (List.map LocalMediaFile.path files) None w1)
    as Htrace.
  pose proof (removeAll_outcome (List.map LocalMediaFile.path files) None w1)
    as Hout.
  destruct (removeAll (List.map LocalMediaFile.path files) None w1)
    as [[error|[]] w2]; cbn [fst snd] in Htrace, Hout |- *.
  - split; [exact Htrace|]. intros Hrm. specialize (Hout Hrm). discriminate.
  - split; [exact Htrace|]. intros _. reflexivity.
Qed.

Lemma X9_witness :
  let P := Demo.platform Demo.mixedTimeline Demo.sizes in
  fst (@processTweet P (Demo.config ["alice"] 50 (Some 7200))
         Demo.mixedTweet "alice" Demo.emptyWorld)
  = inr (ProcessTweetResult.mk 1 1 0).
Proof.
  intros P.
  destruct (@X9_processTweet_cleans_up P (Demo.config ["alice"] 50 (Some 7200))
              Demo.mixedTweet "alice" Demo.emptyWorld)
    as (thrown & result & files & Htry & _ & Hreturns).
  rewrite Hreturns by reflexivity.
  revert Htry. vm_compute. intros Heq. now injection Heq as <- <- _.
Defined.

(* ===================================================================== *)
(** * Further properties of [run] *)
(* ===================================================================== *)

(** X10.  An account in cooldown is passed over: when the stored
    [rate_limited_until] of the account is a date after the current
    time, the round of the account makes no call to the source or the
    sink, writes nothing, and pushes a summary with [cooldownActive],
    the stored [cooldownUntil] and [backfillDone], and all counters at
    zero. *)
Theorem X10_cooldown_skips_account `{Platform} (config : AppConfig.t)
    (username : string) (w : World) (row : AccountRow.t) (cooldownUntil : Z) :
  account_state w !! username = Some row ->
  AccountRow.rate_limited_until row = Some (ParsesTo cooldownUntil) ->
  Date_now (tick w) < cooldownUntil ->
  syncAccount config username w
  = (inr (AccountRunSummary.mk username 0 0 0 0 0 0 0
            (AccountRow.backfill_done row =? 1) true
            (Some (ParsesTo cooldownUntil))),
     advance w).
Proof.
  intros Hrow Huntil Hnow.
  unfold syncAccount, SqliteStateRepo.getAccountState.
  unfold bind at 1 2, get. cbn [fst snd]. rewrite Hrow.
  unfold ret at 1. unfold bind at 1, Date_now_. cbn [fst snd].
  unfold rateLimitedUntilTs. cbn [AccountState.rateLimitedUntil].
  rewrite Huntil. cbn [DateText_truthy Date_getTime Number_isFinite num_gtb andb].
  replace (cooldownUntil >? Date_now (tick w)) with true by lia.
  unfold withCooldownSkip, createAccountSummary. cbn. now rewrite ?Huntil.
Qed.

Lemma X10_witness :
  let P := Demo.platform Demo.twoAccounts Demo.sizes in
  let row := AccountRow.mk (Some "1") None 0 (Some (ParsesTo 5000)) (ParsesTo 0) in
  let w := set_account_state (insert "alice" row) Demo.emptyWorld in
  @syncAccount P (Demo.config ["alice"] 50 (Some 7200)) "alice" w
  = (inr (AccountRunSummary.mk "alice" 0 0 0 0 0 0 0 false true
            (Some (ParsesTo 5000))),
     advance w).
Proof.
  intros P row w.
  refine (@X10_cooldown_skips_account P _ "alice" w row 5000 _ _ _).
  - reflexivity.
  - reflexivity.
  - cbn. lia.
Defined.

Section LockProtocol.
Context `{Platform}.
Variable config : AppConfig.t.


End LockProtocol.


(** X12.  A run that finds the lock held by someone else (a row whose
    [locked_until] is after the current time, read by a lock transaction
    whose statements go through) does nothing: it creates the scratch
    directory, returns a summary with [skippedByLock] and no account,
    calls neither the source nor the sink, sends no report and changes
    no relation. *)
Theorem X12_run_skipped_when_lock_is_held `{Platform} (config : AppConfig.t)
    (w : World) :
  let directory := AppConfig.downloadTmpDir config in
  let now := Date_now (S (S (S (tick w)))) in
  let runs statement := sqlite_exec (S (S (S (S (tick w))))) statement = None in
  fs_mkdir (S (S (tick w))) directory = None ->
  runs BeginImmediate -> runs SelectLock -> runs Commit ->
  lockHeld "daily-sync" now w ->
  inDateRange (now + AppConfig.jobLockTtlSeconds config * 1000) ->
  run config w
  = (inr (RunSummary.mk (ParsesTo (Date_now (S (tick w))))
            (ParsesTo (Date_now (S (S (S (S (tick w))))))) true []),
     mkWorld (account_state w) (media_registry w) (job_lock w) (connected w)
       (S (S (S (S (S (tick w)))))) (EvMkdir directory :: trace w)).
Proof.
  intros directory now runs Hmkdir Hbegin Hselect Hcommit Hheld Hrange.
  subst directory now runs.
  unfold run.
  unfold bind at 1, Date_now_ at 1. cbn [fst snd].
  unfold bind at 1, nowIso at 1, Date_now_ at 1, bind at 1, ret at 1.
  cbn [fst snd].
  unfold bind at 1, ensureDir, call_, call. cbn [fst snd advance tick].
  rewrite Hmkdir.
  unfold bind at 1.
  match goal with
  | |- context [SqliteStateRepo.acquireJobLock ?j ?h ?ttl ?w3] =>
      destruct (acquireJobLock_held j h ttl w3 Hheld) as [_ Hacq];
      rewrite (Hacq Hrange Hbegin Hselect Hcommit)
  end.
  cbn [negb].
  unfold bind, nowIso, Date_now_, bind, ret. cbn. reflexivity.
Qed.

Lemma X12_witness :
  let P := Demo.platform Demo.twoAccounts Demo.sizes in
  let w := set_job_lock
             (insert "daily-sync" (LockRow.mk (ParsesTo 9000) "sync-7-1"))
             Demo.emptyWorld in
  fst (@run P (Demo.config ["alice"; "bob"] 50 (Some 7200)) w)
  = inr (RunSummary.mk (ParsesTo 1001) (ParsesTo 1004) true []).
Proof.
  intros P w.
  rewrite (@X12_run_skipped_when_lock_is_held P
             (Demo.config ["alice"; "bob"] 50 (Some 7200)) w).
  - reflexivity.
  - reflexivity.
  - reflexivity.
  - reflexivity.
  - reflexivity.
  - exists (LockRow.mk (ParsesTo 9000) "sync-7-1"), 9000.
    split; [reflexivity|]. split; [reflexivity|]. cbn. lia.
  - unfold inDateRange, maxTimeValue. cbn. lia.
Defined.

Section BackfillDone.
Context `{Platform}.
Variable config : AppConfig.t.
(** The account whose backfill is done. *)
Variable account : string.

Lemma done_advance w :
  backfillDoneStored account w -> backfillDoneStored account (advance w).
Proof. exact (fun HI => HI). Qed.

Lemma done_record ev w :
  okEvent config (fun _ => True) ev ->
  backfillDoneStored account w -> backfillDoneStored account (record ev w).
Proof. exact (fun _ HI => HI). Qed.

Lemma done_connected b w :
  backfillDoneStored account w -> backfillDoneStored account (set_connected b w).
Proof. exact (fun HI => HI). Qed.

Lemma done_mark r w :
  backfillDoneStored account w ->
  backfillDoneStored account
    (set_media_registry (SqliteStateRepo.insertOrReplace r) w).
Proof. exact (fun HI => HI). Qed.

Lemma done_fresh (k : string) w :
  backfillDoneStored account w ->
  existsb (fun r => String.eqb (StoredMediaRecord.mediaKey r) k)
          (media_registry w) = false ->
  (fun _ : string => True) k.
Proof. intros _ _. exact Logic.I. Qed.

Lemma done_lock f w :
  backfillDoneStored account w -> backfillDoneStored account (set_job_lock f w).
Proof. exact (fun HI => HI). Qed.

(** The state read for an account carries the flag of its row. *)
Lemma done_getAccountState username :
  yields (backfillDoneStored account) (SqliteStateRepo.getAccountState username)
    (fun state =>
       AccountState.username state = username
       /\ (username = account -> AccountState.backfillDone state = true)).
Proof.
  intros w HI. unfold wp, SqliteStateRepo.getAccountState, bind, get.
  cbn [fst snd].
  destruct (account_state w !! username) as [row|] eqn:Hrow.
  - cbn. split; [exact HI|]. intros a Ha. injection Ha as <-.
    split; [reflexivity|]. intros ->. cbn.
    destruct HI as (row' & Hrow' & Hdone). rewrite Hrow in Hrow'.
    injection Hrow' as <-. now rewrite Hdone.
  - unfold nowIso, Date_now_, bind, ret. cbn. split; [exact HI|].
    intros a Ha. injection Ha as <-. split; [reflexivity|]. intros ->.
    destruct HI as (row' & Hrow' & _). congruence.
Qed.

(** A write for the account keeps the flag when the written state has
    it; a write for another account does not touch the row. *)
Lemma done_upsertAccountState state :
  (AccountState.username state = account ->
   AccountState.backfillDone state = true) ->
  keeps (backfillDoneStored account) (SqliteStateRepo.upsertAccountState state).
Proof.
  intros Hdone. unfold SqliteStateRepo.upsertAccountState.
  eapply yields_bind.
  - destruct (AccountState.updatedAt state);
      [now apply (yields_ret _ _ (fun _ => True))
      | apply keeps_nowIso; exact done_advance].
  - intros updatedAt _. apply keeps_modify. intros w (row & Hrow & Hflag).
    unfold backfillDoneStored. cbn [account_state set_account_state].
    destruct (String.eqb_spec (AccountState.username state) account) as [Heq|Hne].
    + eexists. split; [rewrite Heq; apply lookup_insert_eq|].
      cbn. now rewrite (Hdone Heq).
    + exists row. split; [|exact Hflag].
      now rewrite lookup_insert_ne by exact Hne.
Qed.

Lemma done_syncAccount_try username state summary :
  (username = account -> AccountState.backfillDone state = true) ->
  yields (backfillDoneStored account)
    (syncAccount_try config username state summary)
    (fun r => fst r = None -> username = account ->
              AccountRunSummary.backfillDone (snd r) = true).
Proof.
  intros Hdone. unfold syncAccount_try.
  eapply yields_bind;
    [apply yields_attempt,
       (keeps_collectIncrementalTweets config _ _ done_record)|].
  intros [error|[incrementalTweets newestSeenId]] _;
    [apply yields_ret; discriminate|].
  eapply yields_bind
    with (R := onValue (fun backfill =>
                 username = account -> Backfill.backfillDone backfill = true)).
  - destruct (AccountState.backfillDone state) eqn:Hflag.
    + now apply yields_ret.
    + eapply yields_weaken;
        [apply yields_attempt,
           (keeps_collectBackfillTweets config _ _ done_record)|].
      intros [error|backfill] _; cbn [onValue]; [exact Logic.I|].
      intros Heq. specialize (Hdone Heq). discriminate.
  - intros [error|backfill] Hback; cbn [onValue] in Hback;
      [apply yields_ret; discriminate|].
    eapply yields_bind;
      [apply yields_attempt,
         (keeps_processSelected config _ _ done_advance done_record
            done_connected done_mark done_fresh)|].
    intros [error|totals] _; [apply yields_ret; discriminate|].
    eapply yields_bind; [apply yields_attempt, done_upsertAccountState|].
    + exact Hback.
    + intros [error|[]] _; apply yields_ret; [discriminate|].
      intros _ Heq. cbn. now apply Hback.
Qed.

Lemma done_syncAccount_catch username state summary error :
  (username = account -> AccountState.backfillDone state = true) ->
  yields (backfillDoneStored account)
    (syncAccount_catch config username state summary error)
    (fun pushed => username = account ->
                   AccountRunSummary.backfillDone pushed = true).
Proof.
  intros Hdone. unfold syncAccount_catch.
  destruct (Errors.isTwitterRateLimitError error).
  - eapply yields_bind;
      [apply (keeps_computeCooldownUntil config _ done_advance)|].
    intros cooldownUntil _.
    eapply yields_bind; [apply done_upsertAccountState; exact Hdone|].
    intros _ _. apply yields_ret. exact Hdone.
  - eapply yields_bind;
      [apply (keeps_sendTextMessage config _ _ done_record done_connected)|].
    intros _ _. apply yields_ret. exact Hdone.
Qed.

Lemma done_syncAccount username :
  yields (backfillDoneStored account) (syncAccount config username)
    (fun pushed => username = account ->
                   AccountRunSummary.backfillDone pushed = true).
Proof.
  unfold syncAccount.
  eapply yields_bind; [apply done_getAccountState|]. intros state [_ Hdone].
  eapply yields_bind; [apply (keeps_Date_now_ _ done_advance)|]. intros now _.
  destruct (Number_isFinite _ && num_gtb _ _); [apply yields_ret; exact Hdone|].
  eapply yields_bind; [now apply done_syncAccount_try|].
  intros [[error|] summary] Hsummary; cbn [fst snd] in Hsummary.
  - now apply done_syncAccount_catch.
  - apply yields_ret. now apply Hsummary.
Qed.

Lemma done_accountLoop usernames accountSummaries :
  keeps (backfillDoneStored account)
    (accountLoop config usernames accountSummaries).
Proof.
  revert accountSummaries.
  induction usernames as [|username rest IH]; intros accountSummaries;
    cbn [accountLoop].
  - now apply yields_ret.
  - eapply yields_bind; [apply done_syncAccount|]. intros summary _. apply IH.
Qed.

Lemma done_run : keeps (backfillDoneStored account) (run config).
Proof.
  unfold run.
  eapply yields_bind; [apply (keeps_Date_now_ _ done_advance)|]. intros startMs _.
  eapply yields_bind; [apply (keeps_nowIso _ done_advance)|]. intros startedAt _.
  eapply yields_bind; [apply (keeps_ensureDir config _ _ done_record)|].
  intros _ _.
  eapply yields_bind; [apply (keeps_acquireJobLock _ done_advance done_lock)|].
  intros [|] _; cbn [negb].
  - apply keeps_finally; [|apply (keeps_releaseJobLock _ done_lock)].
    eapply yields_bind.
    + apply yields_attempt.
      eapply yields_bind; [apply done_accountLoop|]. intros accountSummaries _.
      eapply yields_bind; [apply (keeps_nowIso _ done_advance)|].
      intros finishedAt _.
      eapply yields_bind;
        [apply (keeps_sendTextMessage config _ _ done_record done_connected)|].
      intros _ _. now apply (yields_ret _ _ (fun _ => True)).
    + intros [error|result] _; [|now apply yields_ret].
      eapply yields_bind;
        [apply (keeps_sendTextMessage config _ _ done_record done_connected)|].
      intros _ _. apply yields_throw.
  - eapply yields_bind; [apply (keeps_nowIso _ done_advance)|].
    intros finishedAt _. now apply yields_ret.
Qed.

End BackfillDone.

(** X13.  A finished backfill stays finished: once the stored row of an
    account has [backfill_done = 1], it has it after every run, whatever
    the source, the sink and the file system answer, and whether the
    run returns or throws; and every round of that account reports
    [backfillDone] in the summary it pushes. *)
Theorem X13_backfill_done_is_final `{Platform} (config : AppConfig.t)
    (account : string) (w : World) :
  backfillDoneStored account w ->
  backfillDoneStored account (snd (run config w))
  /\ backfillDoneStored account (snd (syncAccount config account w))
  /\ forall summary,
       fst (syncAccount config account w) = inr summary ->
       AccountRunSummary.backfillDone summary = true.
Proof.
  intros Hdone. split.
  - exact (proj1 (done_run config account w Hdone)).
  - destruct (done_syncAccount config account account w Hdone) as [Hkept Hres].
    split; [exact Hkept|].
    intros summary Hsummary. now apply (Hres summary Hsummary).
Qed.

Lemma X13_witness :
  let P := Demo.platform Demo.twoAccounts Demo.sizes in
  let row := AccountRow.mk (Some "1") None 1 None (ParsesTo 0) in
  let w := set_account_state (insert "alice" row) Demo.emptyWorld in
  backfillDoneStored "alice"
    (snd (@run P (Demo.config ["alice"; "bob"] 50 (Some 7200)) w)).
Proof.
  intros P row w.
  refine (proj1 (@X13_backfill_done_is_final P _ "alice" w _)).
  exists row. split; reflexivity.
Defined.

(* ===================================================================== *)
(** * Further properties of the collection and selection of posts *)
(* ===================================================================== *)

Lemma takeUntilSeen_prefix latest tweets :
  exists rest, tweets = (takeUntilSeen latest tweets ++ rest)%list.
Proof.
  induction tweets as [|tweet tweets [rest IH]]; cbn [takeUntilSeen].
  - now exists [].
  - destruct (match latest with Some _ => _ | None => _ end).
    + now exists (tweet :: tweets).
    + exists rest. cbn [app]. now rewrite <- IH.
Qed.

Lemma takeUntilSeen_stops latest tweets :
  latest <> "" ->
  ~ In latest (List.map MediaTweet.id (takeUntilSeen (Some latest) tweets))
  /\ (In latest (List.map MediaTweet.id tweets) ->
      exists seen rest,
        tweets = (takeUntilSeen (Some latest) tweets ++ seen :: rest)%list
        /\ MediaTweet.id seen = latest)
  /\ (~ In latest (List.map MediaTweet.id tweets) ->
      takeUntilSeen (Some latest) tweets = tweets).
Proof.
  intros Hne. apply String.eqb_neq in Hne. 
  induction tweets as [|tweet tweets (IHnot & IHin & IHall)];
    cbn [takeUntilSeen List.map In].
  - split; [tauto|]. split; [tauto | reflexivity].
  - rewrite Hne. cbn [negb andb].
    destruct (String.eqb_spec (MediaTweet.id tweet) latest) as [Heq|Hdiff].
    + cbn [List.map In app]. split; [tauto|]. split; [|tauto].
      intros _. now exists tweet, tweets.
    + cbn [List.map In app]. split; [tauto|]. split.
      * intros [Heq|Hin]; [contradiction|].
        destruct (IHin Hin) as (seen & rest & Hsplit & Hid).
        exists seen, rest. split; [now rewrite <- Hsplit | exact Hid].
      * intros Hnot. f_equal. apply IHall. tauto.
Qed.

Lemma takeUntilSeen_no_cursor latest tweets :
  latest = None \/ latest = Some "" ->
  takeUntilSeen latest tweets = tweets.
Proof.
  intros Hlatest. induction tweets as [|tweet tweets IH]; cbn [takeUntilSeen];
    [reflexivity|].
  destruct Hlatest as [-> | ->]; cbn; now rewrite IH by auto.
Qed.

(** X14.  The incremental collection makes one request for the newest
    page run and keeps the posts that come before the latest seen id:
    what it returns is an initial part of the answer that does not
    contain the latest seen id; when that id is in the answer, the part
    ends just before it; when it is not (or there is no latest seen id,
    or it is empty) the whole answer is returned.  The new latest seen
    id is the id of the first post of the answer, and the old one when
    the answer is empty.  An error of the source is passed on. *)
Theorem X14_collectIncrementalTweets `{Platform} (config : AppConfig.t)
    (username : string) (latestSeenTweetId : option string) (w : World) :
  let params :=
    ListTweetsWithMediaParams.mk username None newer
      (AppConfig.backfillPagesPerRun config) in
  match twitter_listTweetsWithMedia (tick w) params with
  | inl error =>
      collectIncrementalTweets config username latestSeenTweetId w
      = (inl error, record (EvListTweets params) w)
  | inr response =>
      let answer := ListTweetsWithMediaResult.tweets response in
      exists kept,
        collectIncrementalTweets config username latestSeenTweetId w
        = (inr (kept,
                match answer with
                | first :: _ => Some (MediaTweet.id first)
                | [] => latestSeenTweetId
                end),
           record (EvListTweets params) w)
        /\ (exists rest, answer = (kept ++ rest)%list)
        /\ (forall latest,
              latestSeenTweetId = Some latest -> latest <> "" ->
              ~ In latest (List.map MediaTweet.id kept)
              /\ (In latest (List.map MediaTweet.id answer) ->
                  exists seen rest,
                    answer = (kept ++ seen :: rest)%list
                    /\ MediaTweet.id seen = latest)
              /\ (~ In latest (List.map MediaTweet.id answer) -> kept = answer))
        /\ (latestSeenTweetId = None \/ latestSeenTweetId = Some "" ->
            kept = answer)
  end.
Proof.
  intros params. unfold collectIncrementalTweets, bind, call.
  fold params. cbn [fst snd].
  destruct (twitter_listTweetsWithMedia (tick w) params) as [error|response];
    [reflexivity|].
  cbv zeta.
  exists (takeUntilSeen latestSeenTweetId (ListTweetsWithMediaResult.tweets response)).
  split; [reflexivity|]. split; [apply takeUntilSeen_prefix|]. split.
  - intros latest -> Hne. now apply takeUntilSeen_stops.
  - apply takeUntilSeen_no_cursor.
Qed.

Lemma selectTweets_picks candidates :
  forall selected mediaBudget,
  exists picked,
    selectTweets candidates selected mediaBudget = (selected ++ picked)%list
    /\ sublist picked candidates.
Proof.
  induction candidates as [|tweet rest IH]; intros selected mediaBudget;
    cbn [selectTweets].
  - exists []. now rewrite app_nil_r.
  - destruct (mediaBudget <=? 0).
    { exists []. rewrite app_nil_r. split; [reflexivity | apply sublist_nil_l]. }
    destruct (_ && _).
    + destruct (IH selected mediaBudget) as (picked & -> & Hsub).
      exists picked. split; [reflexivity | now apply sublist_cons].
    + destruct (IH (selected ++ [tweet])%list
                   (mediaBudget - Z.of_nat (length (MediaTweet.media tweet))))
        as (picked & -> & Hsub).
      exists (tweet :: picked). rewrite <- app_assoc.
      split; [reflexivity | now apply sublist_skip].
Qed.

Lemma selectTweets_all candidates :
  forall selected mediaBudget,
    Forall (fun tweet => MediaTweet.media tweet <> []) candidates ->
    mediaCount candidates <= mediaBudget ->
    selectTweets candidates selected mediaBudget = (selected ++ candidates)%list.
Proof.
  induction candidates as [|tweet rest IH]; intros selected mediaBudget Hmedia Hfit;
    cbn [selectTweets mediaCount] in *.
  - now rewrite app_nil_r.
  - apply Forall_cons in Hmedia. destruct Hmedia as [Hsome Hmedia].
    pose proof (mediaCount_nonneg rest) as Hrest.
    assert (Hlen : 0 < Z.of_nat (length (MediaTweet.media tweet))).
    { destruct (MediaTweet.media tweet); [contradiction | cbn; lia]. }
    replace (mediaBudget <=? 0) with false by lia.
    replace (Z.of_nat (length (MediaTweet.media tweet)) >? mediaBudget)
      with false by lia.
    cbn [andb]. rewrite IH by (assumption || lia).
    now rewrite <- app_assoc.
Qed.

(** X15.  The selection loop keeps order and invents nothing: the
    selected posts are a subsequence of the candidates; and when every
    candidate has at least one media and all the media together fit in
    the budget, every candidate is selected. *)
Theorem X15_selectTweets_subsequence (candidates : list MediaTweet.t)
    (mediaBudget : Z) :
  sublist (selectTweets candidates [] mediaBudget) candidates
  /\ (Forall (fun tweet => MediaTweet.media tweet <> []) candidates ->
      mediaCount candidates <= mediaBudget ->
      selectTweets candidates [] mediaBudget = candidates).
Proof.
  split.
  - destruct (selectTweets_picks candidates [] mediaBudget) as (picked & -> & Hsub).
    exact Hsub.
  - intros Hmedia Hfit. now rewrite selectTweets_all.
Qed.

Lemma Map_set_keys map key value :
  List.map fst (Map_set map key value)
  = if existsb (String.eqb key) (List.map fst map)
    then List.map fst map
    else (List.map fst map ++ [key])%list.
Proof.
  induction map as [|[k v] rest IH]; cbn [Map_set List.map fst existsb app];
    [reflexivity|].
  rewrite (String.eqb_sym key k).
  destruct (String.eqb k key) eqn:Hk; cbn [List.map fst orb]; [reflexivity|].
  rewrite IH. now destruct (existsb _ _).
Qed.

Lemma Map_set_NoDup map key value :
  NoDup (List.map fst map) -> NoDup (List.map fst (Map_set map key value)).
Proof.
  intros Hnd. rewrite Map_set_keys.
  destruct (existsb (String.eqb key) (List.map fst map)) eqn:Hex; [exact Hnd|].
  apply NoDup_app. split; [exact Hnd|]. split; [|apply NoDup_singleton].
  intros k Hin Hin'. apply list_elem_of_singleton in Hin'. subst k.
  assert (Htrue : existsb (String.eqb key) (List.map fst map) = true).
  { apply existsb_exists. exists key. split.
    - now apply list_elem_of_In. 
    - apply String.eqb_refl. }
  congruence.
Qed.

Lemma Map_set_In map key value k v :
  NoDup (List.map fst map) ->
  In (k, v) (Map_set map key value)
  <-> (k = key /\ v = value) \/ (k <> key /\ In (k, v) map).
Proof.
  induction map as [|[k0 v0] rest IH]; cbn [Map_set List.map fst In]; intros Hnd.
  - split.
    + intros [Heq | []]. injection Heq as <- <-. now left.
    + intros [[-> ->] | [_ []]]. now left.
  - apply NoDup_cons in Hnd. destruct Hnd as [Hnotin Hnd].
    rewrite list_elem_of_In in Hnotin.
    destruct (String.eqb_spec k0 key) as [Heq|Hne]; cbn [In].
    + subst k0. split.
      * intros [Heq | Hin].
        -- injection Heq as <- <-. now left.
        -- right. split; [|now right]. intros ->. apply Hnotin.
           apply in_map_iff. now exists (key, v).
      * intros [[-> ->] | [Hne [Heq | Hin]]]; [now left | | now right].
        injection Heq as Heq _. congruence.
    + rewrite (IH Hnd). split.
      * intros [Heq | [[-> ->] | [Hk Hin]]].
        -- injection Heq as <- <-. right. split; [congruence | now left].
        -- now left.
        -- right. split; [exact Hk | now right].
      * intros [[-> ->] | [Hk [Heq | Hin]]].
        -- right. now left.
        -- now left.
        -- right. right. now split.
Qed.

Lemma last_with_id_snoc (tweets : list MediaTweet.t) (tweet t : MediaTweet.t) :
  (exists before after,
     (tweets ++ [tweet])%list = (before ++ t :: after)%list
     /\ ~ In (MediaTweet.id t) (List.map MediaTweet.id after))
  <-> t = tweet
      \/ (MediaTweet.id t <> MediaTweet.id tweet
          /\ exists before after,
               tweets = (before ++ t :: after)%list
               /\ ~ In (MediaTweet.id t) (List.map MediaTweet.id after)).
Proof.
  split.
  - intros (before & after & Hsplit & Hlast).
    induction after as [|x after' _] using rev_ind.
    + left. apply app_inj_tail in Hsplit. now destruct Hsplit.
    + right. rewrite app_comm_cons, app_assoc in Hsplit.
      apply app_inj_tail in Hsplit. destruct Hsplit as [Htweets <-].
      rewrite map_app, in_app_iff in Hlast. cbn in Hlast.
      split; [intros Heq; apply Hlast; right; left; now rewrite Heq|].
      exists before, after'. split; [exact Htweets | tauto].
  - intros [-> | (Hne & before & after & -> & Hlast)].
    + exists tweets, []. split; [reflexivity | tauto].
    + exists before, (after ++ [tweet])%list. split.
      * now rewrite <- app_assoc.
      * rewrite map_app, in_app_iff. cbn. intros [Hin | [Heq | []]];
          [contradiction | congruence].
Qed.

(** The [Map] built by the loop of [mergeUniqueTweets]: one entry per id,
    keyed by the id of its post, holding the last post with that id. *)
Lemma merge_map_invariant (tweets : list MediaTweet.t) :
  let map :=
    List.fold_left (fun m tweet => Map_set m (MediaTweet.id tweet) tweet)
                   tweets [] in
  NoDup (List.map fst map)
  /\ forall k t,
       In (k, t) map
       <-> MediaTweet.id t = k
           /\ exists before after,
                tweets = (before ++ t :: after)%list
                /\ ~ In (MediaTweet.id t) (List.map MediaTweet.id after).
Proof.
  induction tweets as [|tweet tweets [IHnd IHin]] using rev_ind; cbv zeta.
  - cbn. split; [constructor|]. intros k t. split; [tauto|].
    intros (_ & before & after & Hsplit & _). now destruct before.
  - cbv zeta in IHnd, IHin. rewrite fold_left_app. cbn [fold_left].
    split; [now apply Map_set_NoDup|].
    intros k t. rewrite (Map_set_In _ _ _ _ _ IHnd), last_with_id_snoc, IHin.
    split.
    + intros [[-> ->] | (Hne & Hid & Hlast)].
      * split; [reflexivity | now left].
      * split; [exact Hid|]. right. split; [congruence | exact Hlast].
    + intros (Hid & [-> | (Hne & Hlast)]).
      * left. now split.
      * right. split; [congruence|]. now split.
Qed.

Lemma sort_insert_Permutation {T} (compare : T -> T -> comparison) x sorted :
  Permutation (sort_insert compare x sorted) (x :: sorted).
Proof.
  induction sorted as [|y rest IH]; cbn [sort_insert]; [reflexivity|].
  destruct (compare x y); try reflexivity.
  rewrite IH. apply perm_swap.
Qed.

Lemma Array_sort_Permutation {T} (compare : T -> T -> comparison) items :
  Permutation (Array_sort compare items) items.
Proof.
  unfold Array_sort.
  induction items as [|x items IH]; cbn [fold_right]; [reflexivity|].
  rewrite sort_insert_Permutation. now rewrite IH.
Qed.

Lemma sort_insert_sorted {T} (compare : T -> T -> comparison) (key : T -> Z)
    x sorted :
  (forall y, In y sorted -> compare x y = (key x ?= key y)) ->
  StronglySorted (fun a b => key a <= key b) sorted ->
  StronglySorted (fun a b => key a <= key b) (sort_insert compare x sorted).
Proof.
  intros Hcompare Hsorted.
  induction Hsorted as [|y rest Hrest IH Hall]; cbn [sort_insert].
  - constructor; constructor.
  - assert (Hxy : compare x y = (key x ?= key y)) by (apply Hcompare; now left).
    assert (Hrest' : forall z, In z rest -> compare x z = (key x ?= key z))
      by (intros z Hz; apply Hcompare; now right).
    destruct (compare x y) eqn:Hc; symmetry in Hxy.
    + apply Z.compare_eq in Hxy. constructor; [now constructor|].
      constructor; [lia|]. eapply List.Forall_impl; [|exact Hall].
      cbv beta. intros z Hz. lia.
    + rewrite Z.compare_lt_iff in Hxy. constructor; [now constructor|].
      constructor; [lia|]. eapply List.Forall_impl; [|exact Hall].
      cbv beta. intros z Hz. lia.
    + rewrite Z.compare_gt_iff in Hxy. constructor; [now apply IH|].
      rewrite (sort_insert_Permutation compare x rest).
      constructor; [lia | exact Hall].
Qed.

Lemma Array_sort_sorted {T} (compare : T -> T -> comparison) (key : T -> Z) items :
  (forall x y, In x items -> In y items -> compare x y = (key x ?= key y)) ->
  StronglySorted (fun a b => key a <= key b) (Array_sort compare items).
Proof.
  unfold Array_sort.
  induction items as [|x items IH]; cbn [fold_right]; intros Hcompare;
    [constructor|].
  apply sort_insert_sorted.
  - intros y Hy. apply Hcompare; [now left|]. right.
    apply list_elem_of_In.
    rewrite <- (Array_sort_Permutation compare items).
    now apply list_elem_of_In.
  - apply IH. intros a b Ha Hb. apply Hcompare; now right.
Qed.

(** X16.  [mergeUniqueTweets] keeps one post per id, the last one of the
    input with that id, and nothing else: the ids of the result are
    pairwise different, and a post is in the result exactly when it
    occurs in the input with no post of the same id after it.  When the
    ids of the input are numbers, the result is in ascending order of
    id (oldest first). *)
Theorem X16_mergeUniqueTweets `{Platform} (tweets : list MediaTweet.t) :
  let merged := mergeUniqueTweets tweets in
  NoDup (List.map MediaTweet.id merged)
  /\ (forall t,
        In t merged
        <-> exists before after,
              tweets = (before ++ t :: after)%list
              /\ ~ In (MediaTweet.id t) (List.map MediaTweet.id after))
  /\ (Forall (fun t => exists n, Number_ (MediaTweet.id t) = Fin n) tweets ->
      StronglySorted
        (fun a b => forall x y,
           Number_ (MediaTweet.id a) = Fin x ->
           Number_ (MediaTweet.id b) = Fin y -> x <= y)
        merged).
Proof.
  intros merged. subst merged. unfold mergeUniqueTweets.
  destruct (merge_map_invariant tweets) as [Hnd Hin]. cbv zeta in Hnd, Hin.
  set (map := List.fold_left (fun m tweet => Map_set m (MediaTweet.id tweet) tweet)
                             tweets []) in *.
  assert (Hids : List.map MediaTweet.id (List.map snd map) = List.map fst map).
  { rewrite List.map_map. apply List.map_ext_in. intros [k t] Hkt.
    cbn [fst snd]. now apply Hin in Hkt. }
  assert (Hsnd : forall t, In t (List.map snd map)
            <-> exists before after,
                  tweets = (before ++ t :: after)%list
                  /\ ~ In (MediaTweet.id t) (List.map MediaTweet.id after)).
  { intros t. rewrite in_map_iff. split.
    - intros ([k t'] & Heq & Hkt). cbn [snd] in Heq. subst t'.
      now apply Hin in Hkt.
    - intros Hlast. exists (MediaTweet.id t, t). split; [reflexivity|].
      apply Hin. now split. }
  split; [|split].
  - rewrite (Array_sort_Permutation compareTweetIds (List.map snd map)).
    now rewrite Hids.
  - intros t. rewrite <- Hsnd. rewrite <- !list_elem_of_In.
    now rewrite (Array_sort_Permutation compareTweetIds (List.map snd map)).
  - intros Hnumeric.
    assert (Hkey : forall t, In t (List.map snd map) ->
                     exists n, Number_ (MediaTweet.id t) = Fin n).
    { intros t Ht. apply Hsnd in Ht. destruct Ht as (before & after & Hsplit & _).
      rewrite List.Forall_forall in Hnumeric. apply Hnumeric.
      rewrite Hsplit. apply in_app_iff. right. now left. }
    pose proof (Array_sort_sorted compareTweetIds
                  (fun t => match Number_ (MediaTweet.id t) with
                            | Fin n => n
                            | NaN => 0
                            end)
                  (List.map snd map)) as Hsorted.
    assert (Hcompare : forall x y,
              In x (List.map snd map) -> In y (List.map snd map) ->
              compareTweetIds x y
              = (match Number_ (MediaTweet.id x) with Fin n => n | NaN => 0 end
                 ?= match Number_ (MediaTweet.id y) with Fin n => n | NaN => 0 end)).
    { intros x y Hx Hy. unfold compareTweetIds.
      destruct (Hkey x Hx) as [nx ->]. now destruct (Hkey y Hy) as [ny ->]. }
    specialize (Hsorted Hcompare).
    induction Hsorted as [|a rest Hrest IH Hall]; constructor; [exact IH|].
    eapply List.Forall_impl; [|exact Hall]. cbv beta.
    intros b Hab x y Hx Hy. now rewrite Hx, Hy in Hab.
Qed.

Lemma X16_witness :
  let P := Demo.platform Demo.noPosts Demo.sizes in
  let merged := @mergeUniqueTweets P
                  [Demo.photoTweet "3" "alice"; Demo.photoTweet "1" "alice";
                   Demo.photoTweet "3" "alice"; Demo.photoTweet "2" "alice"] in
  List.map MediaTweet.id merged = ["1"; "2"; "3"]
  /\ StronglySorted
       (fun a b => forall x y,
          Number_ (MediaTweet.id a) = Fin x ->
          Number_ (MediaTweet.id b) = Fin y -> x <= y)
       merged.
Proof.
  intros P merged. split; [reflexivity|].
  refine (proj2 (proj2 (@X16_mergeUniqueTweets P _)) _).
  repeat constructor; eexists; reflexivity.
Defined.

(* ===================================================================== *)
(** * Further properties of the loaders and of the scheduler *)
(* ===================================================================== *)

Lemma digitBetween_spec lo hi c :
  SchedulerEnv.digitBetween lo hi c = true ->
  exists k, nat_of_ascii c = (48 + k)%nat /\ (lo <= k <= hi)%nat.
Proof.
  unfold SchedulerEnv.digitBetween. cbv zeta.
  rewrite andb_true_iff, !Nat.leb_le. intros [Hlo Hhi].
  exists (nat_of_ascii c - 48)%nat. lia.
Qed.

Lemma digit_not_colon c k :
  nat_of_ascii c = (48 + k)%nat -> (k <= 9)%nat -> Ascii.eqb c ":"%char = false.
Proof.
  intros Hc Hk. apply Ascii.eqb_neq. intros ->.
  change (nat_of_ascii ":"%char) with 58%nat in Hc. lia.
Qed.

Lemma digit_is_digit c k :
  nat_of_ascii c = (48 + k)%nat -> (k <= 9)%nat ->
  SchedulerEnv.digitBetween 0 9 c = true.
Proof.
  intros Hc Hk. unfold SchedulerEnv.digitBetween. cbv zeta.
  rewrite andb_true_iff, !Nat.leb_le. lia.
Qed.

(** The two numbers read from a text that matches the pattern. *)
Lemma dailyAtNumbers_of_match value :
  SchedulerEnv.dailyAtPattern_test value = true ->
  exists hour minute,
    SchedulerEnv.dailyAtNumbers value = (Fin hour, Fin minute)
    /\ 0 <= hour <= 23 /\ 0 <= minute <= 59.
Proof.
  destruct value as [|h1 [|h2 [|colon [|m1 [|m2 [|extra rest]]]]]];
    try discriminate.
  cbn [SchedulerEnv.dailyAtPattern_test].
  rewrite !andb_true_iff, orb_true_iff, !andb_true_iff.
  intros [[[Hhour Hcolon] Hm1] Hm2].
  apply Ascii.eqb_eq in Hcolon. subst colon.
  apply digitBetween_spec in Hm1, Hm2.
  destruct Hm1 as (k1 & Hk1 & Hr1), Hm2 as (k2 & Hk2 & Hr2).
  assert (Hh : exists j1 j2,
            nat_of_ascii h1 = (48 + j1)%nat /\ nat_of_ascii h2 = (48 + j2)%nat
            /\ (j1 <= 2)%nat /\ (j2 <= 9)%nat /\ (10 * j1 + j2 <= 23)%nat).
  { destruct Hhour as [[Ha Hb] | [Ha Hb]];
      apply digitBetween_spec in Ha, Hb;
      destruct Ha as (j1 & Hj1 & Hr), Hb as (j2 & Hj2 & Hr');
      exists j1, j2; repeat split; (assumption || lia). }
  destruct Hh as (j1 & j2 & Hj1 & Hj2 & Hr & Hr' & Hsum).
  unfold SchedulerEnv.dailyAtNumbers. cbn [SchedulerEnv.splitColon].
  rewrite (digit_not_colon h1 j1), (digit_not_colon h2 j2),
    (digit_not_colon m1 k1), (digit_not_colon m2 k2) by (assumption || lia).
  cbn [Ascii.eqb Bool.eqb nth_error SchedulerEnv.Number_ofDigits
       SchedulerEnv.Number_ofDigits_from].
  rewrite (digit_is_digit h1 j1), (digit_is_digit h2 j2),
    (digit_is_digit m1 k1), (digit_is_digit m2 k2) by (assumption || lia).
  rewrite Hj1, Hj2, Hk1, Hk2.
  eexists _, _. split; [reflexivity|]. lia.
Qed.

(** X17.  [loadSchedulerConfig] yields a time of day: whenever it
    returns, the hour is between 0 and 23, the minute between 0 and 59,
    and the tick period is positive; it throws exactly when the schema
    rejects the environment ([Number] never yields [NaN] on what the
    pattern lets through); a [SYNC_DAILY_AT] that does not match
    [HH:MM] is rejected, and without the variable the time is 09:00. *)
Theorem X17_loadSchedulerConfig_time_of_day (Number_int : string -> option Z)
    (environment : Config.Env) :
  (forall scheduler,
     SchedulerEnv.loadSchedulerConfig Number_int environment = Some scheduler ->
     0 <= Scheduler.dailyAtHour scheduler <= 23
     /\ 0 <= Scheduler.dailyAtMinute scheduler <= 59
     /\ 0 < Scheduler.tickSeconds scheduler)
  /\ (SchedulerEnv.loadSchedulerConfig Number_int environment = None
      <-> SchedulerEnv.schedulerEnvSchema_parse Number_int environment = None)
  /\ (forall value,
        environment "SYNC_DAILY_AT" = Some value ->
        SchedulerEnv.dailyAtPattern_test value = false ->
        SchedulerEnv.loadSchedulerConfig Number_int environment = None)
  /\ (environment "SYNC_DAILY_AT" = None ->
      forall scheduler,
        SchedulerEnv.loadSchedulerConfig Number_int environment = Some scheduler ->
        Scheduler.dailyAtHour scheduler = 9
        /\ Scheduler.dailyAtMinute scheduler = 0).
Proof.
  assert (Hparsed : forall parsed,
            SchedulerEnv.schedulerEnvSchema_parse Number_int environment
            = Some parsed ->
            SchedulerEnv.dailyAtPattern_test (SchedulerEnv.SYNC_DAILY_AT parsed)
            = true
            /\ 0 < SchedulerEnv.SCHEDULER_TICK_SECONDS parsed
            /\ (environment "SYNC_DAILY_AT" = None ->
                SchedulerEnv.SYNC_DAILY_AT parsed = "09:00")).
  { intros parsed. unfold SchedulerEnv.schedulerEnvSchema_parse.
    destruct (Config.zString_default _ _) as [tz|]; [|discriminate].
    cbn [mbind option_bind].
    unfold SchedulerEnv.zDailyAt.
    destruct (environment "SYNC_DAILY_AT") as [value|] eqn:Hvalue.
    - destruct (SchedulerEnv.dailyAtPattern_test value) eqn:Hmatch;
        [|discriminate].
      cbn [mbind option_bind].
      unfold Config.zPositiveInt_default, Config.zPositiveInt.
      destruct (environment "SCHEDULER_TICK_SECONDS") as [text|].
      + destruct (Number_int text) as [n|]; [|discriminate].
        destruct (Z.ltb_spec 0 n); [|discriminate].
        cbn. intros Heq. injection Heq as <-. cbn. repeat split; auto.
        discriminate.
      + cbn. intros Heq. injection Heq as <-. cbn. repeat split; auto; try lia.
        discriminate.
    - cbn [mbind option_bind].
      unfold Config.zPositiveInt_default, Config.zPositiveInt.
      destruct (environment "SCHEDULER_TICK_SECONDS") as [text|].
      + destruct (Number_int text) as [n|]; [|discriminate].
        destruct (Z.ltb_spec 0 n); [|discriminate].
        cbn. intros Heq. injection Heq as <-. cbn. repeat split; auto.
      + cbn. intros Heq. injection Heq as <-. cbn. repeat split; auto; lia. }
  split; [|split; [|split]].
  - intros scheduler. unfold SchedulerEnv.loadSchedulerConfig.
    destruct (SchedulerEnv.schedulerEnvSchema_parse Number_int environment)
      as [parsed|] eqn:Hparse; [|discriminate].
    cbn [mbind option_bind].
    destruct (Hparsed parsed eq_refl) as (Hmatch & Htick & _).
    destruct (dailyAtNumbers_of_match _ Hmatch)
      as (hour & minute & -> & Hhour & Hminute).
    cbn. intros Heq. injection Heq as <-. cbn. auto.
  - unfold SchedulerEnv.loadSchedulerConfig.
    destruct (SchedulerEnv.schedulerEnvSchema_parse Number_int environment)
      as [parsed|] eqn:Hparse; [|now split].
    cbn [mbind option_bind].
    destruct (Hparsed parsed eq_refl) as (Hmatch & _ & _).
    destruct (dailyAtNumbers_of_match _ Hmatch) as (hour & minute & -> & _).
    cbn. split; discriminate.
  - intros value Hvalue Hmatch.
    unfold SchedulerEnv.loadSchedulerConfig, SchedulerEnv.schedulerEnvSchema_parse.
    destruct (Config.zString_default _ _) as [tz|]; [|reflexivity].
    cbn [mbind option_bind]. unfold SchedulerEnv.zDailyAt.
    now rewrite Hvalue, Hmatch.
  - intros Hnone scheduler. unfold SchedulerEnv.loadSchedulerConfig.
    destruct (SchedulerEnv.schedulerEnvSchema_parse Number_int environment)
      as [parsed|] eqn:Hparse; [|discriminate].
    cbn [mbind option_bind].
    destruct (Hparsed parsed eq_refl) as (_ & _ & Hdefault).
    rewrite (Hdefault Hnone). cbn. intros Heq. injection Heq as <-. now cbn.
Qed.

Lemma X17_witness :
  let environment : Config.Env := fun key =>
    if String.eqb key "SYNC_DAILY_AT" then Some "23:59"
    else if String.eqb key "SCHEDULER_RUN_ON_START" then Some "YES"
    else None in
  exists scheduler,
    SchedulerEnv.loadSchedulerConfig Demo.Number_int environment = Some scheduler
    /\ Scheduler.runOnStart scheduler = true
    /\ 0 <= Scheduler.dailyAtHour scheduler <= 23.
Proof.
  intros environment.
  assert (Hload : exists scheduler,
            SchedulerEnv.loadSchedulerConfig Demo.Number_int environment
            = Some scheduler /\ Scheduler.runOnStart scheduler = true).
  { eexists. split; vm_compute; reflexivity. }
  destruct Hload as (scheduler & Hload & Hstart).
  exists scheduler. split; [exact Hload|]. split; [exact Hstart|].
  exact (proj1 (proj1 (X17_loadSchedulerConfig_time_of_day
                         Demo.Number_int environment) scheduler Hload)).
Defined.

(** X18.  The run at startup: without [runOnStart] nothing happens
    before the first tick.  With it, the engine is invoked once with the
    trigger "startup".  When that run returns without having been
    skipped by the lock and the daily time has passed by then, the day
    is recorded and no tick of that day invokes the engine again; in
    every other case (the run failed, was skipped by the lock, or ended
    before the daily time) no day is recorded, so the first tick at or
    past the daily time invokes the engine. *)
Theorem X18_startup_run (scheduler : Scheduler.SchedulerConfig)
    (outcome : Scheduler.Settled) (now : Scheduler.DateParts) :
  let started :=
    SchedulerEnv.runOnStartBlock scheduler outcome now SchedulerEnv.initialDaemon in
  (Scheduler.runOnStart scheduler = false -> started = SchedulerEnv.initialDaemon)
  /\ (Scheduler.runOnStart scheduler = true ->
      Scheduler.isRunning started = false
      /\ Scheduler.invocations started = ["startup"]
      /\ (forall result,
            outcome = Scheduler.Returned result ->
            RunSummary.skippedByLock result = false ->
            atOrPast scheduler now ->
            forall inputs,
              Forall (Scheduler.sameDay (Scheduler.dateKey now)) inputs ->
              Scheduler.invocations (Scheduler.steps scheduler started inputs)
              = ["startup"])
      /\ ((forall result,
             outcome = Scheduler.Returned result ->
             RunSummary.skippedByLock result = true \/ ~ atOrPast scheduler now) ->
          forall later,
            atOrPast scheduler later ->
            Scheduler.dateKey later <> "" ->
            Scheduler.invokes scheduler later started = true)).
Proof.
  intros started. subst started. unfold SchedulerEnv.runOnStartBlock.
  split; [now intros ->|]. intros ->.
  cbn [Scheduler.isRunning Scheduler.invocations SchedulerEnv.initialDaemon].
  split; [reflexivity|]. split; [reflexivity|]. split.
  - intros result -> Hskip Hdue inputs Hsame.
    apply dueToday_spec in Hdue. rewrite Hdue, Hskip. cbn [negb andb].
    now rewrite (steps_sameDay_idle scheduler (Scheduler.dateKey now)).
  - intros Hother later Hdue Hkey. apply invokes_spec.
    split; [reflexivity|]. split; [exact Hdue|].
    cbn [Scheduler.lastRunDateKey].
    destruct outcome as [result|error]; [|cbn; congruence].
    destruct (Hother result eq_refl) as [Hskip | Hearly].
    + rewrite Hskip, andb_false_r. cbn. congruence.
    + destruct (Scheduler.dueToday scheduler now) eqn:Hd.
      * apply dueToday_spec in Hd. contradiction.
      * cbn. congruence.
Qed.

Lemma X18_witness :
  let scheduler := Scheduler.mkSchedulerConfig "Asia/Shanghai" "09:00" 9 0 30 true in
  let early := Scheduler.mkDateParts "2024-05-01" 8 30 in
  let due := Scheduler.mkDateParts "2024-05-01" 9 0 in
  let started :=
    SchedulerEnv.runOnStartBlock scheduler
      (Scheduler.Returned (RunSummary.mk (ParsesTo 0) (ParsesTo 1) false []))
      early SchedulerEnv.initialDaemon in
  Scheduler.invokes scheduler due started = true.
Proof.
  intros scheduler early due started.
  refine (proj2 (proj2 (proj2 (proj2
            (X18_startup_run scheduler _ early) eq_refl))) _ due _ _).
  - intros result _. right. unfold atOrPast. cbn. lia.
  - unfold atOrPast. cbn. lia.
  - discriminate.
Defined.

Lemma zPositiveInt_default_positive Number_int d input n :
  0 < d ->
  Config.zPositiveInt_default Number_int d input = Some n ->
  0 < n /\ (input = None -> n = d).
Proof.
  intros Hd. unfold Config.zPositiveInt_default, Config.zPositiveInt.
  destruct input as [text|].
  - destruct (Number_int text) as [m|]; [|discriminate].
    destruct (Z.ltb_spec 0 m); [|discriminate].
    intros Heq. injection Heq as <-. split; [assumption | discriminate].
  - intros Heq. injection Heq as <-. now split.
Qed.

(** X19.  What [loadConfig] lets through: whenever it returns a
    configuration, [TWITTER_USERS] and [TELEGRAM_API_HASH] were set (the
    hash with a [length] of at least ten, counted as JavaScript does, in
    UTF-16 code units), no account name of the list is
    empty, and the API id, the pages per run, the media budget, the lock
    time-to-live and the size cap are all positive; the four limits have
    the defaults 10, 300, 3300 and 512 MiB when their variable is
    missing. *)
Theorem X19_loadConfig_validated (String_trim : string -> string)
    (Number_int : string -> option Z)
    (parseCookies : string -> option (list string))
    (environment : Config.Env) (config : AppConfig.t) :
  Config.loadConfig String_trim Number_int parseCookies environment = Some config ->
  (exists users, environment "TWITTER_USERS" = Some users /\ users <> "")
  /\ Forall (fun username => username <> "") (AppConfig.twitterUsers config)
  /\ environment "TELEGRAM_API_HASH" = Some (AppConfig.telegramApiHash config)
  /\ (10 <= String_length (AppConfig.telegramApiHash config))%nat
  /\ 0 < AppConfig.telegramApiId config
  /\ (0 < AppConfig.backfillPagesPerRun config
      /\ (environment "BACKFILL_PAGES_PER_RUN" = None ->
          AppConfig.backfillPagesPerRun config = 10))
  /\ (0 < AppConfig.maxMediaPerRun config
      /\ (environment "MAX_MEDIA_PER_RUN" = None ->
          AppConfig.maxMediaPerRun config = 300))
  /\ (0 < AppConfig.jobLockTtlSeconds config
      /\ (environment "JOB_LOCK_TTL_SECONDS" = None ->
          AppConfig.jobLockTtlSeconds config = 3300))
  /\ (0 < AppConfig.maxUploadVideoBytes config
      /\ (environment "MAX_UPLOAD_VIDEO_BYTES" = None ->
          AppConfig.maxUploadVideoBytes config = 512 * 1024 * 1024)).
Proof.
  unfold Config.loadConfig, Config.syncEnvSchema_parse.
  destruct (Config.zString_min 1 (environment "TWITTER_USERS")) as [users|] eqn:Husers;
    [|discriminate].
  cbn [mbind option_bind].
  destruct (Config.zString_min 2 _) as [cookies|]; [|discriminate].
  cbn [mbind option_bind].
  destruct (Config.zPositiveInt Number_int (environment "TELEGRAM_API_ID"))
    as [apiId|] eqn:HapiId; [|discriminate].
  cbn [mbind option_bind].
  destruct (Config.zString_min 10 (environment "TELEGRAM_API_HASH"))
    as [apiHash|] eqn:HapiHash; [|discriminate].
  cbn [mbind option_bind].
  destruct (Config.zString_default "" _) as [session|]; [|discriminate].
  cbn [mbind option_bind].
  destruct (Config.zString_default "Asia/Shanghai" _) as [tz|]; [|discriminate].
  cbn [mbind option_bind].
  destruct (Config.zString_default "/data/state.sqlite" _) as [dbPath|];
    [|discriminate].
  cbn [mbind option_bind].
  destruct (Config.zPositiveInt_default Number_int 10 _) as [pages|] eqn:Hpages;
    [|discriminate].
  cbn [mbind option_bind].
  destruct (Config.zPositiveInt_default Number_int 300 _) as [maxMedia|] eqn:HmaxMedia;
    [|discriminate].
  cbn [mbind option_bind].
  destruct (Config.zString_default "/tmp/work" _) as [tmpDir|]; [|discriminate].
  cbn [mbind option_bind].
  destruct (Config.zPositiveInt_default Number_int 3300 _) as [ttl|] eqn:Httl;
    [|discriminate].
  cbn [mbind option_bind].
  destruct (Config.zPositiveInt_default Number_int (512 * 1024 * 1024) _)
    as [maxBytes|] eqn:HmaxBytes; [|discriminate].
  cbn [mbind option_bind].
  destruct (parseCookies _) as [twitterCookies|]; [|discriminate].
  cbn [mbind option_bind]. intros Heq. injection Heq as <-.
  cbn [AppConfig.twitterUsers AppConfig.telegramApiHash AppConfig.telegramApiId
       AppConfig.backfillPagesPerRun AppConfig.maxMediaPerRun
       AppConfig.jobLockTtlSeconds AppConfig.maxUploadVideoBytes
       Config.TWITTER_USERS Config.TELEGRAM_API_HASH Config.TELEGRAM_API_ID
       Config.BACKFILL_PAGES_PER_RUN Config.MAX_MEDIA_PER_RUN
       Config.JOB_LOCK_TTL_SECONDS Config.MAX_UPLOAD_VIDEO_BYTES].
  split; [|split; [|split; [|split; [|split; [|split; [|split; [|split]]]]]]].
  - unfold Config.zString_min in Husers.
    destruct (environment "TWITTER_USERS") as [v|]; [|discriminate].
    destruct (Nat.leb_spec 1 (String_length v)) as [Hlen|]; [|discriminate].
    injection Husers as <-. exists v. split; [reflexivity|].
    intros ->. cbn in Hlen. lia.
  - unfold Config.usersTransform. apply List.Forall_forall.
    intros username Hin. apply filter_In in Hin. destruct Hin as [_ Hne].
    apply negb_true_iff in Hne. now apply String.eqb_neq.
  - unfold Config.zString_min in HapiHash.
    destruct (environment "TELEGRAM_API_HASH") as [v|]; [|discriminate].
    destruct (Nat.leb_spec 10 (String_length v)); [|discriminate].
    now injection HapiHash as <-.
  - unfold Config.zString_min in HapiHash.
    destruct (environment "TELEGRAM_API_HASH") as [v|]; [|discriminate].
    destruct (Nat.leb_spec 10 (String_length v)); [|discriminate].
    now injection HapiHash as <-.
  - unfold Config.zPositiveInt in HapiId.
    destruct (environment "TELEGRAM_API_ID") as [v|]; [|discriminate].
    destruct (Number_int v) as [n|]; [|discriminate].
    destruct (Z.ltb_spec 0 n); [|discriminate]. now injection HapiId as <-.
  - apply (zPositiveInt_default_positive Number_int 10 _ _ ltac:(lia) Hpages).
  - apply (zPositiveInt_default_positive Number_int 300 _ _ ltac:(lia) HmaxMedia).
  - apply (zPositiveInt_default_positive Number_int 3300 _ _ ltac:(lia) Httl).
  - apply (zPositiveInt_default_positive Number_int (512 * 1024 * 1024) _ _ ltac:(lia) HmaxBytes).
Qed.

(** The length is counted in UTF-16 code units: five letters of two
    bytes each are five units and fall short of ten, ten of them pass,
    and a character outside the basic plane counts for two. *)
Example zString_min_counts_code_units :
  Config.zString_min 10 (Some "ééééé") = None
  /\ Config.zString_min 10 (Some "éééééééééé") = Some "éééééééééé"
  /\ String_length "😀" = 2%nat.
Proof. repeat split. Qed.

Lemma X19_witness :
  exists config,
    Demo.loadedConfig = Some config
    /\ AppConfig.twitterUsers config = ["alice"; "bob"]
    /\ 0 < AppConfig.maxMediaPerRun config.
Proof.
  assert (Hload : exists config,
            Demo.loadedConfig = Some config
            /\ AppConfig.twitterUsers config = ["alice"; "bob"]).
  { eexists. split; vm_compute; reflexivity. }
  destruct Hload as (config & Hload & Husers).
  exists config. split; [exact Hload|]. split; [exact Husers|].
  destruct (X19_loadConfig_validated Demo.String_trim Demo.Number_int
              Demo.parseCookies Demo.environment config Hload)
    as (_ & _ & _ & _ & _ & _ & [Hmax _] & _).
  exact Hmax.
Defined.

(* ===================================================================== *)
(** * Properties of the source adapter *)
(* ===================================================================== *)

Lemma truthy_spec value :
  TwitterAdapter.truthy value = true
  <-> exists text, value = Some text /\ text <> "".
Proof.
  destruct value as [text|]; cbn [TwitterAdapter.truthy].
  - rewrite negb_true_iff, String.eqb_neq. split.
    + intros Hne. now exists text.
    + intros (t & Heq & Hne). now injection Heq as ->.
  - split; [discriminate | intros (t & Heq & _); discriminate].
Qed.

(** The loop over the variants, from any values of its two variables. *)
Lemma bestVariant_loop variants : forall bestUrl bestBitrate,
  let chosen := TwitterAdapter.bestVariant variants bestUrl bestBitrate in
  bestBitrate <= snd chosen
  /\ Forall (fun variant =>
               eligibleVariant variant = true ->
               default 0 (TwitterAdapter.Variant.bitrate variant) <= snd chosen)
            variants
  /\ ((fst chosen = bestUrl /\ snd chosen = bestBitrate
       /\ Forall (fun variant =>
                    eligibleVariant variant = true ->
                    default 0 (TwitterAdapter.Variant.bitrate variant) < bestBitrate)
                 variants)
      \/ exists before variant after,
           variants = (before ++ variant :: after)%list
           /\ eligibleVariant variant = true
           /\ fst chosen = TwitterAdapter.Variant.url variant
           /\ snd chosen = default 0 (TwitterAdapter.Variant.bitrate variant)
           /\ Forall (fun later =>
                        eligibleVariant later = true ->
                        default 0 (TwitterAdapter.Variant.bitrate later)
                        < snd chosen)
                     after).
Proof.
  induction variants as [|variant rest IH]; intros bestUrl bestBitrate;
    cbn [TwitterAdapter.bestVariant].
  - cbn. split; [lia|]. split; [constructor|]. left. repeat split. constructor.
  - unfold eligibleVariant at 1 3.
    destruct (TwitterAdapter.truthy (TwitterAdapter.Variant.url variant)) eqn:Hurl;
      cbn [negb andb].
    2:{ destruct (IH bestUrl bestBitrate) as (Hle & Hall & Hchoice).
        cbv zeta in *. split; [exact Hle|]. split.
        - constructor; [unfold eligibleVariant; rewrite Hurl; discriminate|].
          exact Hall.
        - destruct Hchoice as [(Hu & Hb & Hnone) | (before & v & after & -> & Hrest)].
          + left. split; [exact Hu|]. split; [exact Hb|].
            constructor; [|exact Hnone].
            unfold eligibleVariant. rewrite Hurl. discriminate.
          + right. exists (variant :: before), v, after. now split. }
    destruct (TwitterAdapter.truthy (TwitterAdapter.Variant.content_type variant)
              && negb (Errors.occursIn "mp4"
                         (default "" (TwitterAdapter.Variant.content_type variant))))
      eqn:Htype; cbn [negb].
    { destruct (IH bestUrl bestBitrate) as (Hle & Hall & Hchoice).
      cbv zeta in *. split; [exact Hle|]. split.
      - constructor; [unfold eligibleVariant; rewrite Hurl, Htype; discriminate|].
        exact Hall.
      - destruct Hchoice as [(Hu & Hb & Hnone) | (before & v & after & -> & Hrest)].
        + left. split; [exact Hu|]. split; [exact Hb|].
          constructor; [|exact Hnone].
          unfold eligibleVariant. rewrite Hurl, Htype. discriminate.
        + right. exists (variant :: before), v, after. now split. }
    destruct (Z.geb_spec (default 0 (TwitterAdapter.Variant.bitrate variant))
                bestBitrate) as [Hge|Hlt].
    + destruct (IH (TwitterAdapter.Variant.url variant)
                   (default 0 (TwitterAdapter.Variant.bitrate variant)))
        as (Hle & Hall & Hchoice).
      cbv zeta in *. split; [lia|]. split.
      * constructor; [intros _; exact Hle | exact Hall].
      * right.
        destruct Hchoice as [(Hu & Hb & Hnone) | (before & v & after & -> & Hrest)].
        -- exists [], variant, rest. cbn [app]. split; [reflexivity|].
           split; [unfold eligibleVariant; now rewrite Hurl, Htype|].
           split; [exact Hu|]. split; [exact Hb|]. now rewrite Hb.
        -- exists (variant :: before), v, after. now split.
    + destruct (IH bestUrl bestBitrate) as (Hle & Hall & Hchoice).
      cbv zeta in *. split; [exact Hle|]. split.
      * constructor; [intros _; lia | exact Hall].
      * destruct Hchoice as [(Hu & Hb & Hnone) | (before & v & after & -> & Hrest)].
        -- left. split; [exact Hu|]. split; [exact Hb|].
           constructor; [intros _; exact Hlt | exact Hnone].
        -- right. exists (variant :: before), v, after. now split.
Qed.

(** X20.  The variant [normalizeMedia] picks for a video or an animated
    gif: among the variants that have a url and whose content type, if
    any, mentions mp4, the one with the highest bitrate (a missing
    bitrate counts as 0), and the last of them when several have it.  No
    url is picked exactly when no such variant has a bitrate of -1 or
    more. *)
Theorem X20_bestVariant (variants : list TwitterAdapter.Variant.t) :
  let chosen := TwitterAdapter.bestVariant variants None (-1) in
  let tooLow variant :=
    eligibleVariant variant = true ->
    default 0 (TwitterAdapter.Variant.bitrate variant) < -1 in
  (fst chosen = None <-> Forall tooLow variants)
  /\ ((fst chosen = None /\ Forall tooLow variants)
      \/ exists before variant after,
           variants = (before ++ variant :: after)%list
           /\ eligibleVariant variant = true
           /\ TwitterAdapter.truthy (fst chosen) = true
           /\ fst chosen = TwitterAdapter.Variant.url variant
           /\ snd chosen = default 0 (TwitterAdapter.Variant.bitrate variant)
           /\ -1 <= snd chosen
           /\ Forall (fun other =>
                        eligibleVariant other = true ->
                        default 0 (TwitterAdapter.Variant.bitrate other)
                        <= snd chosen)
                     variants
           /\ Forall (fun later =>
                        eligibleVariant later = true ->
                        default 0 (TwitterAdapter.Variant.bitrate later)
                        < snd chosen)
                     after).
Proof.
  intros chosen tooLow. subst chosen tooLow.
  destruct (bestVariant_loop variants None (-1)) as (Hlow & Hall & Hchoice).
  cbv zeta in *.
  destruct Hchoice as [(Hu & _ & Hnone)
                      | (before & v & after & Hsplit & Helig & Hu & Hb & Hlater)].
  - split; [now split|]. left. now split.
  - assert (Htruthy : TwitterAdapter.truthy
                        (fst (TwitterAdapter.bestVariant variants None (-1)))
                      = true).
    { rewrite Hu. unfold eligibleVariant in Helig.
      now apply andb_true_iff in Helig. }
    split.
    + split.
      * intros Hnone. rewrite Hnone in Htruthy. discriminate.
      * intros Hnone. rewrite List.Forall_forall in Hnone.
        assert (Hin : In v variants) by (rewrite Hsplit; apply in_elt).
        specialize (Hnone v Hin Helig). lia.
    + right. exists before, v, after. repeat split; auto.
Qed.

Lemma normalizeItem_media item :
  Forall (fun media => TweetMedia.id media <> "" /\ TweetMedia.url media <> "")
         (TwitterAdapter.normalizeItem item).
Proof.
  unfold TwitterAdapter.normalizeItem.
  destruct (TwitterAdapter.truthy (TwitterAdapter.RawMedia.id_str item)) eqn:Hid;
    [|constructor].
  destruct (TwitterAdapter.truthy (TwitterAdapter.RawMedia.type item)) eqn:Htype;
    [|constructor].
  cbn [negb orb]. apply truthy_spec in Hid. destruct Hid as (id & -> & Hid).
  cbn [default].
  destruct (String.eqb _ "photo"
            && TwitterAdapter.truthy (TwitterAdapter.RawMedia.media_url_https item))
    eqn:Hphoto.
  - apply andb_true_iff in Hphoto. destruct Hphoto as [_ Hurl].
    apply truthy_spec in Hurl. destruct Hurl as (mediaUrl & -> & Hurl).
    constructor; [now split | constructor].
  - destruct (String.eqb _ "video" || String.eqb _ "animated_gif"); [|constructor].
    destruct (TwitterAdapter.RawMedia.variants item) as [variants|]; [|constructor].
    destruct (TwitterAdapter.truthy (fst (TwitterAdapter.bestVariant variants None (-1))))
      eqn:Hbest; [|constructor].
    apply truthy_spec in Hbest. destruct Hbest as (bestUrl & -> & Hbest).
    constructor; [now split | constructor].
Qed.

Lemma normalizeMedia_post raw usernameHint now :
  match TwitterAdapter.normalizeMedia raw usernameHint now with
  | inr (Some tweet) => wellFormedPost tweet
  | inr None => True
  | inl error => error = RangeError_invalid_time
  end.
Proof.
  unfold TwitterAdapter.normalizeMedia.
  destruct (TwitterAdapter.legacy raw) as [legacy_|]; [|exact Logic.I].
  match goal with
  | |- context [TwitterAdapter.truthy ?tweetId] =>
      destruct (TwitterAdapter.truthy tweetId) eqn:Hid; [|exact Logic.I];
      apply truthy_spec in Hid; destruct Hid as (id & -> & Hid)
  end.
  cbn [negb default].
  set (media := List.concat
                  (List.map TwitterAdapter.normalizeItem
                     (default [] (TwitterAdapter.Legacy.media legacy_)))).
  assert (Hmedia : Forall (fun m => TweetMedia.id m <> "" /\ TweetMedia.url m <> "")
                          media).
  { subst media. apply List.Forall_concat. apply List.Forall_map.
    apply List.Forall_forall. intros item _. apply normalizeItem_media. }
  destruct (Nat.eqb_spec (length media) 0) as [Hnone|Hsome]; [exact Logic.I|].
  assert (Hwell : forall postedAt,
            (exists ms, postedAt = ParsesTo ms) ->
            wellFormedPost
              (MediaTweet.mk id (default usernameHint (TwitterAdapter.screen_name raw))
                 (default "" (TwitterAdapter.Legacy.full_text legacy_))
                 ("https://x.com/"
                  +:+ default usernameHint (TwitterAdapter.screen_name raw)
                  +:+ "/status/" +:+ id)
                 postedAt media)).
  { intros postedAt Hdate. unfold wellFormedPost. cbn.
    split; [exact Hid|]. split; [now destruct media|]. now split. }
  assert (Hiso : forall n,
            match toISOString n with
            | inl error => error = RangeError_invalid_time
            | inr postedAt => exists ms, postedAt = ParsesTo ms
            end).
  { intros [ms|]; cbn; [|reflexivity].
    destruct (inDateRangeb ms); [now exists ms | reflexivity]. }
  destruct (TwitterAdapter.Legacy.created_at legacy_) as [created_at|].
  - destruct (DateText_truthy created_at).
    + specialize (Hiso (Date_getTime created_at)).
      destruct (toISOString (Date_getTime created_at)); [exact Hiso|].
      now apply Hwell.
    + apply Hwell. now exists now.
  - apply Hwell. now exists now.
Qed.

Lemma normalizeCandidates_posts candidates username now : forall tweets,
  Forall wellFormedPost tweets ->
  match TwitterAdapter.normalizeCandidates candidates username now tweets with
  | inr tweets' => Forall wellFormedPost tweets'
  | inl error => error = RangeError_invalid_time
  end.
Proof.
  induction candidates as [|candidate rest IH]; intros tweets Hall;
    cbn [TwitterAdapter.normalizeCandidates]; [exact Hall|].
  destruct (TwitterAdapter.getTweetResultFromContent candidate) as [result|];
    [|now apply IH].
  pose proof (normalizeMedia_post result username now) as Hpost.
  destruct (TwitterAdapter.normalizeMedia result username now)
    as [error|[normalized|]]; [exact Hpost | | now apply IH].
  apply IH. apply Forall_app. split; [exact Hall|]. now constructor.
Qed.

Lemma extractBottomCursor_truthy entryId content :
  TwitterAdapter.extractBottomCursor entryId content = None
  \/ TwitterAdapter.truthy (TwitterAdapter.extractBottomCursor entryId content)
     = true.
Proof.
  unfold TwitterAdapter.extractBottomCursor.
  repeat match goal with
         | |- context [if ?b then _ else _] =>
             let Hb := fresh "Hb" in
             destruct b eqn:Hb;
             try (apply andb_true_iff in Hb; destruct Hb as [_ Hb])
         end; auto.
Qed.

Lemma parseEntries_posts entries username now : forall parsed,
  Forall wellFormedPost (TwitterAdapter.ParsedTimeline.tweets parsed) ->
  (TwitterAdapter.ParsedTimeline.nextCursor parsed = None
   \/ TwitterAdapter.truthy (TwitterAdapter.ParsedTimeline.nextCursor parsed) = true) ->
  match TwitterAdapter.parseEntries entries username now parsed with
  | inr parsed' =>
      Forall wellFormedPost (TwitterAdapter.ParsedTimeline.tweets parsed')
      /\ (TwitterAdapter.ParsedTimeline.nextCursor parsed' = None
          \/ TwitterAdapter.truthy (TwitterAdapter.ParsedTimeline.nextCursor parsed')
             = true)
  | inl error => error = RangeError_invalid_time
  end.
Proof.
  induction entries as [|entry rest IH]; intros parsed Hall Hcursor;
    cbn [TwitterAdapter.parseEntries]; [now split|].
  destruct (TwitterAdapter.TimelineEntry.content entry) as [content|];
    [|now apply IH].
  pose proof (normalizeCandidates_posts (TwitterAdapter.entryCandidates content)
                username now _ Hall) as Hposts.
  destruct (TwitterAdapter.normalizeCandidates _ username now _) as [error|tweets];
    [exact Hposts|].
  apply IH; cbn [TwitterAdapter.ParsedTimeline.tweets
                 TwitterAdapter.ParsedTimeline.nextCursor]; [exact Hposts|].
  destruct (TwitterAdapter.truthy
              (TwitterAdapter.extractBottomCursor
                 (TwitterAdapter.TimelineEntry.entryId entry) content)) eqn:Hc;
    [now right | exact Hcursor].
Qed.

Lemma parseInstructions_posts instructions username now : forall parsed,
  Forall wellFormedPost (TwitterAdapter.ParsedTimeline.tweets parsed) ->
  (TwitterAdapter.ParsedTimeline.nextCursor parsed = None
   \/ TwitterAdapter.truthy (TwitterAdapter.ParsedTimeline.nextCursor parsed) = true) ->
  match TwitterAdapter.parseInstructions instructions username now parsed with
  | inr parsed' =>
      Forall wellFormedPost (TwitterAdapter.ParsedTimeline.tweets parsed')
      /\ (TwitterAdapter.ParsedTimeline.nextCursor parsed' = None
          \/ TwitterAdapter.truthy (TwitterAdapter.ParsedTimeline.nextCursor parsed')
             = true)
  | inl error => error = RangeError_invalid_time
  end.
Proof.
  induction instructions as [|instruction rest IH]; intros parsed Hall Hcursor;
    cbn [TwitterAdapter.parseInstructions]; [now split|].
  pose proof (parseEntries_posts (default [] instruction) username now parsed
                Hall Hcursor) as Hentries.
  destruct (TwitterAdapter.parseEntries _ username now parsed) as [error|parsed'];
    [exact Hentries|].
  now apply IH.
Qed.

Lemma parseTimeline_posts instructions username now :
  match TwitterAdapter.parseTimeline instructions username now with
  | inr parsed =>
      Forall wellFormedPost (TwitterAdapter.ParsedTimeline.tweets parsed)
      /\ TwitterAdapter.ParsedTimeline.nextCursor parsed <> Some ""
  | inl error => error = RangeError_invalid_time
  end.
Proof.
  unfold TwitterAdapter.parseTimeline.
  pose proof (parseInstructions_posts (default [] instructions) username now
                (TwitterAdapter.ParsedTimeline.mk [] None)
                (List.Forall_nil _) (or_introl eq_refl)) as Hparsed.
  destruct (TwitterAdapter.parseInstructions _ username now _) as [error|parsed];
    [exact Hparsed|].
  destruct Hparsed as [Hposts Hcursor]. split; [exact Hposts|].
  intros Hempty. rewrite Hempty in Hcursor.
  destruct Hcursor as [Hnone|Htruthy]; discriminate.
Qed.

(** X21.  What [parseTimeline] delivers: every post has an id and at
    least one media, every media has an id and a url, the address of
    the post is its status page, and its date is one that
    [toISOString] printed; the next cursor is never the empty text.
    The only error it throws is the [RangeError] of a [created_at] that
    is not a date; an answer without instructions parses to no post and
    no cursor. *)
Theorem X21_parseTimeline_posts
    (instructions : option (list TwitterAdapter.TimelineInstruction))
    (username : string) (now : Z) :
  match TwitterAdapter.parseTimeline instructions username now with
  | inr parsed =>
      Forall wellFormedPost (TwitterAdapter.ParsedTimeline.tweets parsed)
      /\ TwitterAdapter.ParsedTimeline.nextCursor parsed <> Some ""
  | inl error => error = RangeError_invalid_time
  end
  /\ TwitterAdapter.parseTimeline None username now
     = inr (TwitterAdapter.ParsedTimeline.mk [] None)
  /\ TwitterAdapter.parseTimeline (Some []) username now
     = inr (TwitterAdapter.ParsedTimeline.mk [] None).
Proof.
  split; [apply parseTimeline_posts | split; reflexivity].
Qed.

Example parseTimeline_picks_the_best_variant :
  TwitterAdapter.parseTimeline DemoTimeline.instructions "bob" 0
  = inr (TwitterAdapter.ParsedTimeline.mk
           [MediaTweet.mk "42" "alice" "hello" "https://x.com/alice/status/42"
              (ParsesTo 1700000000000)
              [TweetMedia.mk "m1" "https://img/42.jpg" photo;
               TweetMedia.mk "m2" "https://vid/42-high.mp4" video]]
           (Some "next-1")).
Proof. reflexivity. Qed.

Section Requests.
Variable payloadSnippet : string -> string.
Variables authCandidateCount bearerTokenCount : nat.

Lemma getHostOrder_cases c :
  TwitterAdapter.getHostOrder c
  = [TwitterAdapter.twitter_com; TwitterAdapter.x_com]
  \/ TwitterAdapter.getHostOrder c
     = [TwitterAdapter.x_com; TwitterAdapter.twitter_com].
Proof.
  unfold TwitterAdapter.getHostOrder.
  destruct (TwitterAdapter.preferredHost c) as [[|]|]; cbn; auto.
Qed.

Lemma getHostOrder_preferred c host :
  TwitterAdapter.preferredHost c = Some host ->
  exists other, TwitterAdapter.getHostOrder c = [host; other] /\ other <> host.
Proof.
  unfold TwitterAdapter.getHostOrder. intros ->.
  destruct host; cbn; eexists; split; try reflexivity; discriminate.
Qed.

(** What a request does to the client: one more request in the log, one
    more moment, nothing else. *)
Lemma fetchGraphql_client {T} (request : TwitterAdapter.Request T) host c :
  snd (TwitterAdapter.fetchGraphql payloadSnippet request host c)
  = TwitterAdapter.mkClient (TwitterAdapter.preferredHost c)
      (TwitterAdapter.authCandidateIndex c) (TwitterAdapter.bearerTokenIndex c)
      (S (TwitterAdapter.moment c))
      ((host, TwitterAdapter.authCandidateIndex c, TwitterAdapter.bearerTokenIndex c)
       :: TwitterAdapter.requests c).
Proof.
  unfold TwitterAdapter.fetchGraphql.
  destruct (request _ _ _ _) as [error|response]; [reflexivity|].
  cbv zeta. destruct (negb _); [reflexivity|].
  destruct (TwitterAdapter.truthy _); reflexivity.
Qed.

(** An answer with status 429 that is not ok. *)
Lemma fetchGraphql_429 {T} (request : TwitterAdapter.Request T) host c response :
  request (TwitterAdapter.moment c) host (TwitterAdapter.authCandidateIndex c)
    (TwitterAdapter.bearerTokenIndex c) = inr response ->
  TwitterAdapter.GraphqlResponse.ok response = false ->
  TwitterAdapter.GraphqlResponse.status response = 429 ->
  exists code detail,
    fst (TwitterAdapter.fetchGraphql payloadSnippet request host c)
    = inl (TwitterAdapter.TwitterGraphqlRequestError host 429 code
             ("Twitter GraphQL request failed on " +:+ TwitterAdapter.hostName host
              +:+ " (429): " +:+ detail)).
Proof.
  intros Hanswer Hok Hstatus. unfold TwitterAdapter.fetchGraphql.
  rewrite Hanswer. cbv zeta. rewrite Hok, Hstatus. cbn [negb fst].
  eexists _, _. reflexivity.
Qed.

Lemma lowerString_app a b :
  Errors.lowerString (a +:+ b) = Errors.lowerString a +:+ Errors.lowerString b.
Proof.
  induction a as [|c a IH]; [reflexivity|].
  change (Errors.lowerString (String c (a +:+ b))
          = String (Errors.lowerAscii c)
              (Errors.lowerString a +:+ Errors.lowerString b)).
  cbn [Errors.lowerString]. now rewrite IH.
Qed.

Lemma string_app_assoc (a b c : string) : (a +:+ b) +:+ c = a +:+ (b +:+ c).
Proof.
  induction a as [|x a IH]; [reflexivity|].
  change (String x ((a +:+ b) +:+ c) = String x (a +:+ (b +:+ c))).
  now rewrite IH.
Qed.

Lemma string_app_nil_r (a : string) : a +:+ "" = a.
Proof.
  induction a as [|x a IH]; [reflexivity|].
  change (String x (a +:+ "") = String x a). now rewrite IH.
Qed.

Lemma matchesRateLimitPattern_inside pre message post :
  Errors.matchesRateLimitPattern message ->
  Errors.matchesRateLimitPattern (pre +:+ message +:+ post).
Proof.
  unfold Errors.matchesRateLimitPattern, Errors.containsLiteral.
  intros [(a & b & Hm) | (a & b & Hm)]; [left | right];
    exists (Errors.lowerString pre +:+ a), (b +:+ Errors.lowerString post);
    rewrite !lowerString_app, Hm, !string_app_assoc; reflexivity.
Qed.

Lemma message_429_matches host detail :
  Errors.matchesRateLimitPattern
    ("Twitter GraphQL request failed on " +:+ TwitterAdapter.hostName host
     +:+ " (429): " +:+ detail).
Proof.
  left. unfold Errors.containsLiteral. rewrite !lowerString_app.
  exists (Errors.lowerString "Twitter GraphQL request failed on "
          +:+ Errors.lowerString (TwitterAdapter.hostName host) +:+ " "),
    (": " +:+ Errors.lowerString detail).
  rewrite !string_app_assoc. reflexivity.
Qed.

Lemma joinWith_inside separator message messages :
  In message messages ->
  exists pre post,
    TwitterAdapter.joinWith separator messages = pre +:+ message +:+ post.
Proof.
  induction messages as [|m rest IH]; [intros []|].
  intros [-> | Hin].
  - destruct rest as [|m' rest'].
    + exists "", "". change (message = message +:+ "").
      now rewrite string_app_nil_r.
    + exists "", (separator +:+ TwitterAdapter.joinWith separator (m' :: rest')).
      reflexivity.
  - destruct (IH Hin) as (pre & post & Hjoin).
    destruct rest as [|m' rest']; [destruct Hin|].
    exists (m +:+ separator +:+ pre), post.
    change (TwitterAdapter.joinWith separator (m :: m' :: rest'))
      with (m +:+ separator +:+ TwitterAdapter.joinWith separator (m' :: rest')).
    rewrite Hjoin, !string_app_assoc. reflexivity.
Qed.

Lemma failedOnAllHosts_matches messages message :
  In message messages ->
  Errors.matchesRateLimitPattern message ->
  Errors.matchesRateLimitPattern (TwitterAdapter.failedOnAllHosts messages).
Proof.
  intros Hin Hmatch. unfold TwitterAdapter.failedOnAllHosts.
  destruct (joinWith_inside " | " message messages Hin) as (pre & post & ->).
  rewrite <- string_app_assoc.
  now apply matchesRateLimitPattern_inside.
Qed.

End Requests.

Section Failover.
Variable payloadSnippet : string -> string.
Variables authCandidateCount bearerTokenCount : nat.
Context {T : Type}.
Variable request : TwitterAdapter.Request T.

(** The loop over the hosts: what it does to the client. *)
Lemma tryHosts_client hosts : forall a c,
  let out := TwitterAdapter.tryHosts payloadSnippet request hosts a c in
  TwitterAdapter.authCandidateIndex (snd out) = TwitterAdapter.authCandidateIndex c
  /\ TwitterAdapter.bearerTokenIndex (snd out) = TwitterAdapter.bearerTokenIndex c
  /\ exists made,
       TwitterAdapter.requests (snd out) = (made ++ TwitterAdapter.requests c)%list
       /\ TwitterAdapter.moment (snd out)
          = (TwitterAdapter.moment c + length made)%nat
       /\ (length made <= length hosts)%nat
       /\ match fst (fst out) with
          | None =>
              TwitterAdapter.preferredHost (snd out) = TwitterAdapter.preferredHost c
              /\ made
                 = rev (List.map
                          (fun host => (host, TwitterAdapter.authCandidateIndex c,
                                        TwitterAdapter.bearerTokenIndex c))
                          hosts)
          | Some (_, host) =>
              TwitterAdapter.preferredHost (snd out) = Some host
              /\ exists earlier,
                   made = (host, TwitterAdapter.authCandidateIndex c,
                           TwitterAdapter.bearerTokenIndex c) :: earlier
          end
       /\ (forall first rest, hosts = first :: rest ->
           exists later,
             made = (later ++ [(first, TwitterAdapter.authCandidateIndex c,
                                TwitterAdapter.bearerTokenIndex c)])%list).
Proof.
  induction hosts as [|host rest IH]; intros a c; cbn [TwitterAdapter.tryHosts].
  - cbn. split; [reflexivity|]. split; [reflexivity|]. exists [].
    cbn. rewrite Nat.add_0_r. repeat split; auto. discriminate.
  - pose proof (fetchGraphql_client payloadSnippet request host c) as Hclient.
    destruct (TwitterAdapter.fetchGraphql payloadSnippet request host c)
      as [[error|[payload status]] requested]; cbn [snd] in Hclient; subst requested.
    + match goal with
      | |- context [TwitterAdapter.tryHosts _ _ rest ?a' ?c'] =>
          destruct (IH a' c') as (Hauth & Hbearer & made & Hreq & Hmoment & Hlen
                                  & Hresult & _)
      end.
      cbv zeta in *.
      cbn [TwitterAdapter.authCandidateIndex TwitterAdapter.bearerTokenIndex
           TwitterAdapter.requests TwitterAdapter.moment
           TwitterAdapter.preferredHost] in Hauth, Hbearer, Hreq, Hmoment, Hresult.
      split; [exact Hauth|]. split; [exact Hbearer|].
      exists (made ++ [(host, TwitterAdapter.authCandidateIndex c,
                        TwitterAdapter.bearerTokenIndex c)])%list.
      rewrite <- app_assoc. cbn [app]. split; [exact Hreq|].
      rewrite length_app. cbn [length]. split; [lia|]. split; [lia|]. split.
      * destruct (fst (fst _)) as [[payload' host']|].
        -- destruct Hresult as [Hpref [earlier ->]]. split; [exact Hpref|].
           eexists. reflexivity.
        -- destruct Hresult as [Hpref Hall]. split; [exact Hpref|].
           cbn [List.map rev]. now rewrite Hall.
      * intros first rest' Heq. injection Heq as <- <-. now exists made.
    + cbn. split; [reflexivity|]. split; [reflexivity|].
      exists [(host, TwitterAdapter.authCandidateIndex c,
               TwitterAdapter.bearerTokenIndex c)].
      cbn. split; [reflexivity|]. split; [lia|]. split; [lia|]. split.
      * split; [reflexivity|]. now exists [].
      * intros first rest' Heq. injection Heq as <- <-. now exists [].
Qed.

(** The loop over the hosts only adds to the error messages. *)
Lemma tryHosts_errors hosts : forall a c,
  exists added,
    TwitterAdapter.errors
      (snd (fst (TwitterAdapter.tryHosts payloadSnippet request hosts a c)))
    = (TwitterAdapter.errors a ++ added)%list.
Proof.
  induction hosts as [|host rest IH]; intros a c; cbn [TwitterAdapter.tryHosts].
  - exists []. cbn. now rewrite app_nil_r.
  - destruct (TwitterAdapter.fetchGraphql payloadSnippet request host c)
      as [[error|[payload status]] requested].
    + match goal with
      | |- context [TwitterAdapter.tryHosts _ _ rest ?a' ?c'] =>
          destruct (IH a' c') as [added ->]
      end.
      cbn [TwitterAdapter.errors]. eexists. rewrite <- app_assoc. reflexivity.
    + exists []. cbn. now rewrite app_nil_r.
Qed.

(** A host that answers 429 leaves a message that the rate-limit
    pattern matches, whenever the loop ends without an answer. *)
Lemma tryHosts_limited_host limited hosts : forall a c,
  (forall t auth bearer, exists response,
     request t limited auth bearer = inr response
     /\ TwitterAdapter.GraphqlResponse.ok response = false
     /\ TwitterAdapter.GraphqlResponse.status response = 429) ->
  In limited hosts ->
  fst (fst (TwitterAdapter.tryHosts payloadSnippet request hosts a c)) = None ->
  exists message,
    In message
       (TwitterAdapter.errors
          (snd (fst (TwitterAdapter.tryHosts payloadSnippet request hosts a c))))
    /\ Errors.matchesRateLimitPattern message.
Proof.
  intros a c Hlimited. revert a c.
  induction hosts as [|host rest IH]; intros a c Hin; [destruct Hin|].
  cbn [TwitterAdapter.tryHosts].
  destruct (TwitterAdapter.fetchGraphql payloadSnippet request host c)
    as [[error|[payload status]] requested] eqn:Hfetch; [|discriminate].
  destruct Hin as [-> | Hin].
  - intros _.
    destruct (Hlimited (TwitterAdapter.moment c)
                (TwitterAdapter.authCandidateIndex c)
                (TwitterAdapter.bearerTokenIndex c))
      as (response & Hanswer & Hok & Hstatus).
    destruct (fetchGraphql_429 payloadSnippet request limited c response
                Hanswer Hok Hstatus) as (code & detail & Herror).
    rewrite Hfetch in Herror. cbn [fst] in Herror. injection Herror as ->.
    match goal with
    | |- context [TwitterAdapter.tryHosts _ _ rest ?a' ?c'] =>
        destruct (tryHosts_errors rest a' c') as [added ->]
    end.
    cbn [TwitterAdapter.errors TwitterAdapter.fetchErrorMessage].
    eexists. split.
    + apply in_app_iff. left. apply in_app_iff. right. now left.
    + apply message_429_matches.
  - now apply IH.
Qed.

(** When every host answers 429, the loop ends without an answer and
    with every host in the set of rate limited hosts. *)
Lemma tryHosts_all_limited hosts : forall a c,
  (forall t host auth bearer, exists response,
     request t host auth bearer = inr response
     /\ TwitterAdapter.GraphqlResponse.ok response = false
     /\ TwitterAdapter.GraphqlResponse.status response = 429) ->
  NoDup hosts ->
  (forall host, In host hosts -> ~ In host (TwitterAdapter.rateLimitedHosts a)) ->
  let out := TwitterAdapter.tryHosts payloadSnippet request hosts a c in
  fst (fst out) = None
  /\ TwitterAdapter.rateLimitedHosts (snd (fst out))
     = (TwitterAdapter.rateLimitedHosts a ++ hosts)%list.
Proof.
  intros a c Hlimited. revert a c.
  induction hosts as [|host rest IH]; intros a c Hnd Hfresh;
    cbn [TwitterAdapter.tryHosts].
  - cbn. now rewrite app_nil_r.
  - destruct (Hlimited (TwitterAdapter.moment c) host
                (TwitterAdapter.authCandidateIndex c)
                (TwitterAdapter.bearerTokenIndex c))
      as (response & Hanswer & Hok & Hstatus).
    destruct (fetchGraphql_429 payloadSnippet request host c response
                Hanswer Hok Hstatus) as (code & detail & Herror).
    destruct (TwitterAdapter.fetchGraphql payloadSnippet request host c)
      as [outcome requested]. cbn [fst] in Herror. subst outcome.
    cbn [TwitterAdapter.fetchErrorMessage TwitterAdapter.isRateLimitError].
    rewrite Z.eqb_refl. cbn [orb].
    apply NoDup_cons in Hnd. destruct Hnd as [Hnotin Hnd].
    rewrite list_elem_of_In in Hnotin.
    assert (Hadd : TwitterAdapter.Set_add host (TwitterAdapter.rateLimitedHosts a)
                   = (TwitterAdapter.rateLimitedHosts a ++ [host])%list).
    { unfold TwitterAdapter.Set_add.
      destruct (existsb _ _) eqn:Hex; [|reflexivity].
      apply existsb_exists in Hex. destruct Hex as (h & Hh & Heq).
      assert (h = host) by (destruct host, h; (reflexivity || discriminate)).
      subst h. destruct (Hfresh host (or_introl eq_refl) Hh). }
    rewrite Hadd.
    match goal with
    | |- context [TwitterAdapter.tryHosts _ _ rest ?a' ?c'] =>
        destruct (IH a' c' Hnd) as [Hnone Hall]
    end.
    { cbn [TwitterAdapter.rateLimitedHosts]. intros h Hh Hin.
      apply in_app_iff in Hin. destruct Hin as [Hin | [<- | []]].
      - apply (Hfresh h); [now right | exact Hin].
      - contradiction. }
    cbv zeta in *. split; [exact Hnone|].
    rewrite Hall. cbn [TwitterAdapter.rateLimitedHosts].
    now rewrite <- app_assoc.
Qed.

End Failover.

Section Attempts.
Variable payloadSnippet : string -> string.
Variables authCandidateCount bearerTokenCount : nat.
Context {T : Type}.
Variable request : TwitterAdapter.Request T.

Lemma getHostOrder_length c : length (TwitterAdapter.getHostOrder c) = 2%nat.
Proof. now destruct (getHostOrder_cases c) as [-> | ->]. Qed.

(** What the attempts do to the client. *)
Lemma attempts_client rounds : forall messages c,
  let out :=
    TwitterAdapter.attempts payloadSnippet authCandidateCount bearerTokenCount
      request rounds messages c in
  exists made,
    TwitterAdapter.requests (snd out) = (made ++ TwitterAdapter.requests c)%list
    /\ TwitterAdapter.moment (snd out) = (TwitterAdapter.moment c + length made)%nat
    /\ (length made <= 2 * rounds)%nat
    /\ (TwitterAdapter.authCandidateIndex c
        <= TwitterAdapter.authCandidateIndex (snd out))%nat
    /\ (TwitterAdapter.bearerTokenIndex c
        <= TwitterAdapter.bearerTokenIndex (snd out))%nat
    /\ (TwitterAdapter.authCandidateIndex (snd out)
        + TwitterAdapter.bearerTokenIndex (snd out)
        <= TwitterAdapter.authCandidateIndex c
           + TwitterAdapter.bearerTokenIndex c + rounds)%nat
    /\ ((TwitterAdapter.authCandidateIndex c < authCandidateCount)%nat ->
        (TwitterAdapter.authCandidateIndex (snd out) < authCandidateCount)%nat)
    /\ ((TwitterAdapter.bearerTokenIndex c < bearerTokenCount)%nat ->
        (TwitterAdapter.bearerTokenIndex (snd out) < bearerTokenCount)%nat)
    /\ match fst out with
       | inr (_, host) =>
           TwitterAdapter.preferredHost (snd out) = Some host
           /\ exists auth bearer earlier, made = (host, auth, bearer) :: earlier
       | inl _ =>
           TwitterAdapter.preferredHost (snd out) = TwitterAdapter.preferredHost c
       end
    /\ (rounds <> 0%nat ->
        exists first others later,
          TwitterAdapter.getHostOrder c = first :: others
          /\ made = (later ++ [(first, TwitterAdapter.authCandidateIndex c,
                                TwitterAdapter.bearerTokenIndex c)])%list).
Proof.
  induction rounds as [|rounds IH]; intros messages c;
    cbn [TwitterAdapter.attempts].
  - exists []. cbn. rewrite Nat.add_0_r. repeat split; auto; lia.
  - pose proof (tryHosts_client payloadSnippet request
                  (TwitterAdapter.getHostOrder c)
                  (TwitterAdapter.mkAttempt messages false []) c) as Htry.
    pose proof (getHostOrder_length c) as Hlen.
    destruct (TwitterAdapter.tryHosts payloadSnippet request
                (TwitterAdapter.getHostOrder c)
                (TwitterAdapter.mkAttempt messages false []) c)
      as [[result a] tried].
    cbv zeta in Htry. cbn [fst snd] in Htry.
    destruct Htry as (Hauth & Hbearer & made & Hreq & Hmoment & Hmade & Hresult
                      & Hfirst).
    assert (Hhead : exists first others later,
              TwitterAdapter.getHostOrder c = first :: others
              /\ made = (later ++ [(first, TwitterAdapter.authCandidateIndex c,
                                    TwitterAdapter.bearerTokenIndex c)])%list).
    { destruct (TwitterAdapter.getHostOrder c) as [|first others] eqn:Horder;
        [discriminate|].
      destruct (Hfirst first others eq_refl) as [later ->].
      now exists first, others, later. }
    assert (Hstop : forall error,
              TwitterAdapter.preferredHost tried = TwitterAdapter.preferredHost c ->
              let out := (@inl JsError (TwitterAdapter.Payload T
                                        * TwitterAdapter.TwitterHost) error, tried) in
              exists made0,
                TwitterAdapter.requests (snd out)
                = (made0 ++ TwitterAdapter.requests c)%list
                /\ TwitterAdapter.moment (snd out)
                   = (TwitterAdapter.moment c + length made0)%nat
                /\ (length made0 <= 2 * S rounds)%nat
                /\ (TwitterAdapter.authCandidateIndex c
                    <= TwitterAdapter.authCandidateIndex (snd out))%nat
                /\ (TwitterAdapter.bearerTokenIndex c
                    <= TwitterAdapter.bearerTokenIndex (snd out))%nat
                /\ (TwitterAdapter.authCandidateIndex (snd out)
                    + TwitterAdapter.bearerTokenIndex (snd out)
                    <= TwitterAdapter.authCandidateIndex c
                       + TwitterAdapter.bearerTokenIndex c + S rounds)%nat
                /\ ((TwitterAdapter.authCandidateIndex c < authCandidateCount)%nat ->
                    (TwitterAdapter.authCandidateIndex (snd out)
                     < authCandidateCount)%nat)
                /\ ((TwitterAdapter.bearerTokenIndex c < bearerTokenCount)%nat ->
                    (TwitterAdapter.bearerTokenIndex (snd out)
                     < bearerTokenCount)%nat)
                /\ match fst out with
                   | inr (_, host) =>
                       TwitterAdapter.preferredHost (snd out) = Some host
                       /\ exists auth bearer earlier,
                            made0 = (host, auth, bearer) :: earlier
                   | inl _ =>
                       TwitterAdapter.preferredHost (snd out)
                       = TwitterAdapter.preferredHost c
                   end
                /\ (S rounds <> 0%nat ->
                    exists first others later,
                      TwitterAdapter.getHostOrder c = first :: others
                      /\ made0
                         = (later ++ [(first, TwitterAdapter.authCandidateIndex c,
                                       TwitterAdapter.bearerTokenIndex c)])%list)).
    { intros error Hpref out. subst out. cbn [fst snd]. exists made.
      rewrite Hauth, Hbearer.
      split; [exact Hreq|]. split; [exact Hmoment|]. split; [lia|].
      split; [lia|]. split; [lia|]. split; [lia|]. split; [auto|]. split; [auto|].
      split; [exact Hpref|]. intros _. exact Hhead. }
    assert (Hagain : forall messages' rotated,
              TwitterAdapter.preferredHost rotated = TwitterAdapter.preferredHost c ->
              TwitterAdapter.requests rotated = TwitterAdapter.requests tried ->
              TwitterAdapter.moment rotated = TwitterAdapter.moment tried ->
              (TwitterAdapter.authCandidateIndex c
               <= TwitterAdapter.authCandidateIndex rotated)%nat ->
              (TwitterAdapter.bearerTokenIndex c
               <= TwitterAdapter.bearerTokenIndex rotated)%nat ->
              (TwitterAdapter.authCandidateIndex rotated
               + TwitterAdapter.bearerTokenIndex rotated
               <= TwitterAdapter.authCandidateIndex c
                  + TwitterAdapter.bearerTokenIndex c + 1)%nat ->
              ((TwitterAdapter.authCandidateIndex c < authCandidateCount)%nat ->
               (TwitterAdapter.authCandidateIndex rotated < authCandidateCount)%nat) ->
              ((TwitterAdapter.bearerTokenIndex c < bearerTokenCount)%nat ->
               (TwitterAdapter.bearerTokenIndex rotated < bearerTokenCount)%nat) ->
              let out :=
                TwitterAdapter.attempts payloadSnippet authCandidateCount
                  bearerTokenCount request rounds messages' rotated in
              exists made0,
                TwitterAdapter.requests (snd out)
                = (made0 ++ TwitterAdapter.requests c)%list
                /\ TwitterAdapter.moment (snd out)
                   = (TwitterAdapter.moment c + length made0)%nat
                /\ (length made0 <= 2 * S rounds)%nat
                /\ (TwitterAdapter.authCandidateIndex c
                    <= TwitterAdapter.authCandidateIndex (snd out))%nat
                /\ (TwitterAdapter.bearerTokenIndex c
                    <= TwitterAdapter.bearerTokenIndex (snd out))%nat
                /\ (TwitterAdapter.authCandidateIndex (snd out)
                    + TwitterAdapter.bearerTokenIndex (snd out)
                    <= TwitterAdapter.authCandidateIndex c
                       + TwitterAdapter.bearerTokenIndex c + S rounds)%nat
                /\ ((TwitterAdapter.authCandidateIndex c < authCandidateCount)%nat ->
                    (TwitterAdapter.authCandidateIndex (snd out)
                     < authCandidateCount)%nat)
                /\ ((TwitterAdapter.bearerTokenIndex c < bearerTokenCount)%nat ->
                    (TwitterAdapter.bearerTokenIndex (snd out)
                     < bearerTokenCount)%nat)
                /\ match fst out with
                   | inr (_, host) =>
                       TwitterAdapter.preferredHost (snd out) = Some host
                       /\ exists auth bearer earlier,
                            made0 = (host, auth, bearer) :: earlier
                   | inl _ =>
                       TwitterAdapter.preferredHost (snd out)
                       = TwitterAdapter.preferredHost c
                   end
                /\ (S rounds <> 0%nat ->
                    exists first others later,
                      TwitterAdapter.getHostOrder c = first :: others
                      /\ made0
                         = (later ++ [(first, TwitterAdapter.authCandidateIndex c,
                                       TwitterAdapter.bearerTokenIndex c)])%list)).
    { intros messages' rotated Hpref Hreq' Hmoment' Ha Hb Hsum Hain Hbin out.
      subst out.
      destruct (IH messages' rotated)
        as (made' & Hreq2 & Hmoment2 & Hmade2 & Ha2 & Hb2 & Hsum2 & Hain2 & Hbin2
            & Hresult2 & _).
      cbv zeta in *.
      destruct Hhead as (first & others & later & Horder & Hlater).
      exists (made' ++ made)%list.
      rewrite Hreq2, Hreq', Hreq, Hmoment2, Hmoment', Hmoment, length_app,
        <- app_assoc.
      split; [reflexivity|]. split; [lia|]. split; [lia|].
      split; [lia|]. split; [lia|]. split; [lia|].
      split; [intros Hin; apply Hain2, Hain, Hin|].
      split; [intros Hin; apply Hbin2, Hbin, Hin|]. split.
      - destruct (fst _) as [error|[payload host]].
        + now rewrite Hresult2.
        + destruct Hresult2 as [Hp (auth & bearer & earlier & ->)].
          split; [exact Hp|]. now exists auth, bearer, (earlier ++ made)%list.
      - intros _. exists first, others, (made' ++ later)%list.
        split; [exact Horder|]. now rewrite Hlater, app_assoc. }
    destruct result as [[payload host]|].
    + destruct Hresult as [Hpref [earlier ->]]. cbn [fst snd].
      exists ((host, TwitterAdapter.authCandidateIndex c,
               TwitterAdapter.bearerTokenIndex c) :: earlier).
      rewrite Hauth, Hbearer.
      split; [exact Hreq|]. split; [exact Hmoment|]. split; [lia|].
      split; [lia|]. split; [lia|]. split; [lia|]. split; [auto|]. split; [auto|].
      split; [split; [exact Hpref | now eexists _, _, _]|].
      intros _. exact Hhead.
    + destruct Hresult as [Hpref Hall].
      destruct (_ =? _)%nat; [now apply Hstop|].
      destruct (TwitterAdapter.sawAuthFailure a); [|now apply Hstop].
      unfold TwitterAdapter.rotateAuthCandidate.
      destruct (Nat.leb_spec authCandidateCount
                  (TwitterAdapter.authCandidateIndex tried + 1)) as [Hlast|Hmore].
      * unfold TwitterAdapter.rotateBearerToken.
        destruct (Nat.leb_spec bearerTokenCount
                    (TwitterAdapter.bearerTokenIndex tried + 1)) as [Hlast'|Hmore'].
        -- now apply Hstop.
        -- apply Hagain;
             cbn [TwitterAdapter.preferredHost TwitterAdapter.requests
                  TwitterAdapter.moment TwitterAdapter.authCandidateIndex
                  TwitterAdapter.bearerTokenIndex];
             auto; lia.
      * apply Hagain;
          cbn [TwitterAdapter.preferredHost TwitterAdapter.requests
               TwitterAdapter.moment TwitterAdapter.authCandidateIndex
               TwitterAdapter.bearerTokenIndex];
          auto; lia.
Qed.

(** Once a message matches the rate-limit pattern, whatever the attempts
    throw matches it. *)
Lemma attempts_matches limited rounds : forall messages c,
  (forall t auth bearer, exists response,
     request t limited auth bearer = inr response
     /\ TwitterAdapter.GraphqlResponse.ok response = false
     /\ TwitterAdapter.GraphqlResponse.status response = 429) ->
  (rounds = 0%nat ->
   exists message, In message messages /\ Errors.matchesRateLimitPattern message) ->
  forall error,
    fst (TwitterAdapter.attempts payloadSnippet authCandidateCount bearerTokenCount
           request rounds messages c) = inl error ->
    Errors.isTwitterRateLimitError_byMessage error = true.
Proof.
  intros messages c Hlimited. revert messages c.
  induction rounds as [|rounds IH]; intros messages c Hmatch error;
    cbn [TwitterAdapter.attempts].
  - cbn [fst]. intros Heq. injection Heq as <-.
    destruct (Hmatch eq_refl) as (message & Hin & Hm).
    apply isTwitterRateLimitError_of_message. cbn [errorMessage].
    now apply (failedOnAllHosts_matches messages message).
  - assert (Hin : In limited (TwitterAdapter.getHostOrder c)).
    { destruct (getHostOrder_cases c) as [-> | ->]; destruct limited; cbn; auto. }
    pose proof (tryHosts_limited_host payloadSnippet request limited
                  (TwitterAdapter.getHostOrder c)
                  (TwitterAdapter.mkAttempt messages false []) c Hlimited Hin)
      as Hfound.
    destruct (TwitterAdapter.tryHosts payloadSnippet request
                (TwitterAdapter.getHostOrder c)
                (TwitterAdapter.mkAttempt messages false []) c)
      as [[result a] tried].
    cbn [fst snd] in Hfound.
    destruct result as [[payload host]|]; [discriminate|].
    destruct (Hfound eq_refl) as (message & Hmessage & Hm).
    assert (Hthrown : forall name,
              Errors.isTwitterRateLimitError_byMessage
                (ErrorObj name (TwitterAdapter.failedOnAllHosts
                                  (TwitterAdapter.errors a))) = true).
    { intros name. apply isTwitterRateLimitError_of_message. cbn [errorMessage].
      now apply (failedOnAllHosts_matches _ message). }
    assert (Hnext : forall extra rotated,
              fst (TwitterAdapter.attempts payloadSnippet authCandidateCount
                     bearerTokenCount request rounds
                     (TwitterAdapter.errors a ++ [extra]) rotated) = inl error ->
              Errors.isTwitterRateLimitError_byMessage error = true).
    { intros extra rotated. apply IH. intros _. exists message.
      split; [apply in_app_iff; now left | exact Hm]. }
    destruct (_ =? _)%nat.
    { cbn [fst]. intros Heq. now injection Heq as <-. }
    destruct (TwitterAdapter.sawAuthFailure a).
    2:{ cbn [fst]. intros Heq. injection Heq as <-. apply Hthrown. }
    destruct (TwitterAdapter.rotateAuthCandidate authCandidateCount tried)
      as [[|] afterAuth]; [apply Hnext|].
    destruct (TwitterAdapter.rotateBearerToken bearerTokenCount afterAuth)
      as [[|] afterBearer]; [apply Hnext|].
    cbn [fst]. intros Heq. injection Heq as <-. apply Hthrown.
Qed.

End Attempts.

(** X22.  Rate limit on every host: when both hosts answer the request
    with status 429, [executeGraphqlWithFallback] throws a
    [TwitterRateLimitError] that names both hosts, after exactly one
    request per host, in the order of the hosts, with the credentials in
    use: nothing is rotated, nothing is retried, and the preferred host
    is as before. *)
Theorem X22_rate_limit_on_every_host (payloadSnippet : string -> string)
    (authCandidateCount bearerTokenCount : nat) {T : Type}
    (request : TwitterAdapter.Request T) (c : TwitterAdapter.Client) :
  (forall t host auth bearer, exists response,
     request t host auth bearer = inr response
     /\ TwitterAdapter.GraphqlResponse.ok response = false
     /\ TwitterAdapter.GraphqlResponse.status response = 429) ->
  exists message,
    TwitterAdapter.executeGraphqlWithFallback payloadSnippet authCandidateCount
      bearerTokenCount request c
    = (inl (TwitterRateLimitError message
              (List.map TwitterAdapter.hostName (TwitterAdapter.getHostOrder c))),
       TwitterAdapter.mkClient (TwitterAdapter.preferredHost c)
         (TwitterAdapter.authCandidateIndex c) (TwitterAdapter.bearerTokenIndex c)
         (S (S (TwitterAdapter.moment c)))
         (rev (List.map
                 (fun host => (host, TwitterAdapter.authCandidateIndex c,
                               TwitterAdapter.bearerTokenIndex c))
                 (TwitterAdapter.getHostOrder c))
          ++ TwitterAdapter.requests c)).
Proof.
  intros Hlimited.
  unfold TwitterAdapter.executeGraphqlWithFallback.
  cbn [TwitterAdapter.attempts].
  assert (Hnd : NoDup (TwitterAdapter.getHostOrder c)).
  { destruct (getHostOrder_cases c) as [-> | ->];
      repeat constructor; rewrite ?list_elem_of_In; cbn; intuition discriminate. }
  pose proof (tryHosts_all_limited payloadSnippet request
                (TwitterAdapter.getHostOrder c)
                (TwitterAdapter.mkAttempt [] false []) c Hlimited Hnd
                (fun _ _ Hin => Hin)) as Hall.
  pose proof (tryHosts_client payloadSnippet request
                (TwitterAdapter.getHostOrder c)
                (TwitterAdapter.mkAttempt [] false []) c) as Hclient.
  destruct (TwitterAdapter.tryHosts payloadSnippet request
              (TwitterAdapter.getHostOrder c)
              (TwitterAdapter.mkAttempt [] false []) c) as [[result a] tried].
  cbv zeta in Hall, Hclient. cbn [fst snd] in Hall, Hclient.
  destruct Hall as [-> Hhosts].
  destruct Hclient as (Hauth & Hbearer & made & Hreq & Hmoment & _ & [Hpref ->] & _).
  cbn [TwitterAdapter.rateLimitedHosts app] in Hhosts. rewrite Hhosts.
  rewrite Nat.eqb_refl. eexists. f_equal.
  rewrite length_rev, length_map, getHostOrder_length in Hmoment.
  destruct tried as [preferred auth bearer moment requests].
  cbn in Hauth, Hbearer, Hreq, Hmoment, Hpref. subst.
  f_equal. lia.
Qed.

Lemma X22_witness :
  fst (TwitterAdapter.executeGraphqlWithFallback (fun text => text) 1 2
         (@DemoTimeline.limited unit) DemoTimeline.client)
  = inl (TwitterRateLimitError
           ("Twitter GraphQL failed on all hosts: "
            +:+ "Twitter GraphQL request failed on twitter.com (429): "
            +:+ "Rate limit exceeded | "
            +:+ "Twitter GraphQL request failed on x.com (429): "
            +:+ "Rate limit exceeded")
           ["twitter.com"; "x.com"]).
Proof.
  destruct (X22_rate_limit_on_every_host (fun text => text) 1 2
              (@DemoTimeline.limited unit) DemoTimeline.client)
    as [message Hthrown].
  - intros t host auth bearer. eexists. repeat split.
  - rewrite Hthrown. cbn [fst]. revert Hthrown. vm_compute.
    intros Heq. now injection Heq as <-.
Defined.

(** X23.  The effort of one call is bounded, and the credentials only
    move forward: [executeGraphqlWithFallback] makes at least one and at
    most six requests (three attempts of two hosts), the first one to
    the first host of the host order with the credentials in use; the
    indices of the cookie pair and of the bearer token never go back,
    move at most three steps in all, and stay within their lists. *)
Theorem X23_request_effort_is_bounded (payloadSnippet : string -> string)
    (authCandidateCount bearerTokenCount : nat) {T : Type}
    (request : TwitterAdapter.Request T) (c : TwitterAdapter.Client) :
  let after :=
    snd (TwitterAdapter.executeGraphqlWithFallback payloadSnippet
           authCandidateCount bearerTokenCount request c) in
  exists made first others later,
    TwitterAdapter.requests after = (made ++ TwitterAdapter.requests c)%list
    /\ TwitterAdapter.moment after = (TwitterAdapter.moment c + length made)%nat
    /\ (length made <= 6)%nat
    /\ TwitterAdapter.getHostOrder c = first :: others
    /\ made = (later ++ [(first, TwitterAdapter.authCandidateIndex c,
                          TwitterAdapter.bearerTokenIndex c)])%list
    /\ (TwitterAdapter.authCandidateIndex c
        <= TwitterAdapter.authCandidateIndex after)%nat
    /\ (TwitterAdapter.bearerTokenIndex c
        <= TwitterAdapter.bearerTokenIndex after)%nat
    /\ (TwitterAdapter.authCandidateIndex after
        + TwitterAdapter.bearerTokenIndex after
        <= TwitterAdapter.authCandidateIndex c
           + TwitterAdapter.bearerTokenIndex c + 3)%nat
    /\ ((TwitterAdapter.authCandidateIndex c < authCandidateCount)%nat ->
        (TwitterAdapter.authCandidateIndex after < authCandidateCount)%nat)
    /\ ((TwitterAdapter.bearerTokenIndex c < bearerTokenCount)%nat ->
        (TwitterAdapter.bearerTokenIndex after < bearerTokenCount)%nat).
Proof.
  intros after. subst after. unfold TwitterAdapter.executeGraphqlWithFallback.
  destruct (attempts_client payloadSnippet authCandidateCount bearerTokenCount
              request 3 [] c)
    as (made & Hreq & Hmoment & Hmade & Ha & Hb & Hsum & Hain & Hbin & _ & Hfirst).
  cbv zeta in *.
  destruct (Hfirst ltac:(discriminate)) as (first & others & later & Horder & Hlater).
  exists made, first, others, later. repeat split; auto.
Qed.

(** X24.  The host that answered is preferred: when
    [executeGraphqlWithFallback] returns, the answer came from the last
    request made, its host becomes the preferred host, and the next
    call, whatever it asks, makes its first request to that host.  A
    call that throws leaves the preferred host as it was. *)
Theorem X24_answering_host_is_preferred (payloadSnippet : string -> string)
    (authCandidateCount bearerTokenCount : nat) {T : Type}
    (request : TwitterAdapter.Request T) (c : TwitterAdapter.Client) :
  let out :=
    TwitterAdapter.executeGraphqlWithFallback payloadSnippet authCandidateCount
      bearerTokenCount request c in
  match fst out with
  | inr (_, host) =>
      TwitterAdapter.preferredHost (snd out) = Some host
      /\ (exists auth bearer earlier,
            TwitterAdapter.requests (snd out) = (host, auth, bearer) :: earlier)
      /\ forall (T' : Type) (next : TwitterAdapter.Request T'),
         exists later,
           TwitterAdapter.requests
             (snd (TwitterAdapter.executeGraphqlWithFallback payloadSnippet
                     authCandidateCount bearerTokenCount next (snd out)))
           = (later
              ++ (host, TwitterAdapter.authCandidateIndex (snd out),
                  TwitterAdapter.bearerTokenIndex (snd out))
                 :: TwitterAdapter.requests (snd out))%list
  | inl _ =>
      TwitterAdapter.preferredHost (snd out) = TwitterAdapter.preferredHost c
  end.
Proof.
  intros out. subst out. unfold TwitterAdapter.executeGraphqlWithFallback.
  destruct (attempts_client payloadSnippet authCandidateCount bearerTokenCount
              request 3 [] c)
    as (made & Hreq & _ & _ & _ & _ & _ & _ & _ & Hresult & _).
  cbv zeta in *.
  destruct (TwitterAdapter.attempts payloadSnippet authCandidateCount
              bearerTokenCount request 3 [] c) as [[error|[payload host]] after];
    cbn [fst snd] in *; [exact Hresult|].
  destruct Hresult as [Hpref (auth & bearer & earlier & ->)].
  split; [exact Hpref|]. split.
  - rewrite Hreq. now exists auth, bearer, (earlier ++ TwitterAdapter.requests c)%list.
  - intros T' next.
    destruct (attempts_client payloadSnippet authCandidateCount bearerTokenCount
                next 3 [] after)
      as (made' & Hreq' & _ & _ & _ & _ & _ & _ & _ & _ & Hfirst).
    cbv zeta in *.
    destruct (Hfirst ltac:(discriminate)) as (first & others & later & Horder & ->).
    destruct (getHostOrder_preferred after host Hpref) as (other & Horder' & _).
    rewrite Horder' in Horder. injection Horder as <- _.
    exists later. rewrite Hreq', <- app_assoc. reflexivity.
Qed.

(** X25.  A rate limited host shows in the message: when one host
    answers every request with status 429 and the call throws, whatever
    the other host does, the error thrown is one that
    [isTwitterRateLimitError] accepts in the version that also tests the
    message (the one of the unnamed module part_001), also when it is
    not a [TwitterRateLimitError]; the class test of [src/errors.ts],
    which the engine imports, rejects it then. *)
Theorem X25_rate_limited_host_shows_in_the_message (payloadSnippet : string -> string)
    (authCandidateCount bearerTokenCount : nat) {T : Type}
    (request : TwitterAdapter.Request T) (limited : TwitterAdapter.TwitterHost)
    (c after : TwitterAdapter.Client) (error : JsError) :
  (forall t auth bearer, exists response,
     request t limited auth bearer = inr response
     /\ TwitterAdapter.GraphqlResponse.ok response = false
     /\ TwitterAdapter.GraphqlResponse.status response = 429) ->
  TwitterAdapter.executeGraphqlWithFallback payloadSnippet authCandidateCount
    bearerTokenCount request c = (inl error, after) ->
  Errors.isTwitterRateLimitError_byMessage error = true.
Proof.
  intros Hlimited Hthrown.
  apply (attempts_matches payloadSnippet authCandidateCount bearerTokenCount
           request limited 3 [] c Hlimited).
  - discriminate.
  - unfold TwitterAdapter.executeGraphqlWithFallback in Hthrown. now rewrite Hthrown.
Qed.

Lemma X25_witness :
  exists message after,
    TwitterAdapter.executeGraphqlWithFallback (fun text => text) 1 2
      (@DemoTimeline.mixed unit) DemoTimeline.client
    = (inl (ErrorObj "Error" message), after)
    /\ Errors.isTwitterRateLimitError_byMessage (ErrorObj "Error" message) = true
    /\ Errors.isTwitterRateLimitError (ErrorObj "Error" message) = false.
Proof.
  eexists _, _. split; [vm_compute; reflexivity|].
  split; [|reflexivity].
  eapply (X25_rate_limited_host_shows_in_the_message (fun text => text) 1 2
            (@DemoTimeline.mixed unit) TwitterAdapter.twitter_com
            DemoTimeline.client).
  - intros t auth bearer. eexists. repeat split.
  - vm_compute. reflexivity.
Defined.

(** One call makes at most six requests. *)
Lemma executeGraphqlWithFallback_requests (payloadSnippet : string -> string)
    (authCandidateCount bearerTokenCount : nat) {T : Type}
    (request : TwitterAdapter.Request T) (c : TwitterAdapter.Client) :
  exists made,
    TwitterAdapter.requests
      (snd (TwitterAdapter.executeGraphqlWithFallback payloadSnippet
              authCandidateCount bearerTokenCount request c))
    = (made ++ TwitterAdapter.requests c)%list
    /\ (length made <= 6)%nat.
Proof.
  unfold TwitterAdapter.executeGraphqlWithFallback.
  destruct (attempts_client payloadSnippet authCandidateCount bearerTokenCount
              request 3 [] c) as (made & Hreq & _ & Hmade & _).
  cbv zeta in *. exists made. split; [exact Hreq | lia].
Qed.

Section Listing.
Variable payloadSnippet : string -> string.
Variables authCandidateCount bearerTokenCount : nat.
Variable fetchUser : string -> TwitterAdapter.Request (option string).
Variable fetchTweets :
  string -> option string ->
  TwitterAdapter.Request (option (list TwitterAdapter.TimelineInstruction)).
Context `{Platform}.

Lemma parseTimelinePayload_posts payload username now parsed :
  TwitterAdapter.parseTimelinePayload payload username now = inr parsed ->
  Forall wellFormedPost (TwitterAdapter.ParsedTimeline.tweets parsed)
  /\ TwitterAdapter.ParsedTimeline.nextCursor parsed <> Some "".
Proof.
  unfold TwitterAdapter.parseTimelinePayload.
  assert (Hparse : forall instructions,
            TwitterAdapter.parseTimeline instructions username now = inr parsed ->
            Forall wellFormedPost (TwitterAdapter.ParsedTimeline.tweets parsed)
            /\ TwitterAdapter.ParsedTimeline.nextCursor parsed <> Some "").
  { intros instructions Hparsed.
    pose proof (parseTimeline_posts instructions username now) as Hok.
    now rewrite Hparsed in Hok. }
  destruct payload as [text| | |errors error instructions]; try discriminate;
    apply Hparse.
Qed.

(** The paging loop: the posts it adds are well formed, the cursor it
    leaves is never the empty text once a page was parsed, and a round
    costs at most six requests. *)
Lemma pages_spec userId username rounds : forall cursor allTweets c,
  let out :=
    TwitterAdapter.pages payloadSnippet authCandidateCount bearerTokenCount
      fetchTweets userId username rounds cursor allTweets c in
  (exists made,
     TwitterAdapter.requests (snd out) = (made ++ TwitterAdapter.requests c)%list
     /\ (length made <= 6 * rounds)%nat)
  /\ forall last collected,
       fst out = inr (last, collected) ->
       (Forall wellFormedPost allTweets -> Forall wellFormedPost collected)
       /\ (rounds <> 0%nat \/ cursor <> Some "" -> last <> Some "").
Proof.
  induction rounds as [|rounds IH]; intros cursor allTweets c;
    cbn [TwitterAdapter.pages].
  - cbn [fst snd]. split; [exists []; split; [reflexivity | cbn; lia]|].
    intros last collected Heq. injection Heq as <- <-.
    split; [auto|]. intros [Hr | Hc]; [contradiction | exact Hc].
  - destruct (executeGraphqlWithFallback_requests payloadSnippet
                authCandidateCount bearerTokenCount
                (fetchTweets userId
                   (if TwitterAdapter.truthy cursor then cursor else None)) c)
      as (made & Hreq & Hmade).
    destruct (TwitterAdapter.executeGraphqlWithFallback payloadSnippet
                authCandidateCount bearerTokenCount
                (fetchTweets userId
                   (if TwitterAdapter.truthy cursor then cursor else None)) c)
      as [[error|[payload host]] answered]; cbn [snd] in Hreq.
    { cbn. split; [exists made; split; [exact Hreq | lia]|]. discriminate. }
    destruct (TwitterAdapter.parseTimelinePayload payload username
                (Date_now (TwitterAdapter.moment answered)))
      as [error|parsed] eqn:Hparse.
    { cbn. split; [exists made; split; [exact Hreq | lia]|]. discriminate. }
    destruct (parseTimelinePayload_posts _ _ _ _ Hparse) as [Hposts Hcursor].
    destruct (negb _ || _).
    + cbn. split; [exists made; split; [exact Hreq | lia]|].
      intros last collected Heq. injection Heq as <- <-.
      split; [|auto]. intros Hall. apply Forall_app. now split.
    + destruct (IH (TwitterAdapter.ParsedTimeline.nextCursor parsed)
                  (allTweets ++ TwitterAdapter.ParsedTimeline.tweets parsed)%list
                  answered) as [(made' & Hreq' & Hmade') Hresult].
      cbv zeta in *. split.
      * exists (made' ++ made)%list. rewrite Hreq', Hreq, length_app, <- app_assoc.
        split; [reflexivity | lia].
      * intros last collected Hout.
        destruct (Hresult last collected Hout) as [Hall Hlast]. split.
        -- intros Hstart. apply Hall. apply Forall_app. now split.
        -- intros _. apply Hlast. now right.
Qed.

End Listing.

(** X26.  What [listTweetsWithMedia] returns: the ids of the posts are
    pairwise different, every post is well formed (an id, at least one
    media with id and url, the address of its status page, a printable
    date), and when the ids are numbers the posts are in descending
    order of id (newest first).  For the direction `newer' no next
    cursor is returned; for `older' the next cursor is never the empty
    text. *)
Theorem X26_listTweetsWithMedia_result `{Platform}
    (payloadSnippet : string -> string) (authCandidateCount bearerTokenCount : nat)
    (fetchUser : string -> TwitterAdapter.Request (option string))
    (fetchTweets :
       string -> option string ->
       TwitterAdapter.Request (option (list TwitterAdapter.TimelineInstruction)))
    (params : ListTweetsWithMediaParams.t) (c after : TwitterAdapter.Client)
    (result : ListTweetsWithMediaResult.t) :
  TwitterAdapter.listTweetsWithMedia payloadSnippet authCandidateCount
    bearerTokenCount fetchUser fetchTweets params c = (inr result, after) ->
  NoDup (List.map MediaTweet.id (ListTweetsWithMediaResult.tweets result))
  /\ Forall wellFormedPost (ListTweetsWithMediaResult.tweets result)
  /\ (Forall (fun t => exists n, Number_ (MediaTweet.id t) = Fin n)
             (ListTweetsWithMediaResult.tweets result) ->
      StronglySorted
        (fun a b => forall x y,
           Number_ (MediaTweet.id a) = Fin x ->
           Number_ (MediaTweet.id b) = Fin y -> y <= x)
        (ListTweetsWithMediaResult.tweets result))
  /\ match ListTweetsWithMediaParams.direction params with
     | newer => ListTweetsWithMediaResult.nextCursor result = None
     | older => ListTweetsWithMediaResult.nextCursor result <> Some ""
     end.
Proof.
  unfold TwitterAdapter.listTweetsWithMedia.
  destruct (TwitterAdapter.getUserIdByScreenName _ _ _ _ _ c)
    as [[error|userId] resolved]; [discriminate|].
  cbv zeta.
  pose proof (pages_spec payloadSnippet authCandidateCount bearerTokenCount
                fetchTweets userId (ListTweetsWithMediaParams.username params)
                (Z.to_nat (Z.max 1 (ListTweetsWithMediaParams.limitPages params)))
                (ListTweetsWithMediaParams.cursor params) [] resolved)
    as [_ Hpages].
  cbv zeta in Hpages.
  destruct (TwitterAdapter.pages _ _ _ _ _ _ _ _ _ resolved)
    as [[error|[cursor allTweets]] paged]; [discriminate|].
  cbn [fst] in Hpages.
  destruct (Hpages cursor allTweets eq_refl) as [Hposts Hcursor].
  specialize (Hposts (List.Forall_nil _)).
  assert (Hlast : cursor <> Some "") by (apply Hcursor; left; lia).
  intros Heq. injection Heq as <- <-.
  cbn [ListTweetsWithMediaResult.tweets ListTweetsWithMediaResult.nextCursor].
  destruct (merge_map_invariant allTweets) as [Hnd Hin]. cbv zeta in Hnd, Hin.
  set (map := List.fold_left (fun m tweet => Map_set m (MediaTweet.id tweet) tweet)
                             allTweets []) in *.
  assert (Hids : List.map MediaTweet.id (List.map snd map) = List.map fst map).
  { rewrite List.map_map. apply List.map_ext_in. intros [k t] Hkt.
    cbn [fst snd]. now apply Hin in Hkt. }
  assert (Hfrom : forall t, In t (List.map snd map) -> In t allTweets).
  { intros t Ht. apply in_map_iff in Ht. destruct Ht as ([k t'] & Heq & Hkt).
    cbn [snd] in Heq. subst t'. apply Hin in Hkt.
    destruct Hkt as (_ & before & after' & -> & _).
    apply in_app_iff. right. now left. }
  pose proof (Array_sort_Permutation TwitterAdapter.compareNewestFirst
                (List.map snd map)) as Hperm.
  split; [|split; [|split]].
  - rewrite Hperm. now rewrite Hids.
  - apply List.Forall_forall. intros t Ht.
    rewrite List.Forall_forall in Hposts. apply Hposts, Hfrom.
    apply list_elem_of_In. rewrite <- Hperm. now apply list_elem_of_In.
  - intros Hnumeric.
    assert (Hkey : forall t, In t (List.map snd map) ->
                     exists n, Number_ (MediaTweet.id t) = Fin n).
    { intros t Ht. rewrite List.Forall_forall in Hnumeric. apply Hnumeric.
      apply list_elem_of_In. rewrite Hperm. now apply list_elem_of_In. }
    pose proof (Array_sort_sorted TwitterAdapter.compareNewestFirst
                  (fun t => match Number_ (MediaTweet.id t) with
                            | Fin n => - n
                            | NaN => 0
                            end)
                  (List.map snd map)) as Hsorted.
    assert (Hcompare : forall x y,
              In x (List.map snd map) -> In y (List.map snd map) ->
              TwitterAdapter.compareNewestFirst x y
              = (match Number_ (MediaTweet.id x) with Fin n => - n | NaN => 0 end
                 ?= match Number_ (MediaTweet.id y) with Fin n => - n | NaN => 0 end)).
    { intros x y Hx Hy. unfold TwitterAdapter.compareNewestFirst.
      destruct (Hkey x Hx) as [nx ->]. destruct (Hkey y Hy) as [ny ->].
      now rewrite Z.compare_opp. }
    specialize (Hsorted Hcompare). clear - Hsorted.
    induction Hsorted as [|a rest Hrest IH Hall]; constructor; [exact IH|].
    eapply List.Forall_impl; [|exact Hall]. cbv beta.
    intros b Hab x y Hx Hy. rewrite Hx, Hy in Hab. lia.
  - now destruct (ListTweetsWithMediaParams.direction params).
Qed.

Lemma X26_witness :
  let P := Demo.platform Demo.noPosts Demo.sizes in
  let out :=
    @TwitterAdapter.listTweetsWithMedia (fun text => text) 1 2
      DemoTimeline.fetchUser DemoTimeline.fetchTweets P
      (ListTweetsWithMediaParams.mk "alice" None older 2) DemoTimeline.client in
  exists result,
    fst out = inr result
    /\ List.map MediaTweet.id (ListTweetsWithMediaResult.tweets result) = ["42"]
    /\ ListTweetsWithMediaResult.nextCursor result = Some "++"
    /\ NoDup (List.map MediaTweet.id (ListTweetsWithMediaResult.tweets result)).
Proof.
  intros P out.
  assert (Hrun : exists result,
            out = (inr result, snd out)
            /\ List.map MediaTweet.id (ListTweetsWithMediaResult.tweets result)
               = ["42"]
            /\ ListTweetsWithMediaResult.nextCursor result = Some "++").
  { eexists. split; [vm_compute; reflexivity|]. split; reflexivity. }
  destruct Hrun as (result & Hrun & Hids & Hcursor).
  exists result. split; [now rewrite Hrun|]. split; [exact Hids|].
  split; [exact Hcursor|].
  exact (proj1 (@X26_listTweetsWithMedia_result P _ _ _ _ _ _ _ _ _ Hrun)).
Defined.

(** X27.  The cost of [listTweetsWithMedia]: the requests made before
    the call stay in the log, and the call adds at most six requests for
    the user id and six for each of the [max(1, limitPages)] pages. *)
Theorem X27_listTweetsWithMedia_requests `{Platform}
    (payloadSnippet : string -> string) (authCandidateCount bearerTokenCount : nat)
    (fetchUser : string -> TwitterAdapter.Request (option string))
    (fetchTweets :
       string -> option string ->
       TwitterAdapter.Request (option (list TwitterAdapter.TimelineInstruction)))
    (params : ListTweetsWithMediaParams.t) (c : TwitterAdapter.Client) :
  let after :=
    snd (TwitterAdapter.listTweetsWithMedia payloadSnippet authCandidateCount
           bearerTokenCount fetchUser fetchTweets params c) in
  let maxPages := Z.max 1 (ListTweetsWithMediaParams.limitPages params) in
  exists made,
    TwitterAdapter.requests after = (made ++ TwitterAdapter.requests c)%list
    /\ Z.of_nat (length made) <= 6 * (1 + maxPages).
Proof.
  intros after maxPages. subst after maxPages.
  unfold TwitterAdapter.listTweetsWithMedia, TwitterAdapter.getUserIdByScreenName.
  destruct (executeGraphqlWithFallback_requests payloadSnippet authCandidateCount
              bearerTokenCount
              (fetchUser (ListTweetsWithMediaParams.username params)) c)
    as (made & Hreq & Hmade).
  destruct (TwitterAdapter.executeGraphqlWithFallback payloadSnippet
              authCandidateCount bearerTokenCount
              (fetchUser (ListTweetsWithMediaParams.username params)) c)
    as [[error|[payload host]] answered]; cbn [snd] in Hreq.
  { exists made. cbn [snd]. split; [exact Hreq | lia]. }
  assert (Hfailed : forall error : JsError,
            exists made0,
              TwitterAdapter.requests
                (snd (@inl JsError ListTweetsWithMediaResult.t error, answered))
              = (made0 ++ TwitterAdapter.requests c)%list
              /\ Z.of_nat (length made0)
                 <= 6 * (1 + Z.max 1 (ListTweetsWithMediaParams.limitPages params))).
  { intros error. exists made. cbn [snd]. split; [exact Hreq | lia]. }
  destruct payload as [text| | |errors error [userId|]]; try apply Hfailed.
  destruct (negb (String.eqb userId "")); [|apply Hfailed].
  cbv zeta.
  destruct (pages_spec payloadSnippet authCandidateCount bearerTokenCount
              fetchTweets userId (ListTweetsWithMediaParams.username params)
              (Z.to_nat (Z.max 1 (ListTweetsWithMediaParams.limitPages params)))
              (ListTweetsWithMediaParams.cursor params) [] answered)
    as [(made' & Hreq' & Hmade') _].
  cbv zeta in Hreq'.
  destruct (TwitterAdapter.pages _ _ _ _ _ _ _ _ _ answered)
    as [[error'|[cursor allTweets]] paged]; cbn [snd] in Hreq' |- *;
    exists (made' ++ made)%list; rewrite Hreq', Hreq, length_app, <- app_assoc;
    (split; [reflexivity | lia]).
Qed.

(* ===================================================================== *)
(** * A download that keeps failing *)
(* ===================================================================== *)





(* ===================================================================== *)
(** * Runs of the scheduler do not overlap *)
(* ===================================================================== *)

Lemma steps_invocations scheduler inputs : forall d,
  (length (Scheduler.invocations (Scheduler.steps scheduler d inputs))
   + (if Scheduler.isRunning d then 1 else 0)
   <= length (Scheduler.invocations d)
      + (if Scheduler.isRunning (Scheduler.steps scheduler d inputs) then 1 else 0)
      + settledRuns inputs)%nat.
Proof.
  unfold Scheduler.steps.
  induction inputs as [|input rest IH]; intros d; cbn [fold_left settledRuns].
  - lia.
  - specialize (IH (Scheduler.step scheduler d input)).
    destruct input as [now|outcome]; cbn [Scheduler.step settledRuns] in *.
    + unfold Scheduler.onTick in *.
      destruct (Scheduler.invokes scheduler now d) eqn:Hinvokes; [|exact IH].
      apply invokes_spec in Hinvokes. destruct Hinvokes as (Hidle & _).
      rewrite Hidle. cbn [Scheduler.invocations Scheduler.isRunning length] in IH.
      lia.
    + unfold Scheduler.onSettled in *.
      destruct (Scheduler.inFlight d) as [now|].
      * cbn [Scheduler.invocations Scheduler.isRunning] in IH.
        destruct (Scheduler.isRunning d); lia.
      * lia.
Qed.

(** X29.  Runs of the scheduler do not overlap: from the start of the
    daemon, whatever ticks and settlements follow, the engine has been
    invoked at most once more than runs have settled, and not more often
    than runs have settled when no run is in flight; a tick that comes
    while a run is in flight changes nothing. *)
Theorem X29_scheduled_runs_do_not_overlap (scheduler : Scheduler.SchedulerConfig)
    (inputs : list Scheduler.Input) :
  let d := Scheduler.steps scheduler SchedulerEnv.initialDaemon inputs in
  (length (Scheduler.invocations d) <= settledRuns inputs + 1)%nat
  /\ (Scheduler.isRunning d = false ->
      (length (Scheduler.invocations d) <= settledRuns inputs)%nat)
  /\ (Scheduler.isRunning d = true ->
      forall now, Scheduler.onTick scheduler now d = d).
Proof.
  intros d. subst d.
  pose proof (steps_invocations scheduler inputs SchedulerEnv.initialDaemon)
    as Hcount.
  cbn [SchedulerEnv.initialDaemon Scheduler.invocations Scheduler.isRunning length]
    in Hcount.
  split; [|split].
  - destruct (Scheduler.isRunning _); lia.
  - intros Hidle. rewrite Hidle in Hcount. lia.
  - intros Hrunning now. unfold Scheduler.onTick, Scheduler.invokes.
    now rewrite Hrunning.
Qed.
